(** * Burn mapping: the per-pixel change-detection pipeline

    A shallow embedding of [notebooks/handover/burnmappingtoolbox.py] and of
    the per-pixel and scheduling logic of [notebooks/handover/BurnCube.py],
    with the properties of the written specification stated over it.
    The last part adds the spectral angle and the medoid of the toolbox, the
    parallel stages, the masking of the loaded cube and the pixel selection
    of [BurnCube.py], and the burn mask and the rates of
    [notebooks/handover/validationtoolbox.py].

    Conventions of the embedding.
    - A numpy float is a value of [fl]: an exact rational, one of the two
      infinities, or NaN.  Arithmetic on the finite part is exact (rounding
      and the sign of zero are not modelled); the special values follow the
      IEEE rules the code relies on: NaN is absorbing and compares false with
      everything, [x/0] is an infinity for [x <> 0] and NaN for [x = 0].
    - [np.sqrt] is a parameter [sqrtQ] of class [Sqrt] with the two facts the
      code needs: it is non-negative and maps 0 to 0.
    - A [datetime64[ns]] is its integer count of nanoseconds, a [Z].
    - A Python exception is a value [Err e] of the result type [res].
    - A 1-D array is a list; a 2-D array is a list of rows.  The variables
      of one xarray dataset share their shape; elementwise operations on
      them are written with [map2].  Where the code multiplies two arrays
      whose lengths it does not control ([ref * obs]), the product follows
      numpy: equal lengths or a length of one, ValueError otherwise.
    - [BurnCube.py] imports [geometric_median], [cos_distance],
      [nbr_eucdistance], [severity] and [nanpercentile] from a module
      [stats]; the functions embedded here are those of
      [burnmappingtoolbox.py].  The workers of [BurnCube.py] take the
      functions they call as arguments, and the statements pass them the
      functions of [burnmappingtoolbox.py]. *)

From Stdlib Require Import String.
From Stdlib Require Import ZArith QArith List Bool Lia Lqa.
From Stdlib Require Import Sorting.Sorted FinFun.
Import ListNotations.

Set Implicit Arguments.

Local Open Scope Z_scope.

(* ================================================================== *)
(** * Floating-point values *)

Module Float.

Inductive fl : Type :=
| Fin (q : Q)
| PInf
| NInf
| NaN.

Definition isnan (x : fl) : bool :=
  match x with NaN => true | _ => false end.

Definition isfinite (x : fl) : bool :=
  match x with Fin _ => true | _ => false end.

Definition Qlt_bool (a b : Q) : bool := negb (Qle_bool b a).

Definition fneg (x : fl) : fl :=
  match x with
  | Fin q => Fin (- q)
  | PInf => NInf
  | NInf => PInf
  | NaN => NaN
  end.

Definition fadd (x y : fl) : fl :=
  match x, y with
  | NaN, _ | _, NaN => NaN
  | Fin a, Fin b => Fin (a + b)
  | PInf, NInf | NInf, PInf => NaN
  | PInf, _ | _, PInf => PInf
  | NInf, _ | _, NInf => NInf
  end.

Definition fsub (x y : fl) : fl := fadd x (fneg y).

(** The sign of a finite value: -1, 0 or 1. *)
Definition Qsign (q : Q) : Z := Z.sgn (Qnum q).

Definition inf_of_sign (s : Z) : fl :=
  if s =? 0 then NaN else if 0 <? s then PInf else NInf.

Definition fsign (x : fl) : Z :=
  match x with
  | Fin q => Qsign q
  | PInf => 1
  | NInf => -1
  | NaN => 0
  end.

Definition fmul (x y : fl) : fl :=
  match x, y with
  | NaN, _ | _, NaN => NaN
  | Fin a, Fin b => Fin (a * b)
  | _, _ => inf_of_sign (fsign x * fsign y)
  end.

Definition fdiv (x y : fl) : fl :=
  match x, y with
  | NaN, _ | _, NaN => NaN
  | Fin a, Fin b =>
      if Qeq_bool b 0 then inf_of_sign (Qsign a) else Fin (a / b)
  | Fin _, _ => Fin 0
  | _, Fin b => if Qlt_bool b 0 then fneg x else x
  | _, _ => NaN
  end.

(** [x > y], [x < y] and [x == y] on floats; false as soon as one side is
    NaN. *)
Definition flt (x y : fl) : bool :=
  match x, y with
  | NaN, _ | _, NaN => false
  | Fin a, Fin b => Qlt_bool a b
  | NInf, NInf | PInf, _ => false
  | NInf, _ => true
  | _, PInf => true
  | _, NInf => false
  end.

Definition fgt (x y : fl) : bool := flt y x.

Definition feqb (x y : fl) : bool :=
  match x, y with
  | Fin a, Fin b => Qeq_bool a b
  | PInf, PInf | NInf, NInf => true
  | _, _ => false
  end.

(** Equality of floats as values (rationals up to [Qeq]). *)
Definition feq (x y : fl) : Prop :=
  match x, y with
  | Fin a, Fin b => (a == b)%Q
  | PInf, PInf | NInf, NInf | NaN, NaN => True
  | _, _ => False
  end.

Definition of_Z (z : Z) : fl := Fin (inject_Z z).

Definition fzero : fl := Fin 0.
Definition fone : fl := Fin 1.

(** [np.sum] of a 1-D array. *)
Definition fsum (l : list fl) : fl := fold_left fadd l fzero.

(** [np.sqrt] on rationals is a parameter. *)
Class Sqrt : Type := {
  sqrtQ : Q -> Q;
  sqrtQ_nonneg : forall q, (0 <= sqrtQ q)%Q;
  sqrtQ_zero : forall q, (q == 0)%Q -> (sqrtQ q == 0)%Q
}.

Definition fsqrt `{Sqrt} (x : fl) : fl :=
  match x with
  | Fin q => if Qlt_bool q 0 then NaN else Fin (sqrtQ q)
  | PInf => PInf
  | NInf | NaN => NaN
  end.

End Float.
Import Float.

(* ================================================================== *)
(** * Exceptions *)

Inductive exn : Type :=
| IndexError
| ValueError
| NameError
| ZeroDivisionError
| OutOfFuel.  (* not a Python exception: the iteration bound of a modelled
                 [while] loop was reached before the loop ended *)

Inductive res (A : Type) : Type :=
| Ok (a : A)
| Err (e : exn).

Arguments Ok {A} a.
Arguments Err {A} e.

Definition bind {A B : Type} (m : res A) (k : A -> res B) : res B :=
  match m with
  | Ok a => k a
  | Err e => Err e
  end.

Notation "x <- m ;; k" := (bind m (fun x => k))
  (at level 61, m at next level, right associativity).

Notation "' pat <- m ;; k" := (bind m (fun x => match x with pat => k end))
  (at level 61, pat pattern, m at next level, right associativity).

Fixpoint mapM {A B : Type} (f : A -> res B) (l : list A) : res (list B) :=
  match l with
  | [] => Ok []
  | a :: l' => b <- f a ;; bs <- mapM f l' ;; Ok (b :: bs)
  end.

Fixpoint foldM {A S : Type} (f : S -> A -> res S) (l : list A) (s : S)
  : res S :=
  match l with
  | [] => Ok s
  | a :: l' => s' <- f s a ;; foldM f l' s'
  end.

(* ================================================================== *)
(** * numpy and Python helpers *)

Module Np.

(** [A[i]]: IndexError when out of range. *)
Definition get {A : Type} (l : list A) (i : nat) : res A :=
  match nth_error l i with
  | Some a => Ok a
  | None => Err IndexError
  end.

(** [np.where(mask)[0]]: the positions at which the mask holds, ascending. *)
Definition np_where (mask : list bool) : list nat :=
  filter (fun i => nth i mask false) (seq 0 (length mask)).

(** [A[idx]] for an integer index array. *)
Definition take {A : Type} (l : list A) (idx : list nat) : res (list A) :=
  mapM (get l) idx.

(** Elementwise binary operation on two arrays of the same shape. *)
Fixpoint map2 {A B C : Type} (f : A -> B -> C) (l : list A) (m : list B)
  : list C :=
  match l, m with
  | a :: l', b :: m' => f a b :: map2 f l' m'
  | _, _ => []
  end.

(** [out[idx] = vals]: the entries of [out] at the positions [idx] are
    replaced by the entries of [vals], one value per position. *)
Fixpoint set_nth {A : Type} (l : list A) (i : nat) (v : A) : res (list A) :=
  match l, i with
  | [], _ => Err IndexError
  | _ :: l', O => Ok (v :: l')
  | a :: l', S i' => r <- set_nth l' i' v ;; Ok (a :: r)
  end.

Fixpoint scatter_zip {A : Type} (out : list A) (iv : list (nat * A))
  : res (list A) :=
  match iv with
  | [] => Ok out
  | (i, v) :: iv' => out' <- set_nth out i v ;; scatter_zip out' iv'
  end.

Definition scatter {A : Type} (out : list A) (idx : list nat) (vals : list A)
  : res (list A) :=
  if Nat.eqb (length idx) (length vals)
  then scatter_zip out (combine idx vals)
  else Err ValueError.

(** [range(start, stop, step)]; a zero step raises ValueError. *)
Definition range (start stop step : Z) : res (list Z) :=
  if step =? 0 then Err ValueError
  else if 0 <? step then
    Ok (map (fun k => start + Z.of_nat k * step)
            (seq 0 (Z.to_nat ((stop - start + step - 1) / step))))
  else
    Ok (map (fun k => start + Z.of_nat k * step)
            (seq 0 (Z.to_nat ((start - stop - step - 1) / (- step))))).

(** Python's [a // b] on integers. *)
Definition floordiv (a b : Z) : res Z :=
  if b =? 0 then Err ZeroDivisionError else Ok (a / b).

End Np.

(* ================================================================== *)
(** * burnmappingtoolbox.py *)

Module Toolbox.

Import Np.

Definition matrix : Type := list (list fl).

Section Numeric.
Context `{Sqrt}.

(** ** geometric_median *)

(** One entry of [np.nanmean(X, axis=1)]: the mean of the non-NaN entries of
    a row; NaN (0/0) for a row without any. *)
Definition nanmean (row : list fl) : fl :=
  let valid := filter (fun x => negb (isnan x)) row in
  fdiv (fsum valid) (of_Z (Z.of_nat (length valid))).

(** [len(y[np.isnan(y)]) > 0] *)
Definition any_nan (y : list fl) : bool := existsb isnan y.

(** The variable [eps]: the int [10**2] or [0], or the vector [y1 - y0]. *)
Inductive epsilon : Type :=
| EpsScalar (x : fl)
| EpsVector (v : list fl).

Definition square (x : fl) : fl := fmul x x.

(** [np.sqrt(np.sum(eps**2))] *)
Definition eps_norm (eps : epsilon) : fl :=
  match eps with
  | EpsScalar x => fsqrt (square x)
  | EpsVector v => fsqrt (fsum (map square v))
  end.

(** [np.transpose(np.transpose(X) - y0)]: entry [b][t] is [X[b][t] - y0[b]]. *)
Definition euc_dist (X : matrix) (y0 : list fl) : matrix :=
  map2 (fun row y => map (fun x => fsub x y) row) X y0.

(** [np.sum(M, axis=0)] for a matrix with [n] columns. *)
Definition sum_axis0 (n : nat) (M : matrix) : list fl :=
  fold_left (map2 fadd) M (repeat fzero n).

(** [np.sqrt(np.sum(EucDist**2, axis=0))] *)
Definition euc_norm (n : nat) (X : matrix) (y0 : list fl) : list fl :=
  map fsqrt (sum_axis0 n (map (map square) (euc_dist X y0))).

(** The body of the loop up to [y1]. *)
Definition weiszfeld (n : nat) (X : matrix) (y0 : list fl) : res (list fl) :=
  let EucNorm := euc_norm n X y0 in
  let NotNaN := np_where (map (fun x => negb (isnan x)) EucNorm) in
  Xsel <- mapM (fun row => take row NotNaN) X ;;
  Nsel <- take EucNorm NotNaN ;;
  let denom := fsum (map (fun d => fdiv fone d) Nsel) in
  Ok (map (fun row => fdiv (fsum (map2 fdiv row Nsel)) denom) Xsel).

(** The [while] loop; [fuel] bounds the number of iterations the model
    follows. *)
Fixpoint gm_loop (fuel : nat) (n : nat) (X : matrix) (tol : fl)
  (MaxInter : Z) (y0 : list fl) (eps : epsilon) (l : Z) : res (list fl) :=
  match fuel with
  | O => Err OutOfFuel
  | S fuel' =>
      if fgt (eps_norm eps) tol && (l <? MaxInter) then
        y1 <- weiszfeld n X y0 ;;
        if any_nan y1
        then gm_loop fuel' n X tol MaxInter y0 (EpsScalar fzero) l
        else gm_loop fuel' n X tol MaxInter y1
                     (EpsVector (map2 fsub y1 y0)) (l + 1)
      else Ok y0
  end.

Definition geometric_median (fuel : nat) (X : matrix) (tol : fl)
  (MaxInter : Z) : res (list fl) :=
  row0 <- get X 0 ;;
  let NDATES := length row0 in
  let y0 := map nanmean X in
  if any_nan y0 then Ok y0
  else gm_loop fuel NDATES X tol MaxInter y0 (EpsScalar (of_Z (10 ^ 2))) 0.

(** ** cosdistance *)

(** [obs[:, t]] *)
Definition column (M : matrix) (t : nat) : res (list fl) :=
  mapM (fun row => get row t) M.

(** [u * v] for two 1-D arrays: entry by entry when the two have one length;
    an array of length one is broadcast; any other pair of lengths raises
    ValueError. *)
Definition mul_arrays (u v : list fl) : res (list fl) :=
  if Nat.eqb (length u) (length v) then Ok (map2 fmul u v)
  else if Nat.eqb (length u) 1 then Ok (map (fmul (hd NaN u)) v)
  else if Nat.eqb (length v) 1 then Ok (map (fun x => fmul x (hd NaN v)) u)
  else Err ValueError.

(** [np.sum(u * v)] *)
Definition dot (u v : list fl) : res fl :=
  p <- mul_arrays u v ;;
  Ok (fsum p).

Definition cosdistance (ref : list fl) (obs : matrix) : res (list fl) :=
  row0 <- get obs 0 ;;
  let cosdist := repeat NaN (length row0) in
  let index := np_where (map (fun x => negb (isnan x)) row0) in
  tmp <- mapM (fun t =>
                 o <- column obs t ;;
                 numer <- dot ref o ;;
                 Ok (fsub fone
                       (fdiv numer
                          (fmul (fsqrt (fsum (map square ref)))
                                (fsqrt (fsum (map square o))))))) index ;;
  scatter cosdist index tmp.

(** ** nbr_eucdistance *)

(** [index[mask]] for a boolean mask of the shape of [index]. *)
Definition bool_select {A : Type} (l : list A) (mask : list bool) : list A :=
  map fst (filter snd (combine l mask)).

Definition nbr_eucdistance (ref : fl) (obs : list fl)
  : res (list fl * list fl) :=
  let NBRdist := repeat NaN (length obs) in
  let Sign := repeat fzero (length obs) in
  let index := np_where (map (fun x => negb (isnan x)) obs) in
  sel <- take obs index ;;
  let EucDist := map (fun x => fsub x ref) sel in
  let EucNorm := map (fun d => fsqrt (square d)) EucDist in
  NBRdist' <- scatter NBRdist index EucNorm ;;
  let decreased := bool_select index (map (fun d => flt d fzero) EucDist) in
  Sign' <- scatter Sign decreased (repeat fone (length decreased)) ;;
  Ok (NBRdist', Sign').

End Numeric.

(** ** severity *)

(** The variable [startdate]: the int [0] it is initialised with, or an entry
    of [time]. *)
Inductive startval : Type :=
| NoStart
| StartAt (t : Z).

Record sevresult : Type := {
  sevindex : fl;
  startdate : startval;
  duration : fl
}.

(** The loop variables [AreaAboveD0], [duration] and [tt]. *)
Record scan : Type := {
  AreaAboveD0 : fl;
  dur : fl;
  tt : list nat
}.

Definition ns_per_s : Z := 1000000000.

(** [(t1 - t0)/np.timedelta64(1, 's')/(60*60*24)] *)
Definition days_between (t0 t1 : Z) : fl :=
  fdiv (fdiv (of_Z (t1 - t0)) (of_Z ns_per_s)) (of_Z (60 * 60 * 24)).

(** [0.5*y1_y0*t1_t0] with [y1_y0 = (c1 + c0) - 2*CDistoutlier] *)
Definition trapezoid (c0 c1 CDistoutlier t1_t0 : fl) : fl :=
  let y1_y0 := fsub (fadd c1 c0) (fmul (of_Z 2) CDistoutlier) in
  fmul (fmul (Fin (1 # 2)) y1_y0) t1_t0.

(** The body of [for ii in range(0, Nout)]. *)
Definition severity_step (cosdist : list fl) (time : list Z)
  (outlierind : list nat) (outlierdates : list Z) (CDistoutlier : fl)
  (st : scan) (ii : nat) : res scan :=
  k <- get outlierind ii ;;
  if (k + 1 <? length time)%nat then
    tnext <- get time (k + 1) ;;
    let u := np_where (map (fun d => tnext =? d) outlierdates) in
    if (0 <? length u)%nat then
      t0 <- get time k ;;
      let t1_t0 := days_between t0 tnext in
      c1 <- get cosdist (k + 1) ;;
      c0 <- get cosdist k ;;
      Ok {| AreaAboveD0 :=
              fadd (AreaAboveD0 st) (trapezoid c0 c1 CDistoutlier t1_t0);
            dur := fadd (dur st) t1_t0;
            tt := tt st ++ [ii] |}
    else Ok st
  else Ok st.

(** The three masks of the [if Method == ...] statements. *)
Definition mask1 (cosdist : list fl) (CDistoutlier : fl) : list bool :=
  map (fun c => fgt c CDistoutlier) cosdist.

Definition mask2 (cosdist : list fl) (CDistoutlier : fl) (nbr : list fl)
  : list bool :=
  map2 andb (mask1 cosdist CDistoutlier) (map (fun x => flt x fzero) nbr).

Definition mask3 (cosdist : list fl) (CDistoutlier : fl) (nbrdist : list fl)
  (NBRoutlier : fl) (sign : list fl) : list bool :=
  map2 andb
    (map2 andb (mask1 cosdist CDistoutlier)
               (map (fun x => fgt x NBRoutlier) nbrdist))
    (map (fun s => feqb s fone) sign).

(** The statements from [outlierdates = time[outlierind]] to the end. *)
Definition severity_scan (cosdist : list fl) (time : list Z)
  (outlierind : list nat) (CDistoutlier : fl) : res sevresult :=
  outlierdates <- take time outlierind ;;
  let Nout := length outlierind in
  if (2 <=? Nout)%nat then
    st <- foldM (severity_step cosdist time outlierind outlierdates
                   CDistoutlier)
                (seq 0 Nout)
                {| AreaAboveD0 := fzero; dur := fzero; tt := [] |} ;;
    match tt st with
    | ii0 :: _ =>
        k0 <- get outlierind ii0 ;;
        t <- get time k0 ;;
        Ok {| sevindex := AreaAboveD0 st;
              startdate := StartAt t;
              duration := dur st |}
    | [] =>
        Ok {| sevindex := fzero; startdate := NoStart; duration := dur st |}
    end
  else Ok {| sevindex := fzero; startdate := NoStart; duration := fzero |}.

(** [outlierind] is bound by one of the three [if Method == ...]
    statements, or not at all. *)
Definition severity (CDist : list fl) (CDistoutlier : fl) (Time : list Z)
  (NBR NBRDist : list fl) (NBRoutlier : fl) (Sign : list fl) (Method : Z)
  : res sevresult :=
  let notnanind := np_where (map (fun x => negb (isnan x)) CDist) in
  cosdist <- take CDist notnanind ;;
  o1 <- (if Method =? 1
         then Ok (Some (np_where (mask1 cosdist CDistoutlier)))
         else Ok None) ;;
  o2 <- (if Method =? 2
         then nbr <- take NBR notnanind ;;
              Ok (Some (np_where (mask2 cosdist CDistoutlier nbr)))
         else Ok o1) ;;
  o3 <- (if Method =? 3
         then nbrdist <- take NBRDist notnanind ;;
              sign <- take Sign notnanind ;;
              Ok (Some (np_where
                          (mask3 cosdist CDistoutlier nbrdist NBRoutlier sign)))
         else Ok o2) ;;
  time <- take Time notnanind ;;
  outlierind <- match o3 with
                | Some oi => Ok oi
                | None => Err NameError
                end ;;
  severity_scan cosdist time outlierind CDistoutlier.

(** The default of the parameter [Method]. *)
Definition severity_default_Method : Z := 3.

End Toolbox.

(* ================================================================== *)
(** * BurnCube.py: the chunking of the parallel stages *)

Module Chunking.

(** The argument list of [p.map_async] in [hdgeomedian] and [distances]:
    [chunk = n // n_procs] and
    [[(i, min(n, i + chunk)) for i in range(0, n, chunk)]]. *)
Definition chunks (n n_procs : Z) : res (list (Z * Z)) :=
  chunk <- Np.floordiv n n_procs ;;
  starts <- Np.range 0 n chunk ;;
  Ok (map (fun i => (i, Z.min n (i + chunk))) starts).

(** The worker loop [for i in range(params[0], params[1])]: the pixel
    indices one worker visits. *)
Definition visited (c : Z * Z) : list Z :=
  map (fun k => fst c + Z.of_nat k) (seq 0 (Z.to_nat (snd c - fst c))).

(** The indices visited over all workers, in chunk order. *)
Definition all_visited (cs : list (Z * Z)) : list Z := flat_map visited cs.

End Chunking.

(* ================================================================== *)
(** * BurnCube.py: the per-pixel workers *)

Module BurnCube.

Import Np.

(** An [int16] result: the value wrapped into [-2^15, 2^15). *)
Definition wrap16 (z : Z) : Z := (z + 32768) mod 65536 - 32768.

(** A float stored into an [int16] array: truncation toward zero, then
    wrap-around.  The cast of a non-finite value is platform-defined; the
    arrays stored this way hold 0 and 1 only. *)
Definition fl_to_int16 (x : fl) : Z :=
  match x with
  | Fin q => wrap16 (Z.quot (Qnum q) (Zpos (Qden q)))
  | _ => 0
  end.

(** The series of one pixel, [X[:, :, i]]: one row of [int16] values per
    band. *)
Definition pixel : Type := list (list Z).

(** [ind = np.where(X[1, :, i] > 0)[0]] *)
Definition valid_ind (Xi : pixel) : res (list nat) :=
  band1 <- get Xi 1 ;;
  Ok (np_where (map (fun v => 0 <? v) band1)).

(** [X[:, ind, i]] *)
Definition select_steps (Xi : pixel) (ind : list nat) : res pixel :=
  mapM (fun row => take row ind) Xi.

(** [gmed[:, i] = v]: the column keeps its length; a vector of length one is
    broadcast. *)
Definition assign_column (old v : list fl) : res (list fl) :=
  if Nat.eqb (length v) (length old) then Ok v
  else if Nat.eqb (length v) 1 then Ok (repeat (hd NaN v) (length old))
  else Err ValueError.

(** The body of the loop of [dist_geomedian] for one pixel.  [gmed_i] is the
    column [gmed[:, i]] before the call ([hdgeomedian] fills it with NaN);
    [geometric_median] is the estimator the module was loaded with, already
    applied to [params[3]] and [params[4]]. *)
Definition dist_geomedian (geometric_median : pixel -> res (list fl))
  (Xi : pixel) (gmed_i : list fl) : res (list fl) :=
  ind <- valid_ind Xi ;;
  if (0 <? length ind)%nat then
    sub <- select_steps Xi ind ;;
    g <- geometric_median sub ;;
    assign_column gmed_i g
  else Ok gmed_i.

(** [gmed.fill(np.nan)] for [p] bands. *)
Definition gmed_fill (p : nat) : list fl := repeat NaN p.

(** The three output columns of one pixel in [dist_distance]. *)
Record distances_i : Type := {
  cos_dist : list fl;
  nbr_dist : list fl;
  direction : list Z
}.

(** [cos_dist.fill(np.nan)], [nbr_dist.fill(np.nan)], [direction.fill(0)]
    for [T] time steps. *)
Definition distances_fill (T : nat) : distances_i :=
  {| cos_dist := repeat NaN T; nbr_dist := repeat NaN T;
     direction := repeat 0 T |}.

(** [(X[3, :, i] - X[5, :, i]) / (X[3, :, i] + X[5, :, i])]: sum and
    difference in [int16], the quotient in floating point. *)
Definition nbr_int16 (nir swir2 : Z) : fl :=
  fdiv (of_Z (wrap16 (nir - swir2))) (of_Z (wrap16 (nir + swir2))).

(** The body of the loop of [dist_distance] for one pixel.  [cos_distance]
    and [nbr_eucdistance] are the functions the module imports from
    [stats]. *)
Definition dist_distance
  (cos_distance : list fl -> pixel -> res (list fl))
  (nbr_eucdistance : fl -> list fl -> res (list fl * list fl))
  (Xi : pixel) (gmed_i : list fl) (out : distances_i) : res distances_i :=
  ind <- valid_ind Xi ;;
  if (0 <? length ind)%nat then
    sub <- select_steps Xi ind ;;
    cd <- cos_distance gmed_i sub ;;
    cos' <- scatter (cos_dist out) ind cd ;;
    g3 <- get gmed_i 3 ;;
    g5 <- get gmed_i 5 ;;
    let nbrmed := fdiv (fsub g3 g5) (fadd g3 g5) in
    x3 <- get Xi 3 ;;
    x5 <- get Xi 5 ;;
    let nbr := map2 nbr_int16 x3 x5 in
    nbrsel <- take nbr ind ;;
    r <- nbr_eucdistance nbrmed nbrsel ;;
    nbr' <- scatter (nbr_dist out) ind (fst r) ;;
    dir' <- scatter (direction out) ind (map fl_to_int16 (snd r)) ;;
    Ok {| cos_dist := cos'; nbr_dist := nbr'; direction := dir' |}
  else Ok out.

(** [distances], the array [nbr] stored as [dists.NBR]:
    [nir[nir <= 0] = np.nan; swir2[swir2 <= 0] = np.nan;
     nbr = (nir - swir2) / (nir + swir2)].  The two bands are cast to
    [float32] first, which holds every [int16] value exactly; the rounding
    of the quotient is not modelled, only its sign and where it is NaN are
    stated. *)
Definition nan_if_nonpos (v : Z) : fl := if v <=? 0 then NaN else of_Z v.

Definition stored_nbr (nir swir2 : Z) : fl :=
  let n := nan_if_nonpos nir in
  let s := nan_if_nonpos swir2 in
  fdiv (fsub n s) (fadd n s).

(* ------------------------------------------------------------------ *)
(** ** outliers *)

(** The samples of a [time, pixel] array are all NaN or equal to [c]. *)
Definition samples_all (data : list (list fl)) (c : Q) : Prop :=
  forall row x, In row data -> In x row -> isnan x = false -> feq x (Fin c).

(** Pixel [i] has a sample that is not NaN. *)
Definition has_sample (data : list (list fl)) (i : nat) : Prop :=
  exists row x, In row data /\ nth_error row i = Some x /\ isnan x = false.

(** Modelled from the spec: [nanpercentile] is imported from the module
    [stats], which is not among the sources.  The specification gives it as
    "the 25th/75th percentiles of the ... distance distributions across all
    valid ... samples ..., ignoring invalid entries", the result being one
    grid per requested percentile.  The one fact taken from that description
    is that a percentile of samples that are all equal to [c] is [c]. *)
Class Percentile : Type := {
  nanpercentile : list (list fl) -> list Z -> list (list fl);
  nanpercentile_shape :
    forall data qs, length (nanpercentile data qs) = length qs;
  nanpercentile_const :
    forall data qs c k g i x,
      samples_all data c -> has_sample data i ->
      nth_error (nanpercentile data qs) k = Some g ->
      nth_error g i = Some x ->
      feq x (Fin c)
}.

Record outlrs_ds : Type := {
  CDistoutlier : list fl;
  NBRoutlier : list fl
}.

(** [ps[1] + 1.5 * (ps[1] - ps[0])], entry by entry. *)
Definition fence (q1 q3 : fl) : fl :=
  fadd q3 (fmul (Fin (3 # 2)) (fsub q3 q1)).

Definition tukey (ps : list (list fl)) : res (list fl) :=
  p1 <- get ps 1 ;;
  p0 <- get ps 0 ;;
  Ok (map2 fence p0 p1).

Definition outliers `{Percentile} (NBRDist cosdist : list (list fl))
  : res outlrs_ds :=
  let NBRps := nanpercentile NBRDist [25; 75] in
  NBRout <- tukey NBRps ;;
  let CDistps := nanpercentile cosdist [25; 75] in
  CDistout <- tukey CDistps ;;
  Ok {| CDistoutlier := CDistout; NBRoutlier := NBRout |}.

(* ------------------------------------------------------------------ *)
(** ** severitymapping *)

(** The default of the parameter [method]. *)
Definition severitymapping_default_method : String.string := "NBR"%string.

(** The per-time-step condition inside [cosdist.where(...)] of the
    pre-filter, for one time step of one pixel; [method] is [None] when the
    caller does not pass it. *)
Definition change_flag (method : option String.string)
  (cos cthr nbr nbrdist nthr dir : fl) : res bool :=
  let method := match method with
                | Some m => m
                | None => severitymapping_default_method
                end in
  if String.eqb method "NBR" then
    Ok (fgt cos cthr && flt nbr fzero)
  else if String.eqb method "NBRdist" then
    Ok (fgt cos cthr && fgt nbrdist nthr && feqb dir fone)
  else Err ValueError.

(** The value a start date has in the [float64] array [dates]. *)
Definition startdate_float (s : Toolbox.startval) : fl :=
  match s with
  | Toolbox.NoStart => fzero
  | Toolbox.StartAt t => of_Z t
  end.

(** [a[a == 0] = np.nan] for one entry. *)
Definition nan_if_zero (x : fl) : fl := if feqb x fzero then NaN else x.

(* ------------------------------------------------------------------ *)
(** ** region_growing *)

Record severity_ds : Type := {
  StartDate : list fl;
  Severe : list Z
}.

Record dists_ds : Type := {
  ny : nat;
  nx : nat;
  time : list Z;
  ChangeDir : list (list fl);
  NBRDist : list (list fl);
  cosdist : list (list fl)
}.

Definition NaT : Z := - 2 ^ 63.

(** [.astype('datetime64[ns]')] of one [float64]: the value is truncated
    toward zero; NaN, an infinity and a value outside the range of [int64]
    give NaT. *)
Definition astype_datetime64 (x : fl) : Z :=
  match x with
  | Fin q =>
      let z := Z.quot (Qnum q) (Zpos (Qden q)) in
      if (- 2 ^ 63 <=? z) && (z <? 2 ^ 63) then z else NaT
  | _ => NaT
  end.

Fixpoint insert_unique (x : Z) (l : list Z) : list Z :=
  match l with
  | [] => [x]
  | y :: l' =>
      if x <? y then x :: l
      else if x =? y then l
      else y :: insert_unique x l'
  end.

(** [np.unique]: the distinct values, ascending. *)
Definition np_unique (l : list Z) : list Z := fold_right insert_unique [] l.

(** [np.max] of a 1-D array of integers. *)
Definition np_max (l : list Z) : res Z :=
  match l with
  | [] => Err ValueError
  | x :: l' => Ok (fold_left Z.max l' x)
  end.

Definition ns_per_day : Z := 86400 * 1000000000.

(** [np.datetime64(str(d)[:10])]: the start of the calendar day of [d]. *)
Definition day_start (d : Z) : Z := d / ns_per_day * ns_per_day.

(** [t > np.datetime64(str(d)[:10])]; every comparison with NaT is false. *)
Definition after_day (d t : Z) : bool :=
  negb (d =? NaT) && (day_start d <? t).

(** [np.where(self.dists.time > np.datetime64(str(d)[:10]))[0][0]] *)
Definition next_obs (time : list Z) (d : Z) : res nat :=
  get (np_where (map (after_day d) time)) 0.

Definition z_distance : fl := fdiv (of_Z 2) (of_Z 3).
Definition fraction_seedmap : fl := Fin (25 # 100).

Definition bool_int (b : bool) : Z := if b then 1 else 0.

(** [Potential] at time index [ti]. *)
Definition potential (dists : dists_ds) (outlrs : outlrs_ds) (ti : nat)
  : res (list Z) :=
  cd <- get (ChangeDir dists) ti ;;
  nd <- get (NBRDist dists) ti ;;
  let NBR_score := map2 fdiv (map2 fmul cd nd) (NBRoutlier outlrs) in
  cd' <- get (ChangeDir dists) ti ;;
  co <- get (cosdist dists) ti ;;
  let cos_score := map2 fdiv (map2 fmul cd' co) (CDistoutlier outlrs) in
  Ok (map2 (fun a b => bool_int (fgt a z_distance && fgt b z_distance))
           NBR_score cos_score).

(** [np.mean(np.extract(all_labels == ri, SeedMap))] *)
Definition region_mean (all_labels SeedMap : list Z) (ri : Z) : fl :=
  let inside := Toolbox.bool_select SeedMap (map (Z.eqb ri) all_labels) in
  fdiv (fsum (map of_Z inside)) (of_Z (Z.of_nat (length inside))).

(** The loop [for ri in range(1, np.max(np.unique(all_labels)))]. *)
Definition new_potential (all_labels SeedMap : list Z) (init : list fl)
  : res (list fl) :=
  top <- np_max (np_unique all_labels) ;;
  ris <- range 1 top 1 ;;
  Ok (fold_left
        (fun NewPotential ri =>
           let m := region_mean all_labels SeedMap ri in
           map2 (fun (l : Z) v => if l =? ri then m else v)
                all_labels NewPotential)
        ris init).

(** The state carried through the loop over [ChangeDates]. *)
Record growth : Type := {
  AnnualMap : list fl;
  Startdates : list fl;
  tmpMap : list Z
}.

(** [Start_Date]: the defined entries of [severity.StartDate] as dates. *)
Definition start_dates (severity : severity_ds) : list Z :=
  map astype_datetime64
      (filter (fun x => negb (isnan x)) (StartDate severity)).

Section Growing.

(** [skimage.measure.label(., background=0)] on the flattened grid. *)
Variable label : list Z -> list Z.

Definition grow_step (dists : dists_ds) (outlrs : outlrs_ds)
  (SeedMap : list Z) (ref_date : Z) (st : growth) (d : Z) : res growth :=
  ti <- next_obs (time dists) d ;;
  Potential <- potential dists outlrs ti ;;
  let all_labels := label Potential in
  NewPotential <- new_potential all_labels SeedMap
                    (map (fun _ => fzero) SeedMap) ;;
  let Annual := map2 fadd (AnnualMap st)
                  (map (fun v => of_Z (bool_int (fgt v fraction_seedmap)))
                       NewPotential) in
  let tmp := map (fun v => bool_int (fgt v fzero)) Annual in
  let changed :=
    if d <? ref_date
    then map2 (fun a b => a - b <? 0) tmp (tmpMap st)
    else map2 (fun a b => 0 <? a - b) tmp (tmpMap st) in
  Ok {| AnnualMap := Annual;
        Startdates := map2 (fun (c : bool) old => if c then of_Z d else old)
                           changed (Startdates st);
        tmpMap := tmp |}.

Definition region_growing (dists : dists_ds) (outlrs : outlrs_ds)
  (severity : severity_ds) : res (list Z * list fl) :=
  let Start_Date := start_dates severity in
  let ChangeDates := np_unique Start_Date in
  let sumpix :=
    map (fun d => Z.of_nat (count_occ Z.eq_dec Start_Date d)) ChangeDates in
  top <- np_max sumpix ;;
  ii <- get (np_where (map (Z.eqb top) sumpix)) 0 ;;
  ref_date <- get ChangeDates ii ;;
  ti <- next_obs (time dists) ref_date ;;
  Potential <- potential dists outlrs ti ;;
  let SeedMap := map (fun s => bool_int (0 <? s)) (Severe severity) in
  let all_labels := label Potential in
  NewPotential <- new_potential all_labels SeedMap
                    (map (fun _ => fzero) all_labels) ;;
  let AnnualMap0 := map (fun _ => fzero) all_labels in
  let Startdates0 :=
    map2 (fun (v : fl) (z : fl) => if fgt v fzero then of_Z ref_date else z)
         NewPotential (repeat fzero (ny dists * nx dists)) in
  let tmpMap0 := map (fun v => bool_int (fgt v fzero)) NewPotential in
  st <- foldM (grow_step dists outlrs SeedMap ref_date) ChangeDates
          {| AnnualMap := AnnualMap0; Startdates := Startdates0;
             tmpMap := tmpMap0 |} ;;
  Ok (map (fun v => bool_int (fgt v fzero)) (AnnualMap st), Startdates st).

End Growing.

End BurnCube.

(* ================================================================== *)
(** * The severity scorer in the words of the specification *)

Module SeveritySpec.

Import Toolbox.

(** A valid observation of a pixel: its time, its cosine distance and
    whether the chosen policy flags it as an outlier. *)
Record obs : Type := {
  o_time : Z;
  o_cos : fl;
  o_out : bool
}.

(** The three outlier policies. *)
Definition policy (Method : Z) (cos cthr nbr nbrdist nthr sign : fl) : bool :=
  if Method =? 1 then fgt cos cthr
  else if Method =? 2 then fgt cos cthr && flt nbr fzero
  else fgt cos cthr && fgt nbrdist nthr && feqb sign fone.

Definition obs_at (CDist : list fl) (cthr : fl) (Time : list Z)
  (NBR NBRDist : list fl) (nthr : fl) (Sign : list fl) (Method : Z)
  (i : nat) : obs :=
  {| o_time := nth i Time 0;
     o_cos := nth i CDist NaN;
     o_out := policy Method (nth i CDist NaN) cthr (nth i NBR NaN)
                (nth i NBRDist NaN) nthr (nth i Sign NaN) |}.

(** The observations of a pixel in chronological order: the time steps whose
    cosine distance is defined. *)
Definition observations (CDist : list fl) (cthr : fl) (Time : list Z)
  (NBR NBRDist : list fl) (nthr : fl) (Sign : list fl) (Method : Z)
  : list obs :=
  map (obs_at CDist cthr Time NBR NBRDist nthr Sign Method)
      (Np.np_where (map (fun x => negb (isnan x)) CDist)).

(** The linked consecutive outlier pairs: an outlier whose next observation
    is an outlier too. *)
Fixpoint linked_pairs (l : list obs) : list (obs * obs) :=
  match l with
  | a :: (b :: _) as tl =>
      if o_out a && o_out b then (a, b) :: linked_pairs tl
      else linked_pairs tl
  | _ => []
  end.

(** The days elapsed between the two observations of a pair: the difference
    of the two times, in nanoseconds, brought to seconds and then to days. *)
Definition pair_days (p : obs * obs) : fl :=
  Fin (inject_Z (o_time (snd p) - o_time (fst p))
       / inject_Z 1000000000 / inject_Z 86400).

(** The area a pair (t0, t1) adds:
    [0.5 * ((cos t1 + cos t0) - 2 * threshold) * days]. *)
Definition pair_area (cthr : fl) (p : obs * obs) : fl :=
  fmul (fmul (Fin (1 # 2))
          (fsub (fadd (o_cos (snd p)) (o_cos (fst p))) (fmul (Fin 2) cthr)))
       (pair_days p).

(** The result for a list of linked pairs: every pair adds its area to the
    severity index and its days to the duration; the start date is the time
    of the first pair. *)
Definition score (cthr : fl) (ps : list (obs * obs)) : sevresult :=
  {| sevindex := fold_left (fun a p => fadd a (pair_area cthr p)) ps fzero;
     startdate := match ps with
                  | [] => NoStart
                  | p :: _ => StartAt (o_time (fst p))
                  end;
     duration := fold_left (fun a p => fadd a (pair_days p)) ps fzero |}.

(** Position-wise reading of the same: observation [k] is linked with its
    successor. *)
Definition no_obs : obs := {| o_time := 0; o_cos := NaN; o_out := false |}.

Definition linkedb (l : list obs) (k : nat) : bool :=
  (k + 1 <? length l)%nat && o_out (nth (k + 1) l no_obs).

Definition pair_at (l : list obs) (k : nat) : obs * obs :=
  (nth k l no_obs, nth (k + 1) l no_obs).

(** The five arrays of a pixel have one entry per time step. *)
Definition well_shaped (CDist : list fl) (Time : list Z)
  (NBR NBRDist Sign : list fl) : Prop :=
  length Time = length CDist /\ length NBR = length CDist /\
  length NBRDist = length CDist /\ length Sign = length CDist.

(** The time axis is sorted ascending, without repetition. *)
Definition ascending (Time : list Z) : Prop := StronglySorted Z.lt Time.

End SeveritySpec.

(* ================================================================== *)
(** * Predicates of the statements *)

Module Shapes.

Import Toolbox BurnCube.

(** A vector of [n] finite values. *)
Definition vec (n : nat) (v : list fl) : Prop :=
  length v = n /\ forallb isfinite v = true.

(** A finite, non-negative value. *)
Definition nonneg (x : fl) : Prop := exists s, x = Fin s /\ (0 <= s)%Q.

Definition is_zero (x : fl) : bool :=
  match x with Fin q => Qeq_bool q 0 | _ => false end.

(** Every band of the pixel has [T] time steps. *)
Definition rectangular (T : nat) (Xi : pixel) : Prop :=
  Forall (fun row => length row = T) Xi.

(** Two pixels that differ at most at time steps outside [ind]: the steps
    of [ind] are the valid ones of the second pixel too, and band by band the
    two have the same values at the steps of [ind]. *)
Definition same_on (ind : list nat) (Xi Xi' : pixel) : Prop :=
  valid_ind Xi' = Ok ind /\
  Forall2 (fun row row' : list Z =>
             forall t, In t ind -> nth_error row t = nth_error row' t)
          Xi Xi'.

End Shapes.

(* ================================================================== *)
(** * Concrete instances and sample data *)

(** A rational approximation of the square root, to six decimal places. *)
Definition approx_sqrt (q : Q) : Q :=
  Z.sqrt (Qnum q * Zpos (Qden q) * 10 ^ 12) # (Qden q * 10 ^ 6).

#[export] Instance sqrt_approx : Sqrt.
Proof.
  refine {| sqrtQ := approx_sqrt |}.
  - intros q. unfold approx_sqrt, Qle. cbn [Qnum Qden].
    pose proof (Z.sqrt_nonneg (Qnum q * Zpos (Qden q) * 10 ^ 12)). lia.
  - intros q Hq. unfold approx_sqrt, Qeq in *. cbn [Qnum Qden] in *.
    assert (Qnum q = 0) as -> by lia. reflexivity.
Defined.

Import Np BurnCube.

(** A nearest-rank percentile of the non-NaN entries of each pixel's series,
    as an instance of [Percentile]. *)
Fixpoint insert_fl (x : fl) (l : list fl) : list fl :=
  match l with
  | [] => [x]
  | y :: l' => if flt x y then x :: l else y :: insert_fl x l'
  end.

Definition sort_fl (l : list fl) : list fl := fold_right insert_fl [] l.

Definition rank_percentile (s : list fl) (q : Z) : fl :=
  let v := sort_fl (filter (fun x => negb (isnan x)) s) in
  nth (Nat.min (length v - 1)
               (Z.to_nat (q * Z.of_nat (length v - 1) / 100))) v NaN.

Definition pixel_series (data : list (list fl)) (i : nat) : list fl :=
  map (fun row => nth i row NaN) data.

Definition percentile_grids (data : list (list fl)) (qs : list Z)
  : list (list fl) :=
  map (fun q => map (fun i => rank_percentile (pixel_series data i) q)
                    (seq 0 (length (hd [] data)))) qs.

Lemma insert_fl_In (x y : fl) (l : list fl) :
  In y (insert_fl x l) <-> y = x \/ In y l.
Proof.
  induction l as [|a l IH]; cbn [insert_fl In]; [intuition|].
  destruct (flt x a); cbn [In]; [intuition|]. rewrite IH. intuition.
Qed.

Lemma sort_fl_In (y : fl) (l : list fl) : In y (sort_fl l) <-> In y l.
Proof.
  unfold sort_fl. induction l as [|a l IH]; [reflexivity|].
  cbn [fold_right In]. rewrite insert_fl_In, IH. intuition.
Qed.

Lemma rank_percentile_const (s : list fl) (q : Z) (c : Q) :
  (forall x, In x s -> isnan x = false -> feq x (Fin c)) ->
  (exists x, In x s /\ isnan x = false) ->
  feq (rank_percentile s q) (Fin c).
Proof.
  intros Hall (x0 & Hx0 & Hn0). unfold rank_percentile.
  set (v := sort_fl (filter (fun x => negb (isnan x)) s)).
  assert (Hv : forall x, In x v <-> In x s /\ isnan x = false).
  { intros x. unfold v. rewrite sort_fl_In, filter_In, negb_true_iff.
    reflexivity. }
  assert (Hne : (0 < length v)%nat).
  { destruct v as [|a v']; [|cbn; lia].
    exfalso. apply (proj2 (Hv x0)). now split. }
  set (k := Nat.min _ _).
  assert (Hk : In (nth k v NaN) v) by (apply nth_In; unfold k; lia).
  apply Hv in Hk. destruct Hk as [Hin Hn]. now apply Hall.
Qed.

#[export] Instance nearest_rank : Percentile.
Proof.
  refine {| nanpercentile := percentile_grids |}.
  - intros data qs. unfold percentile_grids. apply length_map.
  - intros data qs c k g i x Hall (row & x0 & Hrow & Hx0 & Hn0) Hg Hx.
    unfold percentile_grids in Hg.
    rewrite nth_error_map in Hg.
    destruct (nth_error qs k) as [q|]; [|discriminate].
    injection Hg as <-.
    rewrite nth_error_map in Hx.
    destruct (nth_error (seq 0 (length (hd [] data))) i) as [j|] eqn:Ej;
      [|discriminate].
    injection Hx as <-.
    assert (j = i) as ->.
    { assert (Hlt : (i < length (seq 0 (length (hd [] data))))%nat)
        by (apply nth_error_Some; congruence).
      rewrite length_seq in Hlt.
      rewrite nth_error_nth' with (d := 0%nat) in Ej
        by now rewrite length_seq.
      rewrite seq_nth in Ej by exact Hlt. now injection Ej. }
    apply rank_percentile_const.
    + intros y Hy Hny. unfold pixel_series in Hy. apply in_map_iff in Hy.
      destruct Hy as (r & <- & Hr).
      apply (Hall r); trivial.
      destruct (nth_in_or_default i r NaN) as [Hin | Hd]; [exact Hin|].
      rewrite Hd in Hny. discriminate Hny.
    + exists x0. split; [|exact Hn0]. unfold pixel_series.
      apply in_map_iff. exists row. split; [|exact Hrow].
      now apply nth_error_nth.
Defined.

Module Examples.

(** A pixel with five time steps, sixteen days apart; the fourth has no
    observation. *)
Definition day : Z := 86400 * 1000000000.
Definition ex_Time : list Z := [0; 16 * day; 32 * day; 48 * day; 64 * day].
Definition ex_CDist : list fl :=
  [Fin (1 # 10); Fin (9 # 10); Fin (8 # 10); NaN; Fin (1 # 10)].
Definition ex_NBR : list fl :=
  [Fin (3 # 10); Fin (- 2 # 10); Fin (- 1 # 10); NaN; Fin (3 # 10)].
Definition ex_NBRDist : list fl :=
  [Fin 0; Fin (5 # 10); Fin (4 # 10); NaN; Fin 0].
Definition ex_Sign : list fl := [Fin 0; Fin 1; Fin 1; Fin 0; Fin 0].

(** Distances that are the same at every valid sample. *)
Definition const_dist : list (list fl) :=
  [[Fin (3 # 10); NaN]; [Fin (3 # 10); Fin (3 # 10)]; [NaN; Fin (3 # 10)]].

(** Distances of two pixels over five time steps that differ from one time
    step to the next. *)
Definition spread_dist : list (list fl) :=
  [[Fin (3 # 10); NaN]; [Fin (1 # 10); Fin (2 # 10)];
   [Fin (5 # 10); Fin (2 # 10)]; [Fin (2 # 10); NaN];
   [Fin (4 # 10); Fin (6 # 10)]].

(** A grid of one pixel with two observations. *)
Definition rg_last : Z := 17 * day + 7200 * 1000000000.
Definition rg_time : list Z := [day + 3600 * 1000000000; rg_last].
Definition rg_dists : dists_ds :=
  {| ny := 1; nx := 1; time := rg_time;
     ChangeDir := [[Fin 0]; [Fin 1]];
     NBRDist := [[Fin (1 # 10)]; [Fin (9 # 10)]];
     cosdist := [[Fin (1 # 10)]; [Fin (8 # 10)]] |}.
Definition rg_outlrs : outlrs_ds :=
  {| CDistoutlier := [Fin (1 # 2)]; NBRoutlier := [Fin (1 # 2)] |}.
Definition rg_severity (start : fl) : severity_ds :=
  {| StartDate := [start]; Severe := [1] |}.
(** The labelling of a grid of one pixel. *)
Definition label_1x1 (g : list Z) : list Z := g.

(** A pixel with a cloud-masked middle step. *)
Definition gm_pixel : pixel :=
  [[300; 0; 280]; [400; 0; 390]; [200; 0; 190];
   [3000; 0; 2900]; [500; 0; 480]; [1000; 0; 900]].

(** A pixel whose first step has a negative near-infrared value. *)
Definition cx_pixel : pixel :=
  [[300; 280]; [400; 390]; [200; 190]; [-20; 3000]; [500; 480]; [10; 1000]].
Definition cx_gmed : list fl :=
  [Fin 290; Fin 395; Fin 195; Fin 1490; Fin 490; Fin 505].

(** A pixel whose first step has no valid green value although its NBR,
    (100 - 300) / (100 + 300), is defined, with a geometric median of NBR
    0.5. *)
Definition dir_pixel : pixel :=
  [[30; 28]; [0; 39]; [20; 19]; [100; 150]; [50; 48]; [300; 50]].
Definition dir_gmed : list fl :=
  [Fin 28; Fin 39; Fin 19; Fin 150; Fin 48; Fin 50].

End Examples.

(* ================================================================== *)
(** * burnmappingtoolbox.py: the spectral angle and the medoid *)

Module Toolbox2.

Import Np Toolbox.

(** [np.arccos] and [math.pi] are parameters. *)
Class Trig : Type := {
  arccos : fl -> fl;
  pi : fl
}.

(** [np.nansum] of a 1-D array. *)
Definition nansum (l : list fl) : fl :=
  fsum (filter (fun x => negb (isnan x)) l).

(** The smaller of two values that are not NaN. *)
Definition fmin (m y : fl) : fl := if flt y m then y else m.

(** [np.nanmin] of a 1-D array: NaN when every entry is NaN. *)
Definition nanmin (l : list fl) : fl :=
  match filter (fun x => negb (isnan x)) l with
  | [] => NaN
  | x :: r => fold_left fmin r x
  end.

Section Numeric2.
Context `{Sqrt}.

(** ** spectral_angle *)

Definition spectral_angle `{Trig} (ref obs : list fl) : res fl :=
  numer <- dot ref obs ;;
  let denom :=
    fsqrt (fmul (fsum (map square ref)) (fsum (map square obs))) in
  if negb (isnan numer) && negb (isnan denom)
  then Ok (fdiv (fmul (arccos (fdiv numer denom)) (Fin 180)) pi)
  else Ok NaN.

(** ** medoid *)

(** The body of [for counter, ll in enumerate(NotNaN)]. *)
Definition medoid_step (NDATES : nat) (X : matrix) (TrackSum : list fl)
  (ll : nat) : res (list fl) :=
  y0 <- column X ll ;;
  let EucNorm := euc_norm NDATES X y0 in
  set_nth TrackSum ll (nansum EucNorm).

Definition medoid (X : matrix) : res (list fl) :=
  row0 <- get X 0 ;;
  let NDATES := length row0 in
  let TrackSum := repeat NaN NDATES in
  let y0 := map nanmean X in
  let EucNorm := euc_norm NDATES X y0 in
  let NotNaN := np_where (map (fun x => negb (isnan x)) EucNorm) in
  if (0 <? length NotNaN)%nat then
    TrackSum' <- foldM (medoid_step NDATES X) NotNaN TrackSum ;;
    let indmin :=
      np_where (map (fun x => feqb x (nanmin TrackSum')) TrackSum') in
    i0 <- get indmin 0 ;;
    column X i0
  else Ok y0.

End Numeric2.

End Toolbox2.

(* ================================================================== *)
(** * BurnCube.py: the parallel stages *)

Module Stages.

Import Np Chunking BurnCube.

(** One task of [p.map_async]: the worker's loop
    [for i in range(params[0], params[1])] on the shared output array, of
    which [out] holds one entry per pixel; [step i] is the body of the loop
    for pixel [i].  The result of [map_async] is never asked for: an
    exception ends the task without reaching the caller, and the array keeps
    what the task wrote before. *)
Fixpoint run_pixels {O : Type} (step : nat -> O -> res O) (js : list Z)
  (out : list O) : list O :=
  match js with
  | [] => out
  | i :: js' =>
      match (o <- get out (Z.to_nat i) ;;
             o' <- step (Z.to_nat i) o ;;
             set_nth out (Z.to_nat i) o') with
      | Ok out' => run_pixels step js' out'
      | Err _ => out
      end
  end.

(** All tasks; they write to different entries of the array. *)
Definition run_chunks {O : Type} (step : nat -> O -> res O)
  (cs : list (Z * Z)) (out : list O) : list O :=
  fold_left (fun o c => run_pixels step (visited c) o) cs out.

(** [hdgeomedian]: the array [gmed] after [p.join()], one column per pixel,
    for the pixels [X] with [p] bands. *)
Definition hdgeomedian (geometric_median : pixel -> res (list fl))
  (X : list pixel) (p : nat) (n_procs : Z) : res (list (list fl)) :=
  let n := Z.of_nat (length X) in
  cs <- chunks n n_procs ;;
  Ok (run_chunks
        (fun i gmed_i => Xi <- get X i ;;
                         dist_geomedian geometric_median Xi gmed_i)
        cs (repeat (gmed_fill p) (length X))).

(** [distances]: the arrays [cos_dist], [nbr_dist] and [direction] after
    [p.join()], for [T] time steps. *)
Definition distances
  (cos_distance : list fl -> pixel -> res (list fl))
  (nbr_eucdistance : fl -> list fl -> res (list fl * list fl))
  (X : list pixel) (gmed : list (list fl)) (T : nat) (n_procs : Z)
  : res (list distances_i) :=
  let n := Z.of_nat (length X) in
  cs <- chunks n n_procs ;;
  Ok (run_chunks
        (fun i out_i => Xi <- get X i ;;
                        gmed_i <- get gmed i ;;
                        dist_distance cos_distance nbr_eucdistance Xi gmed_i
                          out_i)
        cs (repeat (distances_fill T) (length X))).

End Stages.

(* ================================================================== *)
(** * BurnCube.py: the masking of the loaded cube *)

Module Loading.

Import Np BurnCube.

(** One grid cell of one time step after [xr.align]: the two flags of the
    pixel-quality stack and the six bands of the reflectance stack, red
    first, green second. *)
Record raw_obs : Type := {
  no_cloud : bool;
  pixelquality : Z;
  nbart : list Z
}.

Definition no_data : raw_obs :=
  {| no_cloud := false; pixelquality := 0; nbart := [] |}.

(** [pq_stack.no_cloud.where(nbart_stack.red > 0, False, drop=False)] *)
Definition good_pixel (o : raw_obs) : bool :=
  if 0 <? nth 0 (nbart o) 0 then no_cloud o else false.

(** [pq_stack.no_cloud * (pq_stack.pixelquality > 0) * pq_stack.good_pixel] *)
Definition goodpix (o : raw_obs) : bool :=
  no_cloud o && (0 <? pixelquality o) && good_pixel o.

(** One entry of [mask]: the mean of [goodpix] over the grid of a time step
    is above 0.2. *)
Definition time_mask (row : list raw_obs) : bool :=
  fgt (fdiv (of_Z (Z.of_nat (length (filter goodpix row))))
            (of_Z (Z.of_nat (length row))))
      (Fin (2 # 10)).

(** [nbart_stack[band][mask, :, :] * goodpix[mask, :, :]] for one cell. *)
Definition masked (o : raw_obs) : list Z :=
  map (fun v => v * bool_int (goodpix o)) (nbart o).

(** The time steps that are kept, and the cube built from them, indexed by
    time step, grid cell and band. *)
Definition kept (stack : list (list raw_obs)) : list (list raw_obs) :=
  filter time_mask stack.

Definition load_cube (stack : list (list raw_obs)) : list (list (list Z)) :=
  map (map masked) (kept stack).

(** [X[:, :, i]]: the series of grid cell [i], one row per band. *)
Definition cube_pixel (cube : list (list (list Z))) (i : nat) : pixel :=
  map (fun b => map (fun row => nth b (nth i row []) 0) cube) (seq 0 6).

End Loading.

(* ================================================================== *)
(** * validationtoolbox.py: the burn mask of the NBR differences *)

Module Validation.

Import Np.

(** [a.shift(time=1)] on the series of one pixel: every value moves one step
    later, the first step becomes NaN. *)
Definition shift_fwd (a : list fl) : list fl := firstn (length a) (NaN :: a).

(** [a.shift(time=-1)]: every value moves one step earlier, the last step
    becomes NaN. *)
Definition shift_back (a : list fl) : list fl :=
  match a with
  | [] => []
  | _ :: tl => tl ++ [NaN]
  end.

(** [a.fillna(other)] *)
Definition fillna (a other : list fl) : list fl :=
  map2 (fun x o => if isnan x then o else x) a other.

(** The loop [for i in np.arange(0, len(temp_array.time))]. *)
Definition _forward_fill (Input_DataArray : list fl) : list fl :=
  Nat.iter (length Input_DataArray)
           (fun temp_array => fillna temp_array (shift_fwd temp_array))
           Input_DataArray.

(** The defaults of [lag0_threshold] and [lag1_threshold]. *)
Definition lag0_default : fl := Fin (- 50 # 100).
Definition lag1_default : fl := Fin (- 3 # 10).

Definition _identify_burned_area (Input_DataArray : list fl)
  (lag0_threshold lag1_threshold : fl) : list bool :=
  let A := _forward_fill Input_DataArray in
  let B1 := map2 fsub A (shift_fwd A) in
  let B2 := map2 fsub (shift_back A) (shift_fwd A) in
  map2 andb (map (fun b => flt b lag0_threshold) B1)
            (map (fun b => flt b lag1_threshold) B2).

(** The docstring of [_forward_fill]: every NaN is replaced with the last
    value before it that is not NaN; [prev] is that value at the start. *)
Fixpoint carry_forward (prev : fl) (a : list fl) : list fl :=
  match a with
  | [] => []
  | x :: r =>
      let v := if isnan x then prev else x in
      v :: carry_forward v r
  end.

(** ** validate *)

(** [a.where(cond)] and [a.fillna(0)] for one entry. *)
Definition xr_where (x : fl) (cond : bool) : fl := if cond then x else NaN.

Definition fillna0 (x : fl) : fl := if isnan x then fzero else x.

(** The list [[FPR, TPR]] that [validate] returns; the array [Combined] it
    returns besides is only plotted. *)
Record rates : Type := {
  FPR : fl;
  TPR : fl
}.

(** The three classes of a pixel, as [validate] builds them from its value
    [v] in the validated array and its value [t] in the tested array. *)
Definition correct (v t : fl) : fl :=
  fillna0 (xr_where (xr_where v (feqb v fone)) (feqb t fone)).

Definition omission (v t : fl) : fl :=
  fillna0 (xr_where (xr_where v (feqb v fone)) (feqb t fzero)).

Definition commission (v t : fl) : fl :=
  fillna0 (fadd (xr_where (xr_where v (feqb v fzero)) (feqb t fone)) fone).

(** [validate] on the flattened grids.  Its four checks
    [assert e.all() >= 0] compare a boolean with 0 and cannot fail. *)
Definition validate (Test_Array Validated_Array : list fl) : rates :=
  let Correct := map2 correct Validated_Array Test_Array in
  let Omission := map2 omission Validated_Array Test_Array in
  let Commission := map2 commission Validated_Array Test_Array in
  let e11 := fsum Correct in
  let e12 := fsum Commission in
  let e21 := fsum Omission in
  let e22 :=
    fsub (fsub (fsub (of_Z (Z.of_nat (length Validated_Array))) e11) e12)
         e21 in
  {| FPR := fdiv e12 (fadd e12 e22); TPR := fdiv e11 (fadd e11 e21) |}.

(** The number of pixels with [p v t]. *)
Definition pixels (p : fl -> fl -> bool) (Validated_Array Test_Array : list fl)
  : Z :=
  Z.of_nat (length (filter (fun vt => p (fst vt) (snd vt))
                           (combine Validated_Array Test_Array))).

End Validation.

(* ================================================================== *)
(** * BurnCube.py: the pixels severitymapping scores *)

Module Mapping.

Import Np BurnCube Toolbox2 Validation.

(** [tmp = cosdist.where(cond).sum(axis=0)] for one pixel: the sum, over the
    time steps the chosen method flags, of the cosine distances; [ValueError]
    for a method that is neither ['NBR'] nor ['NBRdist']. *)
Definition prefilter_sum (method : option String.string)
  (cos nbr nbrdist dir : list fl) (cthr nthr : fl) : res fl :=
  let method := match method with
                | Some m => m
                | None => severitymapping_default_method
                end in
  let steps := seq 0 (length cos) in
  if String.eqb method "NBR" then
    Ok (nansum
          (map (fun t =>
                  xr_where (nth t cos NaN)
                    (fgt (nth t cos NaN) cthr && flt (nth t nbr NaN) fzero))
               steps))
  else if String.eqb method "NBRdist" then
    Ok (nansum
          (map (fun t =>
                  xr_where (nth t cos NaN)
                    (fgt (nth t cos NaN) cthr
                     && fgt (nth t nbrdist NaN) nthr
                     && feqb (nth t dir NaN) fone))
               steps))
  else Err ValueError.

(** [outlierind = np.where(tmp > 0)[0]]: whether the pixel is scored. *)
Definition in_outlierind (method : option String.string)
  (cos nbr nbrdist dir : list fl) (cthr nthr : fl) : res bool :=
  tmp <- prefilter_sum method cos nbr nbrdist dir cthr nthr ;;
  Ok (fgt tmp fzero).

End Mapping.

(* ================================================================== *)
(** * Further predicates of the statements *)

Module Ranges.

(** A finite value between [lo] and [hi]. *)
Definition within (lo hi : Q) (x : fl) : Prop :=
  exists q, x = Fin q /\ (lo <= q)%Q /\ (q <= hi)%Q.

End Ranges.

(* ================================================================== *)
(** * Further sample data *)

Module Examples2.

Import BurnCube Toolbox2.

(** A labelling that puts the whole foreground into one region. *)
Definition label_one_region (g : list Z) : list Z :=
  map (fun v => bool_int (negb (v =? 0))) g.

(** A scene of three pixels with six bands and two time steps; the second
    pixel has no valid observation. *)
Definition scene : list pixel :=
  [ [[300; 280]; [400; 390]; [200; 190]; [3000; 2900]; [500; 480];
     [1000; 900]];
    [[0; 0]; [0; -5]; [0; 0]; [0; 0]; [0; 0]; [0; 0]];
    [[310; 0]; [410; 0]; [210; 0]; [2500; 0]; [510; 0]; [1500; 0]] ].

(** The labelling of a grid of one row whose foreground pixels are pairwise
    not adjacent: every foreground pixel is a region of its own, numbered
    from 1 in scan order. *)
Definition label_isolated (g : list Z) : list Z :=
  snd (fold_left
         (fun (st : Z * list Z) v =>
            if v =? 0 then (fst st, snd st ++ [0])
            else (fst st + 1, snd st ++ [fst st + 1]))
         g (0, [])).

(** A grid of one row of four pixels with two observations: the first and
    the third pixel pass both thresholds at the first observation, and the
    first pixel is a seed whose change starts at that observation. *)
Definition rg4_dists : dists_ds :=
  {| ny := 1; nx := 4; time := Examples.rg_time;
     ChangeDir := [[Fin 1; Fin 0; Fin 1; Fin 0]; [Fin 0; Fin 0; Fin 0; Fin 0]];
     NBRDist := [[Fin (9 # 10); Fin (1 # 10); Fin (9 # 10); Fin (1 # 10)];
                 [Fin (1 # 10); Fin (1 # 10); Fin (1 # 10); Fin (1 # 10)]];
     cosdist := [[Fin (8 # 10); Fin (1 # 10); Fin (8 # 10); Fin (1 # 10)];
                 [Fin (1 # 10); Fin (1 # 10); Fin (1 # 10); Fin (1 # 10)]] |}.
Definition rg4_outlrs : outlrs_ds :=
  {| CDistoutlier := repeat (Fin (1 # 2)) 4;
     NBRoutlier := repeat (Fin (1 # 2)) 4 |}.
Definition rg4_start : Z := Examples.day + 3600 * 1000000000.
Definition rg4_severity : severity_ds :=
  {| StartDate := [of_Z rg4_start; NaN; NaN; NaN]; Severe := [1; 0; 0; 0] |}.

(** A pixel with values small enough for their squares to fit [int16],
    and a geometric median for it. *)
Definition small_pixel : pixel :=
  [[30; 0; 28]; [40; 0; 39]; [20; 0; 19];
   [150; 0; 60]; [50; 0; 48]; [100; 0; 120]].
Definition small_gmed : list fl :=
  [Fin 29; Fin 39; Fin 19; Fin 105; Fin 49; Fin 110].

(** A first-order stand-in for the arc cosine, for sample evaluations. *)
#[export] Instance trig_sample : Trig :=
  {| arccos := fun x => fsub (Fin (157 # 100)) x; pi := Fin (314 # 100) |}.

End Examples2.

(* ================================================================== *)
(** * Properties *)

Unset Implicit Arguments.

Import Np Toolbox BurnCube SeveritySpec Chunking Shapes Examples.

(** ** Lists and index arrays *)

Section ListFacts.

Lemma map_seq_from {A : Type} (f : nat -> A) (n s : nat) :
  map f (seq s n) = map (fun k => f (s + k)%nat) (seq 0 n).
Proof.
  revert f s. induction n as [|n IH]; intros f s; [reflexivity|].
  cbn [seq map]. rewrite Nat.add_0_r. f_equal.
  rewrite (IH f (S s)), (IH (fun k => f (s + k)%nat) 1%nat).
  apply map_ext. intros k. f_equal. lia.
Qed.

End ListFacts.

Section IndexArrays.

Lemma filter_map_swap {A B : Type} (f : B -> bool) (g : A -> B) (l : list A) :
  filter f (map g l) = map g (filter (fun x => f (g x)) l).
Proof.
  induction l as [|a l IH]; [reflexivity|].
  cbn. destruct (f (g a)); cbn; now rewrite IH.
Qed.

Lemma np_where_cons (b : bool) (m : list bool) :
  np_where (b :: m) = (if b then [0%nat] else []) ++ map S (np_where m).
Proof.
  unfold np_where. cbn [length seq filter nth].
  rewrite <- seq_shift, filter_map_swap. cbn [nth].
  now destruct b.
Qed.

Lemma np_where_nil : np_where [] = [].
Proof. reflexivity. Qed.

Lemma np_where_In (m : list bool) (i : nat) :
  In i (np_where m) <-> (i < length m)%nat /\ nth i m false = true.
Proof.
  unfold np_where. rewrite filter_In, in_seq. intuition lia.
Qed.

Lemma np_where_map_lt {A : Type} (f : A -> bool) (l : list A) :
  Forall (fun i => (i < length l)%nat) (np_where (map f l)).
Proof.
  apply Forall_forall. intros i Hi. apply np_where_In in Hi.
  now rewrite length_map in Hi.
Qed.

Lemma get_nth {A : Type} (l : list A) (i : nat) (d : A) :
  (i < length l)%nat -> get l i = Ok (nth i l d).
Proof.
  intros Hi. unfold get.
  destruct (nth_error l i) eqn:E.
  - now rewrite (nth_error_nth _ _ d E).
  - apply nth_error_None in E. lia.
Qed.

Lemma take_nth {A : Type} (l : list A) (idx : list nat) (d : A) :
  Forall (fun i => (i < length l)%nat) idx ->
  take l idx = Ok (map (fun i => nth i l d) idx).
Proof.
  unfold take. induction 1 as [|i idx Hi _ IH]; [reflexivity|].
  cbn [mapM map]. rewrite (@get_nth _ l i d Hi). cbn [bind].
  now rewrite IH.
Qed.

Lemma map2_map {A B C D : Type} (f : B -> C -> D) (g : A -> B) (h : A -> C)
  (l : list A) :
  map2 f (map g l) (map h l) = map (fun x => f (g x) (h x)) l.
Proof.
  induction l as [|a l IH]; [reflexivity|]. cbn. now rewrite IH.
Qed.

Lemma np_where_nonempty (m : list bool) :
  (0 <? length (np_where m))%nat = existsb (fun b => b) m.
Proof.
  induction m as [|b m IH]; [reflexivity|].
  rewrite np_where_cons. destruct b; [reflexivity|].
  cbn [app existsb orb]. now rewrite length_map.
Qed.

End IndexArrays.

(** ** The chunks of the parallel stages *)

Section ChunkingProofs.
Import Chunking.

Lemma visited_split (a m b : Z) :
  a <= m <= b -> visited (a, m) ++ visited (m, b) = visited (a, b).
Proof.
  intros H. unfold visited; cbn [fst snd].
  replace (Z.to_nat (b - a)) with (Z.to_nat (m - a) + Z.to_nat (b - m))%nat
    by lia.
  rewrite seq_app, map_app, Nat.add_0_l.
  rewrite (map_seq_from _ _ (Z.to_nat (m - a))).
  apply (f_equal (app _)), map_ext. intros k. lia.
Qed.

Lemma visited_range (a b i : Z) : In i (visited (a, b)) <-> a <= i < b.
Proof.
  unfold visited; cbn [fst snd]. rewrite in_map_iff. split.
  - intros (k & <- & Hk). apply in_seq in Hk. lia.
  - intros H. exists (Z.to_nat (i - a)). split; [lia|].
    apply in_seq. lia.
Qed.

Lemma visited_NoDup (a b : Z) : NoDup (visited (a, b)).
Proof.
  unfold visited; cbn [fst snd].
  apply Injective_map_NoDup; [|apply seq_NoDup].
  intros x y. lia.
Qed.

Lemma chunks_cover (c n : Z) (len : nat) (s : Z) :
  0 < c -> s <= n ->
  (Z.of_nat len - 1) * c < n - s <= Z.of_nat len * c ->
  all_visited
    (map (fun i => (i, Z.min n (i + c)))
         (map (fun k => s + Z.of_nat k * c) (seq 0 len)))
  = visited (s, n).
Proof.
  intros Hc. revert s. induction len as [|len IH]; intros s Hs Hlen.
  - cbn. assert (n = s) as -> by lia.
    unfold visited; cbn [fst snd]. now rewrite Z.sub_diag.
  - cbn [seq map all_visited flat_map].
    rewrite (map_seq_from _ len 1).
    replace (s + Z.of_nat 0 * c) with s by lia.
    destruct (Z.le_gt_cases n (s + c)) as [Hle|Hgt].
    + assert (len = 0%nat) as -> by nia.
      cbn. rewrite app_nil_r. now rewrite Z.min_l by lia.
    + rewrite Z.min_r by lia.
      rewrite <- (visited_split s (s + c) n) by lia.
      f_equal. rewrite <- (IH (s + c)) by lia.
      unfold all_visited. do 2 f_equal.
      apply map_ext. intros k. lia.
Qed.

End ChunkingProofs.

(** Claim C9, for [1 <= n_procs <= n].  The chunks exist, each is a
    non-empty range inside [[0, n)], and the indices the workers visit, chunk
    after chunk, are 0, 1, ..., n - 1: every index once, none missing. *)
Theorem chunks_partition (n n_procs : Z) :
  1 <= n_procs <= n ->
  exists cs,
    chunks n n_procs = Ok cs /\
    all_visited cs = visited (0, n) /\
    NoDup (all_visited cs) /\
    (forall i, In i (all_visited cs) <-> 0 <= i < n) /\
    Forall (fun c => 0 <= fst c < snd c /\ snd c <= n) cs.
Proof.
  intros Hn. unfold chunks, floordiv.
  assert (Hc : 1 <= n / n_procs) by (apply Z.div_le_lower_bound; lia).
  set (c := n / n_procs) in *.
  replace (n_procs =? 0) with false by (symmetry; apply Z.eqb_neq; lia).
  cbn [bind]. unfold range.
  replace (c =? 0) with false by (symmetry; apply Z.eqb_neq; lia).
  replace (0 <? c) with true by (symmetry; apply Z.ltb_lt; lia).
  cbn [bind]. eexists. split; [reflexivity|].
  set (len := Z.to_nat ((n - 0 + c - 1) / c)).
  assert (Hlen : (Z.of_nat len - 1) * c < n - 0 <= Z.of_nat len * c).
  { unfold len. pose proof (Z.div_mod (n - 0 + c - 1) c ltac:(lia)) as Hdm.
    pose proof (Z.mod_pos_bound (n - 0 + c - 1) c ltac:(lia)) as Hmod.
    assert (0 <= (n - 0 + c - 1) / c) by (apply Z.div_pos; lia).
    rewrite Z2Nat.id by assumption. nia. }
  assert (Hcover :
    all_visited
      (map (fun i => (i, Z.min n (i + c)))
           (map (fun k => 0 + Z.of_nat k * c) (seq 0 len)))
    = visited (0, n)) by (apply chunks_cover; lia).
  split; [exact Hcover|]. rewrite Hcover.
  split; [apply visited_NoDup|].
  split; [intros i; apply visited_range|].
  apply Forall_forall. intros ch Hch.
  apply in_map_iff in Hch. destruct Hch as (i & <- & Hi).
  apply in_map_iff in Hi. destruct Hi as (k & <- & Hk).
  apply in_seq in Hk. cbn [fst snd]. nia.
Qed.

Lemma chunks_partition_witness :
  exists cs,
    chunks 10 4 = Ok cs /\
    all_visited cs = visited (0, 10) /\
    NoDup (all_visited cs) /\
    (forall i, In i (all_visited cs) <-> 0 <= i < 10) /\
    Forall (fun c => 0 <= fst c < snd c /\ snd c <= 10) cs.
Proof. apply chunks_partition. lia. Defined.

Lemma chunks_more_workers_than_pixels : chunks 3 4 = Err ValueError.
Proof. reflexivity. Qed.

Import BurnCube SeveritySpec.

(** ** The severity scan *)

Section SeverityLoop.

Variable l : list obs.
Variable cthr : fl.
Let time := map o_time l.
Let cosd := map o_cos l.
Let oi := np_where (map o_out l).
Let od := map (fun i => nth i time 0) oi.

Hypothesis Htime : NoDup time.

Lemma nth_time (k : nat) : nth k time 0 = o_time (nth k l no_obs).
Proof. unfold time. now rewrite (map_nth o_time l no_obs). Qed.

Lemma nth_cosd (k : nat) :
  (k < length l)%nat -> nth k cosd NaN = o_cos (nth k l no_obs).
Proof.
  intros Hk. unfold cosd.
  rewrite (nth_indep _ NaN (o_cos no_obs)) by now rewrite length_map.
  apply map_nth.
Qed.

Lemma oi_In (k : nat) :
  In k oi <-> (k < length l)%nat /\ o_out (nth k l no_obs) = true.
Proof.
  unfold oi. rewrite np_where_In, length_map.
  split; intros [Hk Ho]; split; trivial.
  - rewrite (nth_indep _ false (o_out no_obs)) in Ho by now rewrite length_map.
    now rewrite map_nth in Ho.
  - rewrite (nth_indep _ false (o_out no_obs)) by now rewrite length_map.
    now rewrite map_nth.
Qed.

Lemma next_is_outlier (k : nat) :
  (k + 1 < length l)%nat ->
  existsb (Z.eqb (nth (k + 1) time 0)) od = o_out (nth (k + 1) l no_obs).
Proof.
  intros Hk. apply eq_iff_eq_true.
  rewrite existsb_exists. split.
  - intros (t & Ht & He). apply Z.eqb_eq in He. subst t.
    unfold od in Ht. apply in_map_iff in Ht. destruct Ht as (j & Hj & Hin).
    pose proof (proj1 (oi_In j) Hin) as [Hjl Hjo].
    assert (j = (k + 1)%nat) as <-; [|exact Hjo].
    apply (proj1 (NoDup_nth time 0) Htime); unfold time;
      rewrite ?length_map; trivial.
  - intros Ho. exists (nth (k + 1) time 0). split; [|apply Z.eqb_refl].
    unfold od. apply in_map_iff. exists (k + 1)%nat. split; trivial.
    apply oi_In. now split.
Qed.

Definition upd (st : scan) (ii k : nat) : scan :=
  {| AreaAboveD0 := fadd (AreaAboveD0 st) (pair_area cthr (pair_at l k));
     dur := fadd (dur st) (pair_days (pair_at l k));
     tt := tt st ++ [ii] |}.

Lemma severity_step_eq (st : scan) (ii k : nat) :
  nth_error oi ii = Some k ->
  severity_step cosd time oi od cthr st ii
  = Ok (if linkedb l k then upd st ii k else st).
Proof.
  intros Hii. unfold severity_step, get. rewrite Hii. cbn [bind].
  assert (Hk : In k oi) by (eapply nth_error_In; eauto).
  apply oi_In in Hk. destruct Hk as [Hk _].
  unfold linkedb. replace (length time) with (length l)
    by (unfold time; now rewrite length_map).
  destruct (k + 1 <? length l)%nat eqn:Hlt; [|reflexivity].
  apply Nat.ltb_lt in Hlt. cbn [andb].
  fold (get time (k + 1)).
  rewrite (@get_nth _ time (k + 1)%nat 0)
    by (unfold time; now rewrite length_map).
  cbn [bind]. rewrite np_where_nonempty.
  replace (existsb (fun b : bool => b)
             (map (fun d => nth (k + 1) time 0 =? d) od))
    with (existsb (Z.eqb (nth (k + 1) time 0)) od)
    by (clear; induction od as [|x xs IH]; cbn; [|rewrite IH]; reflexivity).
  rewrite next_is_outlier by exact Hlt.
  destruct (o_out (nth (k + 1) l no_obs)); [|reflexivity].
  fold (get time k). fold (get cosd (k + 1)). fold (get cosd k).
  rewrite (@get_nth _ time k 0) by (unfold time; rewrite length_map; lia).
  rewrite (@get_nth _ cosd (k + 1)%nat NaN)
    by (unfold cosd; now rewrite length_map).
  rewrite (@get_nth _ cosd k NaN) by (unfold cosd; rewrite length_map; lia).
  cbn [bind]. unfold upd, pair_area, pair_days, pair_at. cbn [fst snd].
  rewrite !nth_time, !nth_cosd by lia. reflexivity.
Qed.

End SeverityLoop.

Section Folds.

Lemma foldM_pure {A S : Type} (f : S -> A -> res S) (g : S -> A -> S)
  (l : list A) :
  (forall s a, In a l -> f s a = Ok (g s a)) ->
  forall s, foldM f l s = Ok (fold_left g l s).
Proof.
  induction l as [|a l IH]; intros Hf s; [reflexivity|].
  cbn [foldM fold_left]. rewrite Hf by now left. cbn [bind].
  apply IH. intros s' a' Ha'. apply Hf. now right.
Qed.

Lemma map_nth_seq {A : Type} (l : list A) (d : A) :
  map (fun i => nth i l d) (seq 0 (length l)) = l.
Proof.
  induction l as [|a l IH]; [reflexivity|].
  cbn [length seq map nth]. f_equal.
  rewrite <- seq_shift, map_map. exact IH.
Qed.

Lemma selected_sorted (T : list Z) (m : list bool) :
  (length m <= length T)%nat -> StronglySorted Z.lt T ->
  StronglySorted Z.lt (map (fun i => nth i T 0) (np_where m)).
Proof.
  revert T. induction m as [|b m IH]; intros T Hlen HT.
  - constructor.
  - destruct T as [|t T]; [cbn in Hlen; lia|].
    apply StronglySorted_inv in HT. destruct HT as [HT Ht].
    rewrite np_where_cons, map_app, map_map. cbn [nth].
    assert (Htail : Forall (Z.lt t) (map (fun i => nth i T 0) (np_where m))).
    { apply Forall_forall. intros x Hx. apply in_map_iff in Hx.
      destruct Hx as (i & <- & Hi). apply np_where_In in Hi.
      rewrite Forall_forall in Ht. apply Ht, nth_In. cbn in Hlen. lia. }
    specialize (IH T ltac:(cbn in Hlen; lia) HT).
    destruct b; cbn [map app]; [constructor|]; assumption.
Qed.

Lemma sorted_NoDup (L : list Z) : StronglySorted Z.lt L -> NoDup L.
Proof.
  induction 1 as [|a L _ IH Ha]; constructor; trivial.
  intros Hin. rewrite Forall_forall in Ha. specialize (Ha a Hin). lia.
Qed.

Lemma sorted_adjacent (L : list Z) (k : nat) :
  StronglySorted Z.lt L -> (k + 1 < length L)%nat ->
  nth k L 0 < nth (k + 1) L 0.
Proof.
  intros HL. revert k. induction HL as [|a L HL IH Ha]; intros k Hk.
  - cbn in Hk. lia.
  - destruct k as [|k].
    + cbn [nth Nat.add]. rewrite Forall_forall in Ha. apply Ha, nth_In.
      cbn in Hk. lia.
    + cbn [nth Nat.add]. apply IH. cbn in Hk. lia.
Qed.

End Folds.

Section LinkedPairs.

Lemma linkedb_S (a : obs) (l : list obs) (k : nat) :
  linkedb (a :: l) (S k) = linkedb l k.
Proof. reflexivity. Qed.

Lemma pair_at_S (a : obs) (l : list obs) (k : nat) :
  pair_at (a :: l) (S k) = pair_at l k.
Proof. reflexivity. Qed.

Lemma linked_pairs_cons2 (a b : obs) (l : list obs) :
  linked_pairs (a :: b :: l)
  = if o_out a && o_out b then (a, b) :: linked_pairs (b :: l)
    else linked_pairs (b :: l).
Proof. reflexivity. Qed.

Lemma linked_pairs_where (l : list obs) :
  map (pair_at l) (filter (linkedb l) (np_where (map o_out l)))
  = linked_pairs l.
Proof.
  induction l as [|a l IH]; [reflexivity|].
  cbn [map]. rewrite np_where_cons, filter_app, map_app.
  rewrite filter_map_swap, map_map.
  rewrite (filter_ext _ (linkedb l) (linkedb_S a l)).
  rewrite (map_ext _ (pair_at l) (pair_at_S a l)), IH.
  destruct l as [|b l].
  - destruct (o_out a); reflexivity.
  - rewrite linked_pairs_cons2. destruct (o_out a); [|reflexivity].
    cbn [filter]. unfold linkedb at 1.
    cbn [length nth Nat.add Nat.ltb Nat.leb andb].
    destruct (o_out b); reflexivity.
Qed.

Lemma linked_pairs_two (l : list obs) :
  linked_pairs l <> [] -> (2 <= length (np_where (map o_out l)))%nat.
Proof.
  induction l as [|a l IH]; [easy|].
  destruct l as [|b l]; [easy|].
  rewrite linked_pairs_cons2. intros Hne.
  change (map o_out (a :: b :: l)) with (o_out a :: map o_out (b :: l)).
  rewrite np_where_cons, length_app, length_map.
  destruct (o_out a) eqn:Ha; cbn [andb] in Hne.
  - destruct (o_out b) eqn:Hb.
    + change (map o_out (b :: l)) with (o_out b :: map o_out l).
      rewrite Hb, np_where_cons, length_app. cbn. lia.
    + specialize (IH Hne). cbn [length]. lia.
  - specialize (IH Hne). cbn [length Nat.add]. exact IH.
Qed.

End LinkedPairs.

Section Scan.

Variable l : list obs.
Variable cthr : fl.
Let time := map o_time l.
Let cosd := map o_cos l.
Let oi := np_where (map o_out l).

Hypothesis Htime : NoDup time.

Let pos (ii : nat) : nat := nth ii oi 0%nat.
Let g (st : scan) (ii : nat) : scan :=
  if linkedb l (pos ii) then upd l cthr st ii (pos ii) else st.

Lemma fold_scan (js : list nat) (st : scan) :
  fold_left g js st
  = {| AreaAboveD0 :=
         fold_left (fun a ii => fadd a (pair_area cthr (pair_at l (pos ii))))
           (filter (fun ii => linkedb l (pos ii)) js) (AreaAboveD0 st);
       dur :=
         fold_left (fun a ii => fadd a (pair_days (pair_at l (pos ii))))
           (filter (fun ii => linkedb l (pos ii)) js) (dur st);
       tt := tt st ++ filter (fun ii => linkedb l (pos ii)) js |}.
Proof.
  revert st. induction js as [|ii js IH]; intros st.
  - cbn. rewrite app_nil_r. now destruct st.
  - cbn [fold_left filter]. rewrite IH. unfold g.
    destruct (linkedb l (pos ii)); [|reflexivity].
    cbn [fold_left upd AreaAboveD0 dur tt]. now rewrite <- app_assoc.
Qed.

Lemma linked_positions :
  map pos (filter (fun ii => linkedb l (pos ii)) (seq 0 (length oi)))
  = filter (linkedb l) oi.
Proof.
  rewrite <- (filter_map_swap (linkedb l) pos). unfold pos.
  now rewrite map_nth_seq.
Qed.

Lemma fold_left_map {A B C : Type} (f : A -> C -> A) (h : B -> C)
  (xs : list B) (a : A) :
  fold_left f (map h xs) a = fold_left (fun a x => f a (h x)) xs a.
Proof. revert a. induction xs as [|x xs IH]; intros a; cbn; auto. Qed.

Lemma severity_scan_linked :
  severity_scan cosd time oi cthr = Ok (score cthr (linked_pairs l)).
Proof.
  unfold severity_scan.
  rewrite (@take_nth _ time oi 0).
  2:{ apply Forall_forall. intros k Hk. apply (oi_In l) in Hk.
      unfold time. rewrite length_map. tauto. }
  cbn [bind]. fold oi.
  destruct (2 <=? length oi)%nat eqn:Hn.
  - rewrite (@foldM_pure _ _ _ g).
    2:{ intros st ii Hii. apply in_seq in Hii.
        apply severity_step_eq; trivial.
        fold oi. unfold pos. apply nth_error_nth'. lia. }
    cbn [bind]. rewrite fold_scan. cbn [tt AreaAboveD0 dur app].
    rewrite <- linked_pairs_where. fold oi.
    rewrite <- linked_positions, map_map.
    set (L := filter (fun ii => linkedb l (pos ii)) (seq 0 (length oi))).
    assert (HL : forall ii, In ii L -> (ii < length oi)%nat).
    { intros ii Hii. apply filter_In in Hii. destruct Hii as [Hii _].
      apply in_seq in Hii. lia. }
    unfold score. rewrite !fold_left_map.
    destruct L as [|ii0 L']; [reflexivity|].
    specialize (HL ii0 (or_introl eq_refl)).
    rewrite (@get_nth _ oi ii0 0%nat HL). cbn [bind].
    assert (Hk : In (pos ii0) oi) by (apply nth_In; exact HL).
    apply (oi_In l) in Hk. destruct Hk as [Hk _].
    rewrite (@get_nth _ time (nth ii0 oi 0%nat) 0)
      by (unfold time; rewrite length_map; exact Hk).
    cbn [bind map fst pair_at]. fold (pos ii0).
    unfold time at 1. rewrite (nth_time l). reflexivity.
  - apply Nat.leb_gt in Hn.
    destruct (linked_pairs l) eqn:E; [reflexivity|].
    assert (linked_pairs l <> []) as Hne by (rewrite E; discriminate).
    apply linked_pairs_two in Hne. fold oi in Hne. lia.
Qed.

End Scan.

Section SeverityArrays.

Variables (CDist : list fl) (cthr : fl) (Time : list Z).
Variables (NBR NBRDist : list fl) (nthr : fl) (Sign : list fl).
Variable Method : Z.

Let l := observations CDist cthr Time NBR NBRDist nthr Sign Method.

Hypothesis Hshape : well_shaped CDist Time NBR NBRDist Sign.
Hypothesis Hmethod : Method = 1 \/ Method = 2 \/ Method = 3.

Lemma severity_observations :
  severity CDist cthr Time NBR NBRDist nthr Sign Method
  = severity_scan (map o_cos l) (map o_time l) (np_where (map o_out l)) cthr.
Proof.
  destruct Hshape as (HT & HN & HD & HS).
  unfold severity, l, observations.
  set (idx := np_where (map (fun x => negb (isnan x)) CDist)).
  assert (Hidx : Forall (fun i => (i < length CDist)%nat) idx)
    by apply np_where_map_lt.
  rewrite (@take_nth _ CDist idx NaN Hidx).
  rewrite (@take_nth _ Time idx 0) by now rewrite HT.
  rewrite !map_map. cbn [o_cos o_time o_out obs_at bind].
  destruct Hmethod as [-> | [-> | ->]]; cbn [Z.eqb Pos.eqb bind].
  - unfold mask1. rewrite map_map. reflexivity.
  - rewrite (@take_nth _ NBR idx NaN) by now rewrite HN.
    cbn [bind]. unfold mask2, mask1. rewrite !map_map, map2_map.
    reflexivity.
  - rewrite (@take_nth _ NBRDist idx NaN) by now rewrite HD.
    rewrite (@take_nth _ Sign idx NaN) by now rewrite HS.
    cbn [bind]. unfold mask3, mask1.
    rewrite !map_map, map2_map, map2_map. reflexivity.
Qed.

Lemma observations_sorted :
  ascending Time -> StronglySorted Z.lt (map o_time l).
Proof.
  intros HT. unfold l, observations. rewrite map_map. cbn [o_time obs_at].
  apply selected_sorted; trivial.
  destruct Hshape as (Hlen & _). rewrite length_map. lia.
Qed.

Lemma severity_score :
  ascending Time ->
  severity CDist cthr Time NBR NBRDist nthr Sign Method
  = Ok (score cthr (linked_pairs l)).
Proof.
  intros HT. rewrite severity_observations.
  apply severity_scan_linked, sorted_NoDup, observations_sorted, HT.
Qed.

End SeverityArrays.

Lemma severity_scan_few (cosdist : list fl) (time : list Z) (oi : list nat)
  (cthr : fl) :
  Forall (fun k => (k < length time)%nat) oi -> (length oi < 2)%nat ->
  severity_scan cosdist time oi cthr
  = Ok {| sevindex := fzero; startdate := NoStart; duration := fzero |}.
Proof.
  intros Hoi Hn. unfold severity_scan.
  rewrite (@take_nth _ time oi 0 Hoi). cbn [bind].
  apply Nat.leb_gt in Hn. now rewrite Hn.
Qed.

Lemma days_between_pos (t0 t1 : Z) :
  t0 < t1 ->
  (0 < inject_Z (t1 - t0) / inject_Z ns_per_s / inject_Z (60 * 60 * 24))%Q.
Proof.
  intros Hlt.
  assert (0 < inject_Z (t1 - t0))%Q as Hd.
  { change 0%Q with (inject_Z 0). rewrite <- Zlt_Qlt. lia. }
  apply Qlt_shift_div_l; [reflexivity|].
  apply Qlt_shift_div_l; [reflexivity|].
  rewrite !Qmult_0_l. exact Hd.
Qed.

Lemma two_adjacent_outliers (l : list obs) (k : nat) :
  np_where (map o_out l) = [k; S k] -> linked_pairs l = [pair_at l k].
Proof.
  intros Hoi. rewrite <- linked_pairs_where, Hoi.
  assert (Hin : forall j, In j [k; S k] <->
                 (j < length l)%nat /\ o_out (nth j l no_obs) = true).
  { intros j. rewrite <- Hoi. apply oi_In. }
  assert (H1 : linkedb l k = true).
  { unfold linkedb. replace (k + 1)%nat with (S k) by lia.
    destruct (proj1 (Hin (S k))) as [Hlt Ho]; [cbn; tauto|].
    rewrite Ho. now apply Nat.ltb_lt in Hlt as ->. }
  assert (H2 : linkedb l (S k) = false).
  { unfold linkedb. apply not_true_is_false. intros Hb.
    apply andb_true_iff in Hb. destruct Hb as [Hlt Ho].
    apply Nat.ltb_lt in Hlt.
    destruct (proj2 (Hin (S k + 1)%nat)) as [E | [E | []]]; [tauto|lia|lia]. }
  cbn [filter]. now rewrite H1, H2.
Qed.

(** Claim C1.  For a pixel whose arrays have one entry per time step, with a
    strictly ascending time axis and one of the three policies, [severity]
    returns the score of the linked consecutive outlier pairs: starting from
    0, every pair (t0, t1) adds [0.5 * ((cos t1 + cos t0) - 2 * threshold) *
    days] to the severity index and [days] to the duration, in chronological
    order, where [days] is [(t1 - t0) / 10^9 / 86400] for times in
    nanoseconds.  When the outliers are exactly two adjacent observations [k]
    and [k + 1], at the times [t0 < t1] and with the cosine distances [c0]
    and [c1], the start date is [t0], the duration is
    [(t1 - t0) / 10^9 / 86400] days, which is positive, and for finite
    distances and a finite threshold the severity index is
    [1/2 * ((c1 + c0) - 2 * threshold) * (t1 - t0) / 10^9 / 86400]. *)
Theorem severity_linked_pairs
  (CDist : list fl) (cthr : fl) (Time : list Z) (NBR NBRDist : list fl)
  (nthr : fl) (Sign : list fl) (Method : Z) :
  well_shaped CDist Time NBR NBRDist Sign ->
  ascending Time ->
  Method = 1 \/ Method = 2 \/ Method = 3 ->
  severity CDist cthr Time NBR NBRDist nthr Sign Method
  = Ok (score cthr
          (linked_pairs
             (observations CDist cthr Time NBR NBRDist nthr Sign Method)))
  /\
  forall k,
    np_where (map o_out
      (observations CDist cthr Time NBR NBRDist nthr Sign Method))
    = [k; S k] ->
    exists r t0 t1 c0 c1,
      severity CDist cthr Time NBR NBRDist nthr Sign Method = Ok r /\
      nth_error (observations CDist cthr Time NBR NBRDist nthr Sign Method) k
      = Some {| o_time := t0; o_cos := c0; o_out := true |} /\
      nth_error (observations CDist cthr Time NBR NBRDist nthr Sign Method)
        (S k)
      = Some {| o_time := t1; o_cos := c1; o_out := true |} /\
      t0 < t1 /\
      startdate r = StartAt t0 /\
      feq (duration r)
          (Fin (inject_Z (t1 - t0) / inject_Z 1000000000 / inject_Z 86400)) /\
      flt fzero (duration r) = true /\
      forall q0 q1 thr,
        c0 = Fin q0 -> c1 = Fin q1 -> cthr = Fin thr ->
        feq (sevindex r)
            (Fin ((1 # 2) * ((q1 + q0) - 2 * thr)
                  * (inject_Z (t1 - t0) / inject_Z 1000000000
                     / inject_Z 86400))).
Proof.
  intros Hshape Hasc Hmethod.
  pose proof (severity_score CDist cthr Time NBR NBRDist nthr Sign Method
                Hshape Hmethod Hasc) as Hsev.
  split; [exact Hsev|].
  intros k Hoi.
  set (l := observations CDist cthr Time NBR NBRDist nthr Sign Method) in *.
  assert (Hin : forall j, In j [k; S k] <->
                 (j < length l)%nat /\ o_out (nth j l no_obs) = true).
  { intros j. rewrite <- Hoi. apply oi_In. }
  destruct (proj1 (Hin k)) as [Hk0 Ho0]; [cbn; tauto|].
  destruct (proj1 (Hin (S k))) as [Hk Ho1]; [cbn; tauto|].
  pose proof (observations_sorted CDist cthr Time NBR NBRDist nthr Sign
                Method Hshape Hasc) as Hsorted.
  fold l in Hsorted.
  assert (Hlt : nth k (map o_time l) 0 < nth (k + 1) (map o_time l) 0).
  { apply sorted_adjacent; trivial. rewrite length_map. lia. }
  replace (k + 1)%nat with (S k) in Hlt by lia.
  rewrite !nth_time in Hlt.
  exists (score cthr (linked_pairs l)),
         (o_time (nth k l no_obs)), (o_time (nth (S k) l no_obs)),
         (o_cos (nth k l no_obs)), (o_cos (nth (S k) l no_obs)).
  split; [exact Hsev|].
  split.
  { rewrite (nth_error_nth' l no_obs Hk0). f_equal.
    destruct (nth k l no_obs) as [t c o]. cbn [o_out] in Ho0. now subst o. }
  split.
  { rewrite (nth_error_nth' l no_obs Hk). f_equal.
    destruct (nth (S k) l no_obs) as [t c o]. cbn [o_out] in Ho1.
    now subst o. }
  split; [exact Hlt|].
  rewrite (two_adjacent_outliers l k Hoi).
  unfold score, pair_area, pair_days, pair_at.
  cbn [fold_left fst snd startdate duration sevindex].
  replace (k + 1)%nat with (S k) by lia.
  pose proof (days_between_pos _ _ Hlt) as Hpos.
  split; [reflexivity|].
  cbn [fadd fzero feq flt]. split; [apply Qplus_0_l|]. split.
  - unfold Qlt_bool. apply negb_true_iff, not_true_is_false.
    intros Hle. apply Qle_bool_iff in Hle. rewrite Qplus_0_l in Hle.
    apply (Qlt_irrefl 0). eapply Qlt_le_trans; eauto.
  - intros q0 q1 thr -> -> ->. cbn [fadd fsub fneg fmul feq]. ring.
Qed.

Lemma severity_linked_pairs_witness :
  exists r,
    severity ex_CDist (Fin (1 # 2)) ex_Time ex_NBR ex_NBRDist (Fin (3 # 10))
      ex_Sign 3 = Ok r /\
    startdate r = StartAt (16 * day) /\
    feq (duration r) (Fin 16) /\
    feq (sevindex r) (Fin (56 # 10)).
Proof.
  assert (Hshape : well_shaped ex_CDist ex_Time ex_NBR ex_NBRDist ex_Sign)
    by (repeat split).
  assert (Hasc : ascending ex_Time)
    by (unfold ascending, ex_Time, day; repeat constructor).
  destruct (severity_linked_pairs ex_CDist (Fin (1 # 2)) ex_Time ex_NBR
              ex_NBRDist (Fin (3 # 10)) ex_Sign 3
              Hshape Hasc (or_intror (or_intror eq_refl)))
    as [_ Htwo].
  destruct (Htwo 1%nat eq_refl)
    as (r & t0 & t1 & c0 & c1 & Hr & H0 & H1 & _ & Hs & Hd & _ & Hi).
  vm_compute in H0. injection H0 as <- <-.
  vm_compute in H1. injection H1 as <- <-.
  exists r. split; [exact Hr|]. split; [exact Hs|]. split.
  - destruct (duration r); cbn [feq] in Hd |- *; try exact Hd.
    rewrite Hd. reflexivity.
  - specialize (Hi _ _ _ eq_refl eq_refl eq_refl).
    destruct (sevindex r); cbn [feq] in Hi |- *; try exact Hi.
    rewrite Hi. reflexivity.
Defined.

(** Claim C2.  A pixel with fewer than two outlier time steps (whatever the
    time axis), or without a linked consecutive pair on an ascending time
    axis, gets severity index 0, duration 0 and the start date 0 that
    [severitymapping] replaces by NaN. *)
Theorem severity_without_linked_pair
  (CDist : list fl) (cthr : fl) (Time : list Z) (NBR NBRDist : list fl)
  (nthr : fl) (Sign : list fl) (Method : Z) :
  well_shaped CDist Time NBR NBRDist Sign ->
  Method = 1 \/ Method = 2 \/ Method = 3 ->
  (length (np_where (map o_out
     (observations CDist cthr Time NBR NBRDist nthr Sign Method))) < 2)%nat
  \/ (ascending Time /\
      linked_pairs
        (observations CDist cthr Time NBR NBRDist nthr Sign Method) = []) ->
  severity CDist cthr Time NBR NBRDist nthr Sign Method
  = Ok {| sevindex := fzero; startdate := NoStart; duration := fzero |}
  /\ BurnCube.nan_if_zero (BurnCube.startdate_float NoStart) = NaN.
Proof.
  intros Hshape Hmethod Hfew. split; [|reflexivity].
  destruct Hfew as [Hfew | [Hasc Hnone]].
  - rewrite severity_observations by assumption.
    apply severity_scan_few; trivial.
    apply Forall_forall. intros k Hk. apply oi_In in Hk.
    rewrite length_map. tauto.
  - rewrite severity_score by assumption. now rewrite Hnone.
Qed.

Lemma severity_without_linked_pair_witness :
  severity ex_CDist (Fin (85 # 100)) ex_Time ex_NBR ex_NBRDist (Fin (3 # 10))
    ex_Sign 3
  = Ok {| sevindex := fzero; startdate := NoStart; duration := fzero |}
  /\ BurnCube.nan_if_zero (BurnCube.startdate_float NoStart) = NaN.
Proof.
  apply severity_without_linked_pair.
  - repeat split.
  - right; right; reflexivity.
  - left. vm_compute. lia.
Defined.

(** ** The default policy of severitymapping *)

(** Claim C3, as the code has it.  Without a [method] argument
    [severitymapping] flags a time step when the cosine distance exceeds its
    threshold and the NBR is negative (the method "NBR", policy B).  The rule
    with the NBR distance and the direction of change is the one of the
    method "NBRdist", and the default [Method = 3] of [severity]. *)
Theorem severitymapping_default_policy (cos cthr nbr nbrdist nthr dir : fl) :
  change_flag None cos cthr nbr nbrdist nthr dir
  = Ok (fgt cos cthr && flt nbr fzero)
  /\ change_flag None cos cthr nbr nbrdist nthr dir
     = change_flag (Some "NBR"%string) cos cthr nbr nbrdist nthr dir
  /\ change_flag (Some "NBRdist"%string) cos cthr nbr nbrdist nthr dir
     = Ok (fgt cos cthr && fgt nbrdist nthr && feqb dir fone)
  /\ policy Toolbox.severity_default_Method cos cthr nbr nbrdist nthr dir
     = fgt cos cthr && fgt nbrdist nthr && feqb dir fone.
Proof. repeat split. Qed.

Lemma severitymapping_default_not_full :
  ~ (forall cos cthr nbr nbrdist nthr dir,
       change_flag None cos cthr nbr nbrdist nthr dir = Ok true ->
       fgt cos cthr = true /\ fgt nbrdist nthr = true /\ feqb dir fone = true).
Proof.
  intros H.
  destruct (H (Fin 1) (Fin (1 # 2)) (Fin (- 1 # 10)) (Fin 0) (Fin (1 # 2))
              (Fin 0) eq_refl) as (_ & Hn & _).
  discriminate Hn.
Qed.

(** ** Scattered assignment *)

Section Scatter.
Context {A : Type}.

Lemma set_nth_ok (l : list A) (i : nat) (v : A) :
  (i < length l)%nat -> exists r, set_nth l i v = Ok r /\ length r = length l.
Proof.
  revert i. induction l as [|a l IH]; intros i Hi; [cbn in Hi; lia|].
  destruct i as [|i]; cbn [set_nth].
  - eexists; split; reflexivity.
  - destruct (IH i) as (r & -> & Hr); [cbn in Hi; lia|].
    cbn [bind]. eexists; split; [reflexivity|]. cbn. now rewrite Hr.
Qed.

Lemma set_nth_spec (l r : list A) (i : nat) (v : A) :
  set_nth l i v = Ok r ->
  forall j, nth_error r j = if Nat.eqb j i then Some v else nth_error l j.
Proof.
  revert r i. induction l as [|a l IH]; intros r i Hset j; [discriminate|].
  destruct i as [|i]; cbn [set_nth] in Hset.
  - injection Hset as <-. now destruct j.
  - destruct (set_nth l i v) as [r'|] eqn:E; [|discriminate].
    cbn [bind] in Hset. injection Hset as <-.
    destruct j as [|j]; [reflexivity|]. cbn [nth_error Nat.eqb].
    now apply IH.
Qed.

Lemma scatter_zip_ok (iv : list (nat * A)) (out : list A) :
  Forall (fun p => (fst p < length out)%nat) iv ->
  exists r, scatter_zip out iv = Ok r /\ length r = length out.
Proof.
  revert out. induction iv as [|[i v] iv IH]; intros out Hiv.
  - eexists; split; reflexivity.
  - apply Forall_cons_iff in Hiv. destruct Hiv as [Hi Hiv]. cbn [fst] in Hi.
    cbn [scatter_zip].
    destruct (set_nth_ok out i v Hi) as (o' & -> & Ho'). cbn [bind].
    destruct (IH o') as (r & Hr & Hlen); [now rewrite Ho'|].
    exists r. split; [exact Hr|]. now rewrite Hlen.
Qed.

Lemma scatter_zip_other (iv : list (nat * A)) (out r : list A) (j : nat) :
  scatter_zip out iv = Ok r -> ~ In j (map fst iv) ->
  nth_error r j = nth_error out j.
Proof.
  revert out. induction iv as [|[i v] iv IH]; intros out Hs Hj.
  - now injection Hs as <-.
  - cbn [scatter_zip] in Hs.
    destruct (set_nth out i v) as [o'|] eqn:E; [|discriminate].
    cbn [bind] in Hs. cbn [map fst In] in Hj.
    rewrite (IH o' Hs) by tauto.
    rewrite (set_nth_spec _ _ _ _ E j).
    destruct (Nat.eqb_spec j i); [subst; tauto|reflexivity].
Qed.

Lemma scatter_zip_hit (iv : list (nat * A)) (out r : list A) (j : nat)
  (v : A) :
  scatter_zip out iv = Ok r -> NoDup (map fst iv) -> In (j, v) iv ->
  nth_error r j = Some v.
Proof.
  revert out. induction iv as [|[i w] iv IH]; intros out Hs Hnd Hin;
    [destruct Hin|].
  cbn [scatter_zip] in Hs.
  destruct (set_nth out i w) as [o'|] eqn:E; [|discriminate].
  cbn [bind] in Hs. cbn [map fst] in Hnd.
  apply NoDup_cons_iff in Hnd. destruct Hnd as [Hni Hnd].
  destruct Hin as [Heq | Hin].
  - injection Heq as -> ->.
    rewrite (scatter_zip_other _ _ _ _ Hs Hni).
    rewrite (set_nth_spec _ _ _ _ E j). now rewrite Nat.eqb_refl.
  - now apply (IH o').
Qed.

End Scatter.

Lemma np_where_NoDup (m : list bool) : NoDup (np_where m).
Proof. apply NoDup_filter, seq_NoDup. Qed.

Lemma bool_select_map {A : Type} (h : A -> bool) (l : list A) :
  Toolbox.bool_select l (map h l) = filter h l.
Proof.
  unfold Toolbox.bool_select.
  induction l as [|a l IH]; [reflexivity|].
  cbn [map combine filter snd]. destruct (h a); cbn [map fst]; now rewrite IH.
Qed.

Lemma flt_sub_zero (x r : fl) : flt (fsub x r) fzero = flt x r.
Proof.
  destruct x as [a| | |], r as [b| | |]; try reflexivity.
  cbn [fsub fneg fadd flt fzero]. unfold Qlt_bool. f_equal.
  apply eq_iff_eq_true. rewrite !Qle_bool_iff. split; intros Hq; lra.
Qed.

(** ** Scattered values *)

Lemma combine_map_r {A B : Type} (f : A -> B) (l : list A) :
  combine l (map f l) = map (fun a => (a, f a)) l.
Proof. induction l as [|a l IH]; cbn; [|rewrite IH]; reflexivity. Qed.

Lemma repeat_as_map {A B : Type} (v : B) (l : list A) :
  repeat v (length l) = map (fun _ => v) l.
Proof. induction l as [|a l IH]; cbn; [|rewrite IH]; reflexivity. Qed.

Lemma scatter_map {A : Type} (out : list A) (idx : list nat) (f : nat -> A) :
  Forall (fun i => (i < length out)%nat) idx -> NoDup idx ->
  exists r,
    scatter out idx (map f idx) = Ok r /\ length r = length out /\
    forall i, nth_error r i
              = if existsb (Nat.eqb i) idx then Some (f i) else nth_error out i.
Proof.
  intros Hidx Hnd. unfold scatter.
  rewrite length_map, Nat.eqb_refl, combine_map_r.
  destruct (scatter_zip_ok (map (fun a => (a, f a)) idx) out) as (r & Hr & Hl).
  { apply Forall_forall. intros p Hp. apply in_map_iff in Hp.
    destruct Hp as (i & <- & Hi). rewrite Forall_forall in Hidx.
    now apply Hidx. }
  exists r. split; [exact Hr|]. split; [exact Hl|].
  assert (Hfst : map fst (map (fun a => (a, f a)) idx) = idx).
  { rewrite map_map. cbn [fst]. apply map_id. }
  intros i. destruct (existsb (Nat.eqb i) idx) eqn:E.
  - apply existsb_exists in E. destruct E as (j & Hj & Heq).
    apply Nat.eqb_eq in Heq. subst j.
    apply (scatter_zip_hit _ _ _ _ _ Hr); [now rewrite Hfst|].
    apply in_map_iff. now exists i.
  - apply (scatter_zip_other _ _ _ _ Hr). rewrite Hfst. intros Hin.
    assert (existsb (Nat.eqb i) idx = true) as Ht; [|congruence].
    apply existsb_exists. exists i. split; [exact Hin|apply Nat.eqb_refl].
Qed.

Lemma existsb_eqb_In (i : nat) (l : list nat) :
  existsb (Nat.eqb i) l = true <-> In i l.
Proof.
  rewrite existsb_exists. split.
  - intros (j & Hj & E). apply Nat.eqb_eq in E. now subst.
  - intros Hi. exists i. split; [exact Hi|apply Nat.eqb_refl].
Qed.

(** ** Region growing *)

Section RegionGrowing.

Lemma insert_unique_In (x y : Z) (l : list Z) :
  In y (insert_unique x l) <-> y = x \/ In y l.
Proof.
  induction l as [|a l IH]; cbn [insert_unique In]; [intuition|].
  destruct (x <? a) eqn:Hlt; [cbn [In]; intuition|].
  destruct (x =? a) eqn:Heq.
  - apply Z.eqb_eq in Heq. subst a. cbn [In]. intuition.
  - cbn [In]. rewrite IH. intuition.
Qed.

Lemma np_unique_In (y : Z) (l : list Z) : In y (np_unique l) <-> In y l.
Proof.
  unfold np_unique. induction l as [|a l IH]; [reflexivity|].
  cbn [fold_right In]. rewrite insert_unique_In, IH. intuition.
Qed.

Lemma next_obs_none (time : list Z) (d : Z) :
  (forall t, In t time -> after_day d t = false) ->
  next_obs time d = Err IndexError.
Proof.
  intros Hnone. unfold next_obs.
  replace (np_where (map (after_day d) time)) with (@nil nat); [reflexivity|].
  symmetry. destruct (np_where (map (after_day d) time)) as [|i w] eqn:E;
    [reflexivity|].
  assert (In i (np_where (map (after_day d) time))) as Hi
    by (rewrite E; now left).
  apply np_where_In in Hi. destruct Hi as [Hlt Hi].
  rewrite length_map in Hlt.
  rewrite (nth_indep _ false (after_day d 0)) in Hi by now rewrite length_map.
  rewrite map_nth in Hi. rewrite Hnone in Hi; [discriminate|].
  now apply nth_In.
Qed.

Lemma next_obs_first (time : list Z) (d : Z) (ti : nat) :
  next_obs time d = Ok ti ->
  (ti < length time)%nat /\ after_day d (nth ti time 0) = true /\
  forall j, (j < ti)%nat -> after_day d (nth j time 0) = false.
Proof.
  unfold next_obs, get. revert ti.
  induction time as [|t time IH]; intros ti; [discriminate|].
  cbn [map]. rewrite np_where_cons.
  destruct (after_day d t) eqn:Ht.
  - cbn [app nth_error]. intros [= <-]. cbn [length nth].
    repeat split; [lia|exact Ht|lia].
  - cbn [app]. destruct (np_where (map (after_day d) time)) as [|i w] eqn:E;
      [discriminate|].
    cbn [map nth_error]. intros [= <-].
    destruct (IH i eq_refl) as (Hlt & Hi & Hbefore).
    cbn [length nth]. repeat split; [lia|exact Hi|].
    intros [|j] Hj; [exact Ht|]. apply Hbefore. lia.
Qed.

Lemma foldM_fails {A S : Type} (f : S -> A -> res S) (l : list A) (a : A) :
  In a l -> (forall s, exists e, f s a = Err e) ->
  forall s, exists e, foldM f l s = Err e.
Proof.
  intros Hin Hf. induction l as [|b l IH]; [destruct Hin|].
  intros s. cbn [foldM]. destruct Hin as [-> | Hin].
  - destruct (Hf s) as (e & ->). now exists e.
  - destruct (f s b) as [s'|e]; [apply (IH Hin)|now exists e].
Qed.

Variable label : list Z -> list Z.

(** Claim C8, the behaviour of the code.  When no pixel has a defined start
    date, [region_growing] raises ValueError: [np.max] is applied to the
    empty array [sumpix]. *)
Theorem region_growing_without_dates (dists : dists_ds) (outlrs : outlrs_ds)
  (sev : severity_ds) :
  (forall x, In x (StartDate sev) -> isnan x = true) ->
  region_growing label dists outlrs sev = Err ValueError.
Proof.
  intros Hnan. unfold region_growing, start_dates.
  replace (filter (fun x => negb (isnan x)) (StartDate sev)) with (@nil fl);
    [reflexivity|].
  symmetry. induction (StartDate sev) as [|x l IH]; [reflexivity|].
  cbn [filter]. rewrite (Hnan x) by now left. cbn [negb].
  apply IH. intros y Hy. apply Hnan. now right.
Qed.


End RegionGrowing.

Lemma region_growing_without_dates_witness :
  region_growing label_1x1 rg_dists rg_outlrs (rg_severity NaN)
  = Err ValueError.
Proof.
  apply region_growing_without_dates.
  intros x [<- | []]. reflexivity.
Defined.



(** ** The outlier thresholds *)

Lemma nth_error_map2 {A B C : Type} (f : A -> B -> C) (l : list A)
  (m : list B) (i : nat) :
  nth_error (map2 f l m) i
  = match nth_error l i, nth_error m i with
    | Some a, Some b => Some (f a b)
    | _, _ => None
    end.
Proof.
  revert m i. induction l as [|a l IH]; intros m i.
  - destruct i; reflexivity.
  - destruct m as [|b m].
    + destruct i; cbn; [reflexivity|]. now destruct (nth_error l i).
    + destruct i; cbn; [reflexivity|apply IH].
Qed.

Lemma length_map2 {A B C : Type} (f : A -> B -> C) (l : list A) (m : list B) :
  length (map2 f l m) = Nat.min (length l) (length m).
Proof.
  revert m. induction l as [|a l IH]; intros [|b m]; cbn; auto.
Qed.

Lemma map2_nth_error {A B C : Type} (f : A -> B -> C) (l : list A)
  (m : list B) (i : nat) (c : C) :
  nth_error (map2 f l m) i = Some c ->
  exists a b, nth_error l i = Some a /\ nth_error m i = Some b /\ c = f a b.
Proof.
  revert m i. induction l as [|a l IH]; intros m i Hc;
    [destruct i; discriminate|].
  destruct m as [|b m]; [destruct i; discriminate|].
  destruct i as [|i]; cbn in Hc |- *.
  - injection Hc as <-. now exists a, b.
  - now apply IH.
Qed.

Lemma fence_const (q1 q3 : fl) (c : Q) :
  feq q1 (Fin c) -> feq q3 (Fin c) -> feq (fence q1 q3) (Fin c).
Proof.
  destruct q1 as [a| | |], q3 as [b| | |]; cbn; try tauto.
  intros Ha Hb. lra.
Qed.

Lemma tukey_ok `{Percentile} (data : list (list fl)) :
  tukey (nanpercentile data [25; 75])
  = Ok (map2 fence (nth 0 (nanpercentile data [25; 75]) [])
                   (nth 1 (nanpercentile data [25; 75]) [])).
Proof.
  pose proof (nanpercentile_shape data [25; 75]) as Hlen.
  destruct (nanpercentile data [25; 75]) as [|p0 [|p1 ps]];
    try discriminate Hlen.
  reflexivity.
Qed.

Lemma tukey_const `{Percentile} (data : list (list fl)) (c : Q) (i : nat)
  (t : fl) :
  samples_all data c -> has_sample data i ->
  nth_error (map2 fence (nth 0 (nanpercentile data [25; 75]) [])
                        (nth 1 (nanpercentile data [25; 75]) [])) i = Some t ->
  feq t (Fin c).
Proof.
  intros Hall Hhas Ht.
  pose proof (nanpercentile_shape data [25; 75]) as Hlen.
  pose proof (@nanpercentile_const _ data [25; 75] c) as Hconst.
  destruct (nanpercentile data [25; 75]) as [|p0 [|p1 ps]];
    try discriminate Hlen.
  cbn [nth] in Ht.
  apply map2_nth_error in Ht. destruct Ht as (q1 & q3 & H1 & H3 & ->).
  apply fence_const.
  - apply (Hconst 0%nat p0 i q1 Hall Hhas eq_refl H1).
  - apply (Hconst 1%nat p1 i q3 Hall Hhas eq_refl H3).
Qed.

(** Claim C6.  [outliers] returns, for each of the two distances and every
    pixel, [Q3 + 1.5 * (Q3 - Q1)] of the 25th percentile [Q1] and the 75th
    percentile [Q3] that [nanpercentile] gives for the pixel: in floating
    point whatever the two percentiles are, and as the rational number
    [b + 3/2 * (b - a)] when they are the finite values [a] and [b].  Where
    all valid samples equal [c], the threshold is [c]. *)
Theorem outliers_tukey_fence `{Percentile} (NBRDist cosdist : list (list fl)) :
  exists o,
    outliers NBRDist cosdist = Ok o /\
    (forall i Q1 Q3,
       nth_error (nth 0 (nanpercentile NBRDist [25; 75]) []) i = Some Q1 ->
       nth_error (nth 1 (nanpercentile NBRDist [25; 75]) []) i = Some Q3 ->
       nth_error (NBRoutlier o) i
       = Some (fadd Q3 (fmul (Fin (3 # 2)) (fsub Q3 Q1))) /\
       forall a b, Q1 = Fin a -> Q3 = Fin b ->
         nth_error (NBRoutlier o) i = Some (Fin (b + (3 # 2) * (b - a)))) /\
    (forall i Q1 Q3,
       nth_error (nth 0 (nanpercentile cosdist [25; 75]) []) i = Some Q1 ->
       nth_error (nth 1 (nanpercentile cosdist [25; 75]) []) i = Some Q3 ->
       nth_error (CDistoutlier o) i
       = Some (fadd Q3 (fmul (Fin (3 # 2)) (fsub Q3 Q1))) /\
       forall a b, Q1 = Fin a -> Q3 = Fin b ->
         nth_error (CDistoutlier o) i = Some (Fin (b + (3 # 2) * (b - a)))) /\
    (forall c i t,
       samples_all NBRDist c -> has_sample NBRDist i ->
       nth_error (NBRoutlier o) i = Some t -> feq t (Fin c)) /\
    (forall c i t,
       samples_all cosdist c -> has_sample cosdist i ->
       nth_error (CDistoutlier o) i = Some t -> feq t (Fin c)).
Proof.
  unfold outliers. rewrite !tukey_ok. cbn [bind].
  eexists. split; [reflexivity|]. cbn [NBRoutlier CDistoutlier].
  assert (Hfence : forall p0 p1 i Q1 Q3,
            nth_error p0 i = Some Q1 -> nth_error p1 i = Some Q3 ->
            nth_error (map2 fence p0 p1) i
            = Some (fadd Q3 (fmul (Fin (3 # 2)) (fsub Q3 Q1))) /\
            forall a b, Q1 = Fin a -> Q3 = Fin b ->
              nth_error (map2 fence p0 p1) i
              = Some (Fin (b + (3 # 2) * (b - a)))).
  { intros p0 p1 i Q1 Q3 H1 H3. rewrite nth_error_map2, H1, H3.
    split; [reflexivity|]. intros a b -> ->. reflexivity. }
  split; [intros i Q1 Q3; apply Hfence|].
  split; [intros i Q1 Q3; apply Hfence|].
  split; intros c i t; apply tukey_const.
Qed.

Lemma outliers_tukey_fence_witness :
  exists o,
    outliers spread_dist const_dist = Ok o /\
    (exists t, nth_error (NBRoutlier o) 0 = Some t /\ feq t (Fin (7 # 10))) /\
    (exists t, nth_error (NBRoutlier o) 1 = Some t /\ feq t (Fin (2 # 10))) /\
    (forall t, nth_error (CDistoutlier o) 1 = Some t -> feq t (Fin (3 # 10))).
Proof.
  destruct (outliers_tukey_fence spread_dist const_dist)
    as (o & Ho & HN & _ & _ & HC).
  assert (Hall : samples_all const_dist (3 # 10)).
  { intros row x Hrow Hx Hn. unfold const_dist in Hrow. cbn in Hrow.
    repeat match goal with
           | H : _ \/ _ |- _ => destruct H
           | H : False |- _ => destruct H
           end; subst; cbn in Hx;
    repeat match goal with
           | H : _ \/ _ |- _ => destruct H
           | H : False |- _ => destruct H
           end; subst; try discriminate Hn; cbn; reflexivity. }
  exists o. split; [exact Ho|]. split; [|split].
  - destruct (HN 0%nat (Fin (2 # 10)) (Fin (4 # 10)) eq_refl eq_refl)
      as [_ Hq].
    eexists. split; [exact (Hq _ _ eq_refl eq_refl)|]. reflexivity.
  - destruct (HN 1%nat (Fin (2 # 10)) (Fin (2 # 10)) eq_refl eq_refl)
      as [_ Hq].
    eexists. split; [exact (Hq _ _ eq_refl eq_refl)|]. reflexivity.
  - intros t Ht. apply (HC _ 1%nat t Hall); [|exact Ht].
    exists [NaN; Fin (3 # 10)], (Fin (3 # 10)). cbn. tauto.
Defined.

(** ** The geometric median *)

Section FiniteValues.

Lemma isfinite_fadd (x y : fl) :
  isfinite (fadd x y) = isfinite x && isfinite y.
Proof. destruct x, y; reflexivity. Qed.

Lemma isfinite_fsub (x y : fl) :
  isfinite (fsub x y) = isfinite x && isfinite y.
Proof. destruct x, y; reflexivity. Qed.

Lemma isfinite_square (x : fl) :
  isfinite x = true -> isfinite (square x) = true.
Proof. destruct x; intros Hx; try discriminate Hx. reflexivity. Qed.

Lemma isfinite_fold (l : list fl) (a : fl) :
  isfinite (fold_left fadd l a) = isfinite a && forallb isfinite l.
Proof.
  revert a. induction l as [|x l IH]; intros a; cbn [fold_left forallb].
  - now rewrite andb_true_r.
  - now rewrite IH, isfinite_fadd, andb_assoc.
Qed.

Lemma isfinite_fsum (l : list fl) : isfinite (fsum l) = forallb isfinite l.
Proof. unfold fsum. now rewrite isfinite_fold. Qed.

Lemma inf_of_sign_not_finite (s : Z) : isfinite (inf_of_sign s) = false.
Proof. unfold inf_of_sign. destruct (s =? 0), (0 <? s); reflexivity. Qed.

Lemma fdiv_not_finite (x y : fl) :
  isfinite x = false -> isfinite y = false -> fdiv x y = NaN.
Proof. destruct x, y; intros Hx Hy; try discriminate; reflexivity. Qed.

Lemma vec_map (n : nat) (f : fl -> fl) (v : list fl) :
  (forall x, isfinite x = true -> isfinite (f x) = true) ->
  vec n v -> vec n (map f v).
Proof.
  intros Hf [Hlen Hfin]. split; [now rewrite length_map|].
  rewrite forallb_forall in *. intros y Hy. apply in_map_iff in Hy.
  destruct Hy as (x & <- & Hx). auto.
Qed.

Lemma vec_map2 (n : nat) (f : fl -> fl -> fl) (u v : list fl) :
  (forall x y, isfinite x = true -> isfinite y = true ->
               isfinite (f x y) = true) ->
  vec n u -> vec n v -> vec n (map2 f u v).
Proof.
  intros Hf. revert n v. induction u as [|a u IH]; intros n v [Hu Hfu] [Hv Hfv].
  - split; [exact Hu|reflexivity].
  - destruct v as [|b v]; [cbn in Hu, Hv; lia|].
    cbn [forallb] in Hfu, Hfv. apply andb_true_iff in Hfu, Hfv.
    destruct Hfu as [Ha Hfu], Hfv as [Hb Hfv].
    destruct n as [|n]; [discriminate Hu|].
    destruct (IH n v) as [Hl Hf']; [split; [cbn in Hu; lia|exact Hfu]
                                   |split; [cbn in Hv; lia|exact Hfv]|].
    split; cbn [map2 length forallb]; [now rewrite Hl|].
    now rewrite Hf, Hf'.
Qed.

Lemma vec_repeat_zero (n : nat) : vec n (repeat fzero n).
Proof.
  split; [apply repeat_length|]. induction n; cbn; auto.
Qed.

Lemma vec_sum_axis0 (n : nat) (M : matrix) :
  Forall (vec n) M -> vec n (sum_axis0 n M).
Proof.
  unfold sum_axis0. generalize (vec_repeat_zero n).
  generalize (repeat fzero n) as acc.
  induction M as [|row M IH]; intros acc Hacc HM; [exact Hacc|].
  apply Forall_cons_iff in HM. destruct HM as [Hrow HM].
  cbn [fold_left]. apply IH; [|exact HM].
  apply vec_map2; trivial. intros x y Hx Hy.
  now rewrite isfinite_fadd, Hx, Hy.
Qed.

Lemma vec_nth (n : nat) (v : list fl) (i : nat) :
  vec n v -> (i < n)%nat -> isfinite (nth i v NaN) = true.
Proof.
  intros [Hlen Hfin] Hi. rewrite forallb_forall in Hfin.
  apply Hfin, nth_In. lia.
Qed.

End FiniteValues.

Section Norms.
Context `{Sqrt}.

Lemma fsqrt_finite (x : fl) :
  isfinite x = true -> fsqrt x = NaN \/ nonneg (fsqrt x).
Proof.
  destruct x as [q| | |]; intros Hx; try discriminate Hx.
  cbn [fsqrt]. destruct (Qlt_bool q 0); [now left|right].
  exists (sqrtQ q). split; [reflexivity|apply sqrtQ_nonneg].
Qed.

Lemma fdiv_by_positive (a s : Q) :
  Qeq_bool s 0 = false -> fdiv (Fin a) (Fin s) = Fin (a / s).
Proof. intros Hs. cbn [fdiv]. now rewrite Hs. Qed.

Lemma fdiv_by_zero (a s : Q) :
  Qeq_bool s 0 = true -> isfinite (fdiv (Fin a) (Fin s)) = false.
Proof. intros Hs. cbn [fdiv]. rewrite Hs. apply inf_of_sign_not_finite. Qed.

Lemma quotients_finite (row Nsel : list fl) :
  length row = length Nsel ->
  forallb isfinite row = true -> Forall nonneg Nsel ->
  forallb isfinite (map2 fdiv row Nsel) = negb (existsb is_zero Nsel).
Proof.
  revert Nsel. induction row as [|a row IH]; intros Nsel Hlen Hrow HN.
  - destruct Nsel; [reflexivity|discriminate Hlen].
  - destruct Nsel as [|s Nsel]; [discriminate Hlen|].
    apply Forall_cons_iff in HN. destruct HN as [(q & -> & Hq) HN].
    cbn [forallb] in Hrow. apply andb_true_iff in Hrow.
    destruct Hrow as [Ha Hrow].
    destruct a as [a| | |]; try discriminate Ha.
    cbn [map2 forallb existsb is_zero].
    rewrite (IH Nsel) by (trivial; cbn in Hlen; lia).
    rewrite negb_orb. f_equal.
    destruct (Qeq_bool q 0) eqn:E.
    + now rewrite fdiv_by_zero.
    + now rewrite fdiv_by_positive.
Qed.

Lemma inverses_finite (Nsel : list fl) :
  Forall nonneg Nsel ->
  forallb isfinite (map (fun d => fdiv fone d) Nsel)
  = negb (existsb is_zero Nsel).
Proof.
  induction 1 as [|s Nsel (q & -> & Hq) _ IH]; [reflexivity|].
  cbn [map forallb existsb is_zero]. rewrite IH, negb_orb. f_equal.
  unfold fone. destruct (Qeq_bool q 0) eqn:E.
  - now rewrite fdiv_by_zero.
  - now rewrite fdiv_by_positive.
Qed.

Lemma inverses_sum (Nsel : list fl) (a : Q) :
  Forall nonneg Nsel -> existsb is_zero Nsel = false -> (0 <= a)%Q ->
  exists d, fold_left fadd (map (fun d => fdiv fone d) Nsel) (Fin a) = Fin d /\
            (a <= d)%Q /\ (Nsel <> [] -> (0 < d)%Q).
Proof.
  intros HN. revert a. induction HN as [|s Nsel (q & -> & Hq) _ IH];
    intros a Hz Ha.
  - exists a. cbn. repeat split; [lra|congruence].
  - cbn [existsb is_zero] in Hz. apply orb_false_iff in Hz.
    destruct Hz as [Hq0 Hz]. cbn [map fold_left].
    change (fdiv fone (Fin q)) with (fdiv (Fin 1) (Fin q)).
    rewrite fdiv_by_positive by exact Hq0. cbn [fadd].
    assert (Hpos : (0 < q)%Q).
    { apply Qle_lteq in Hq. destruct Hq as [Hq | Hq]; [exact Hq|].
      symmetry in Hq. apply Qeq_bool_iff in Hq. congruence. }
    assert (Hinv : (0 < 1 / q)%Q).
    { apply Qlt_shift_div_l; [exact Hpos|]. lra. }
    destruct (IH (a + 1 / q)%Q Hz ltac:(lra)) as (d & Hd & Hle & _).
    exists d. repeat split; [exact Hd|lra|intros _; lra].
Qed.

Lemma weiszfeld_entry (row Nsel : list fl) :
  length row = length Nsel ->
  forallb isfinite row = true -> Forall nonneg Nsel ->
  let y := fdiv (fsum (map2 fdiv row Nsel))
                (fsum (map (fun d => fdiv fone d) Nsel)) in
  isfinite y = true \/ y = NaN.
Proof.
  intros Hlen Hrow HN y. subst y.
  destruct (existsb is_zero Nsel) eqn:Hz.
  - right. apply fdiv_not_finite.
    + now rewrite isfinite_fsum, quotients_finite, Hz.
    + now rewrite isfinite_fsum, inverses_finite, Hz.
  - assert (HR : isfinite (fsum (map2 fdiv row Nsel)) = true)
      by now rewrite isfinite_fsum, quotients_finite, Hz.
    destruct (fsum (map2 fdiv row Nsel)) as [r| | |] eqn:ER;
      try discriminate HR.
    destruct (inverses_sum Nsel 0 HN Hz ltac:(lra)) as (d & Hd & _ & Hpos).
    unfold fsum at 1. unfold fzero. rewrite Hd.
    destruct Nsel as [|s Nsel].
    + destruct row; [|discriminate Hlen]. cbn in ER, Hd.
      injection ER as <-. injection Hd as <-. now right.
    + left. rewrite fdiv_by_positive; [reflexivity|].
      apply not_true_is_false. intros E. apply Qeq_bool_iff in E.
      specialize (Hpos ltac:(discriminate)). lra.
Qed.

End Norms.

Lemma mapM_ok {A B : Type} (f : A -> res B) (g : A -> B) (l : list A) :
  (forall a, In a l -> f a = Ok (g a)) -> mapM f l = Ok (map g l).
Proof.
  induction l as [|a l IH]; intros Hf; [reflexivity|].
  cbn [mapM map]. rewrite Hf by now left. cbn [bind].
  rewrite IH by (intros b Hb; apply Hf; now right). reflexivity.
Qed.

Lemma get_first {A : Type} (l : list A) :
  l <> [] -> exists a, get l 0 = Ok a /\ In a l.
Proof.
  destruct l as [|a l]; [congruence|]. intros _. exists a.
  split; [reflexivity|now left].
Qed.

Lemma finite_not_nan (v : list fl) :
  forallb isfinite v = true -> any_nan v = false.
Proof.
  unfold any_nan. induction v as [|x v IH]; [reflexivity|].
  cbn [forallb existsb]. intros Hv. apply andb_true_iff in Hv.
  destruct Hv as [Hx Hv]. rewrite (IH Hv). now destruct x.
Qed.

Lemma finite_or_nan (v : list fl) :
  Forall (fun y => isfinite y = true \/ y = NaN) v ->
  any_nan v = false -> forallb isfinite v = true.
Proof.
  unfold any_nan. induction 1 as [|y v Hy _ IH]; [reflexivity|].
  cbn [forallb existsb]. intros Hn. apply orb_false_iff in Hn.
  destruct Hn as [Hy' Hn]. rewrite (IH Hn), andb_true_r.
  destruct Hy as [Hy | ->]; [exact Hy|discriminate Hy'].
Qed.

Lemma euc_dist_vec (n : nat) (M : matrix) (y0 : list fl) :
  Forall (vec n) M -> vec (length M) y0 ->
  Forall (vec n) (map (map square) (euc_dist M y0)).
Proof.
  unfold euc_dist. intros HM. revert y0.
  induction HM as [|row M Hrow _ IH]; intros y0 [Hlen Hfin]; [constructor|].
  destruct y0 as [|y y0]; [discriminate Hlen|].
  cbn [forallb] in Hfin. apply andb_true_iff in Hfin.
  destruct Hfin as [Hy Hfin]. cbn [map2 map]. constructor.
  - apply vec_map; [apply isfinite_square|].
    apply vec_map; [|exact Hrow].
    intros x Hx. now rewrite isfinite_fsub, Hx, Hy.
  - apply IH. split; [cbn in Hlen; lia|exact Hfin].
Qed.

Section Weiszfeld.
Context `{Sqrt}.

Variable n : nat.
Variable X : matrix.
Hypothesis HX : Forall (vec n) X.

Lemma euc_norm_entries (y0 : list fl) :
  vec (length X) y0 ->
  length (euc_norm n X y0) = n /\
  forall i, (i < n)%nat ->
    nth i (euc_norm n X y0) NaN = NaN \/ nonneg (nth i (euc_norm n X y0) NaN).
Proof.
  intros Hy0. unfold euc_norm.
  pose proof (vec_sum_axis0 n _ (euc_dist_vec n X y0 HX Hy0)) as HS.
  set (S := sum_axis0 n (map (map square) (euc_dist X y0))) in *.
  split; [rewrite length_map; apply HS|].
  intros i Hi. change NaN with (fsqrt NaN) at 1 3.
  rewrite map_nth. apply fsqrt_finite, (vec_nth n); trivial.
Qed.

Lemma weiszfeld_result (y0 : list fl) :
  vec (length X) y0 ->
  exists y1,
    weiszfeld n X y0 = Ok y1 /\ length y1 = length X /\
    Forall (fun y => isfinite y = true \/ y = NaN) y1.
Proof.
  intros Hy0. unfold weiszfeld.
  destruct (euc_norm_entries y0 Hy0) as [Hlen Hent].
  set (EucNorm := euc_norm n X y0) in *.
  set (NotNaN := np_where (map (fun x => negb (isnan x)) EucNorm)).
  assert (Hidx : forall i, In i NotNaN ->
                   (i < n)%nat /\ isnan (nth i EucNorm NaN) = false).
  { intros i Hi. unfold NotNaN in Hi. apply np_where_In in Hi.
    rewrite length_map, Hlen in Hi. destruct Hi as [Hi Hn]. split; trivial.
    rewrite (nth_indep _ false (negb (isnan NaN))) in Hn
      by (rewrite length_map; lia).
    rewrite (map_nth (fun x => negb (isnan x))) in Hn.
    now apply negb_true_iff in Hn. }
  rewrite (mapM_ok _ (fun row => map (fun i => nth i row NaN) NotNaN)).
  2:{ intros row Hrow. apply take_nth.
      rewrite Forall_forall in HX. destruct (HX row Hrow) as [Hl _].
      apply Forall_forall. intros i Hi. rewrite Hl. now apply Hidx. }
  cbn [bind]. rewrite (take_nth EucNorm NotNaN NaN).
  2:{ apply Forall_forall. intros i Hi. rewrite Hlen. now apply Hidx. }
  cbn [bind]. eexists. split; [reflexivity|].
  split; [now rewrite !length_map|].
  apply Forall_forall. intros y Hy. rewrite map_map in Hy.
  apply in_map_iff in Hy. destruct Hy as (row & <- & Hrow).
  rewrite Forall_forall in HX. destruct (HX row Hrow) as [Hl Hfin].
  apply weiszfeld_entry.
  - now rewrite !length_map.
  - apply forallb_forall. intros x Hx. apply in_map_iff in Hx.
    destruct Hx as (i & <- & Hi). apply (vec_nth n); [now split|].
    now apply Hidx.
  - apply Forall_forall. intros x Hx. apply in_map_iff in Hx.
    destruct Hx as (i & <- & Hi). destruct (Hidx i Hi) as [Hlt Hn].
    destruct (Hent i Hlt) as [E | E]; [|exact E].
    rewrite E in Hn. discriminate Hn.
Qed.

Variable tol : fl.
Variable MaxInter : Z.
Hypothesis Htol : flt tol fzero = false.

Lemma frozen_norm : fgt (eps_norm (EpsScalar fzero)) tol = false.
Proof.
  unfold eps_norm, square, fzero, fgt. cbn [fmul fsqrt].
  replace (Qlt_bool (0 * 0)%Q 0%Q) with false by reflexivity.
  pose proof (@sqrtQ_zero _ (0 * 0)%Q ltac:(reflexivity)) as Hs.
  destruct tol as [t| | |]; try reflexivity; try discriminate Htol.
  cbn [flt] in *. unfold Qlt_bool in *.
  apply negb_false_iff in Htol. apply Qle_bool_iff in Htol.
  apply negb_false_iff, Qle_bool_iff. rewrite Hs. exact Htol.
Qed.

Lemma gm_loop_frozen (fuel : nat) (y0 : list fl) (l : Z) :
  gm_loop (S fuel) n X tol MaxInter y0 (EpsScalar fzero) l = Ok y0.
Proof. cbn [gm_loop]. now rewrite frozen_norm. Qed.

Lemma gm_loop_terminates (k : nat) :
  forall (fuel : nat) (y0 : list fl) (eps : epsilon) (l : Z),
    (Z.to_nat (MaxInter - l) <= k)%nat -> (k + 2 <= fuel)%nat ->
    vec (length X) y0 ->
    exists y, gm_loop fuel n X tol MaxInter y0 eps l = Ok y /\
              vec (length X) y.
Proof.
  induction k as [|k IH]; intros fuel y0 eps l Hk Hfuel Hy0;
    (destruct fuel as [|fuel]; [lia|]); cbn [gm_loop];
    destruct (fgt (eps_norm eps) tol && (l <? MaxInter)) eqn:Hc;
    try (exists y0; split; [reflexivity|exact Hy0]);
    apply andb_true_iff in Hc; destruct Hc as [_ Hlt];
    apply Z.ltb_lt in Hlt; [lia|].
  destruct (weiszfeld_result y0 Hy0) as (y1 & -> & Hlen & Hy1).
  cbn [bind]. destruct (any_nan y1) eqn:Hn.
  - destruct fuel as [|fuel]; [lia|]. rewrite gm_loop_frozen.
    exists y0. split; [reflexivity|exact Hy0].
  - apply IH; [lia|lia|]. split; [exact Hlen|now apply finite_or_nan].
Qed.

Lemma nanmean_finite (row : list fl) :
  (0 < n)%nat -> vec n row -> isfinite (nanmean row) = true.
Proof.
  intros Hn [Hlen Hfin]. unfold nanmean.
  replace (filter (fun x => negb (isnan x)) row) with row.
  2:{ symmetry. apply forallb_filter_id. rewrite forallb_forall in *.
      intros x Hx. specialize (Hfin x Hx). now destruct x. }
  pose proof (isfinite_fsum row) as Hs. rewrite Hfin in Hs.
  destruct (fsum row) as [s| | |]; try discriminate Hs.
  unfold of_Z. rewrite fdiv_by_positive; [reflexivity|].
  apply not_true_is_false. intros E. apply Qeq_bool_iff in E.
  unfold Qeq, inject_Z in E. cbn in E. lia.
Qed.

Lemma geometric_median_finite (fuel : nat) :
  X <> [] -> (0 < n)%nat -> (Z.to_nat MaxInter + 2 <= fuel)%nat ->
  exists y, geometric_median fuel X tol MaxInter = Ok y /\ vec (length X) y.
Proof.
  intros Hne Hn Hfuel. unfold geometric_median.
  destruct (get_first X Hne) as (row0 & -> & Hrow0). cbn [bind].
  replace (length row0) with n
    by (rewrite Forall_forall in HX; symmetry; apply (HX row0 Hrow0)).
  assert (Hy0 : vec (length X) (map nanmean X)).
  { split; [apply length_map|]. apply forallb_forall. intros y Hy.
    apply in_map_iff in Hy. destruct Hy as (row & <- & Hrow).
    rewrite Forall_forall in HX. now apply nanmean_finite, HX. }
  rewrite finite_not_nan by apply Hy0.
  apply (gm_loop_terminates (Z.to_nat MaxInter)); trivial. lia.
Qed.

End Weiszfeld.

Lemma valid_ind_In (Xi : pixel) (ind : list nat) (t : nat) :
  valid_ind Xi = Ok ind ->
  (In t ind <-> exists v, nth_error (nth 1 Xi []) t = Some v /\ 0 < v).
Proof.
  unfold valid_ind, get. destruct (nth_error Xi 1) as [band1|] eqn:E;
    [|discriminate].
  cbn [bind]. intros [= <-]. rewrite (nth_error_nth _ _ [] E).
  rewrite np_where_In, length_map. split.
  - intros [Ht Hv].
    rewrite (nth_indep _ false (0 <? 0)) in Hv by now rewrite length_map.
    rewrite (map_nth (fun v => 0 <? v)) in Hv. apply Z.ltb_lt in Hv.
    exists (nth t band1 0). split; [now apply nth_error_nth'|exact Hv].
  - intros (v & Hv & Hpos).
    assert (Ht : (t < length band1)%nat) by (apply nth_error_Some; congruence).
    split; [exact Ht|].
    rewrite (nth_indep _ false (0 <? 0)) by now rewrite length_map.
    rewrite (map_nth (fun v => 0 <? v)), (nth_error_nth _ _ 0 Hv).
    now apply Z.ltb_lt.
Qed.

Lemma select_steps_rect (T : nat) (Xi : pixel) (ind : list nat) :
  rectangular T Xi -> Forall (fun t => (t < T)%nat) ind ->
  select_steps Xi ind = Ok (map (fun row => map (fun t => nth t row 0) ind) Xi).
Proof.
  intros Hrect Hind. unfold select_steps. apply mapM_ok.
  intros row Hrow. apply take_nth.
  unfold rectangular in Hrect. rewrite Forall_forall in Hrect.
  now rewrite (Hrect row Hrow).
Qed.



(** With a negative tolerance the loop of [geometric_median] does not end
    on a pixel with a single valid time step: the estimate is frozen, [eps]
    is 0 and the iteration counter no longer moves. *)
Lemma gm_loop_negative_tolerance (fuel : nat) :
  gm_loop fuel 1 [[Fin 1]; [Fin 5]; [Fin 2]] (Fin (- 1 # 2)) 40
    [Fin 1; Fin 5; Fin 2] (EpsScalar fzero) 0
  = Err OutOfFuel.
Proof.
  induction fuel as [|fuel IH]; [reflexivity|].
  cbn [gm_loop].
  replace (fgt (eps_norm (EpsScalar fzero)) (Fin (- 1 # 2)) && (0 <? 40))
    with true by (vm_compute; reflexivity).
  replace (weiszfeld 1 [[Fin 1]; [Fin 5]; [Fin 2]] [Fin 1; Fin 5; Fin 2])
    with (Ok [NaN; NaN; NaN]) by (vm_compute; reflexivity).
  cbn [bind any_nan existsb isnan orb]. exact IH.
Qed.

Lemma geometric_median_negative_tolerance (fuel : nat) :
  geometric_median fuel [[Fin 1]; [Fin 5]; [Fin 2]] (Fin (- 1 # 2)) 40
  = Err OutOfFuel.
Proof.
  destruct fuel as [|fuel]; [reflexivity|].
  unfold geometric_median. cbn [get nth_error bind length].
  replace (map nanmean [[Fin 1]; [Fin 5]; [Fin 2]])
    with [Fin 1; Fin 5; Fin 2] by (vm_compute; reflexivity).
  cbn [any_nan existsb isnan orb gm_loop].
  replace (fgt (eps_norm (EpsScalar (of_Z (10 ^ 2)))) (Fin (- 1 # 2))
           && (0 <? 40))
    with true by (vm_compute; reflexivity).
  replace (weiszfeld 1 [[Fin 1]; [Fin 5]; [Fin 2]] [Fin 1; Fin 5; Fin 2])
    with (Ok [NaN; NaN; NaN]) by (vm_compute; reflexivity).
  cbn [bind any_nan existsb isnan orb]. apply gm_loop_negative_tolerance.
Qed.

(** ** Validity of a time step *)

Lemma scatter_other {A : Type} (out r : list A) (idx : list nat)
  (vals : list A) (t : nat) :
  scatter out idx vals = Ok r -> ~ In t idx ->
  nth_error r t = nth_error out t.
Proof.
  unfold scatter. destruct (Nat.eqb (length idx) (length vals));
    [|discriminate].
  intros Hr Ht. apply (scatter_zip_other _ _ _ _ Hr).
  intros Hin. apply Ht. apply in_map_iff in Hin.
  destruct Hin as ((i & v) & <- & Hin). now apply in_combine_l in Hin.
Qed.

Lemma take_agree {A : Type} (l l' : list A) (ind : list nat) :
  (forall t, In t ind -> nth_error l t = nth_error l' t) ->
  take l ind = take l' ind.
Proof.
  unfold take, get. induction ind as [|t ind IH]; intros H; [reflexivity|].
  cbn [mapM]. rewrite (H t) by now left.
  rewrite IH by (intros u Hu; apply H; now right). reflexivity.
Qed.

Lemma select_steps_agree (ind : list nat) (Xi Xi' : pixel) :
  Forall2 (fun row row' : list Z =>
             forall t, In t ind -> nth_error row t = nth_error row' t)
          Xi Xi' ->
  select_steps Xi ind = select_steps Xi' ind.
Proof.
  unfold select_steps. induction 1 as [|row row' Xi Xi' Hrow _ IH];
    [reflexivity|].
  cbn [mapM]. now rewrite (take_agree row row' ind Hrow), IH.
Qed.

Lemma get_agree (ind : list nat) (Xi Xi' : pixel) (b : nat) :
  Forall2 (fun row row' : list Z =>
             forall t, In t ind -> nth_error row t = nth_error row' t)
          Xi Xi' ->
  match get Xi b, get Xi' b with
  | Ok row, Ok row' =>
      forall t, In t ind -> nth_error row t = nth_error row' t
  | Err e, Err e' => e = e'
  | _, _ => False
  end.
Proof.
  unfold get. intros HF. revert b.
  induction HF as [|row row' Xi Xi' Hrow _ IH]; intros b.
  - now destruct b.
  - destruct b as [|b]; [exact Hrow|apply IH].
Qed.

Lemma stored_nbr_nan (nir swir2 : Z) :
  isnan (stored_nbr nir swir2) = (nir <=? 0) || (swir2 <=? 0).
Proof.
  unfold stored_nbr, nan_if_nonpos.
  destruct (nir <=? 0) eqn:Hn; [reflexivity|].
  destruct (swir2 <=? 0) eqn:Hs; [reflexivity|].
  apply Z.leb_gt in Hn, Hs. unfold of_Z. cbn [fsub fneg fadd fdiv orb].
  replace (Qeq_bool (inject_Z nir + inject_Z swir2) 0) with false;
    [reflexivity|].
  symmetry. apply not_true_is_false. intros E. apply Qeq_bool_iff in E.
  unfold Qeq, Qplus, inject_Z in E. cbn in E. lia.
Qed.

(** Claim C4, as the code has it.  A time step is valid exactly when its
    value in band 1 (green) is positive.  At every other time step
    [dist_distance] leaves the cosine distance, the NBR distance and the
    direction as they were filled, and neither the geometric median nor the
    distances depend on the values a pixel has, in any band, at such a time
    step.  The NBR stored by [distances] is NaN exactly where the
    near-infrared or the short-wave infrared value is not positive. *)
Theorem green_band_decides_validity
  (geometric_median : pixel -> res (list fl))
  (cos_distance : list fl -> pixel -> res (list fl))
  (nbr_eucdistance : fl -> list fl -> res (list fl * list fl))
  (Xi : pixel) (gmed_i : list fl) (out : distances_i) (ind : list nat) :
  valid_ind Xi = Ok ind ->
  (forall t, In t ind <->
             exists v, nth_error (nth 1 Xi []) t = Some v /\ 0 < v)
  /\
  (forall r t,
     dist_distance cos_distance nbr_eucdistance Xi gmed_i out = Ok r ->
     ~ In t ind ->
     nth_error (cos_dist r) t = nth_error (cos_dist out) t /\
     nth_error (nbr_dist r) t = nth_error (nbr_dist out) t /\
     nth_error (direction r) t = nth_error (direction out) t)
  /\
  (forall Xi',
     same_on ind Xi Xi' ->
     dist_geomedian geometric_median Xi gmed_i
     = dist_geomedian geometric_median Xi' gmed_i /\
     dist_distance cos_distance nbr_eucdistance Xi gmed_i out
     = dist_distance cos_distance nbr_eucdistance Xi' gmed_i out)
  /\
  (forall nir swir2,
     isnan (stored_nbr nir swir2) = (nir <=? 0) || (swir2 <=? 0)).
Proof.
  intros Hind. split; [intros t; now apply valid_ind_In|].
  split; [|split; [|exact stored_nbr_nan]].
  - intros r t Hr Ht. unfold dist_distance in Hr. rewrite Hind in Hr.
    cbn [bind] in Hr.
    destruct (0 <? length ind)%nat; [|now injection Hr as <-].
    repeat match type of Hr with
           | bind ?m _ = Ok _ =>
               let E := fresh "E" in
               destruct m eqn:E; cbn [bind] in Hr; [|discriminate Hr]
           end.
    injection Hr as <-. cbn [cos_dist nbr_dist direction].
    repeat split; eapply scatter_other; eauto.
  - intros Xi' [Hind' Hrows].
    pose proof (select_steps_agree ind Xi Xi' Hrows) as Hsel.
    split.
    + unfold dist_geomedian. rewrite Hind, Hind'. cbn [bind].
      now rewrite Hsel.
    + unfold dist_distance. rewrite Hind, Hind'. cbn [bind]. rewrite Hsel.
      destruct (0 <? length ind)%nat; [|reflexivity].
      destruct (select_steps Xi' ind) as [sub|e]; [|reflexivity].
      cbn [bind]. destruct (cos_distance gmed_i sub) as [cd|e];
        [|reflexivity].
      cbn [bind]. destruct (scatter (cos_dist out) ind cd) as [cos'|e];
        [|reflexivity].
      cbn [bind]. destruct (get gmed_i 3) as [g3|e]; [|reflexivity].
      cbn [bind]. destruct (get gmed_i 5) as [g5|e]; [|reflexivity].
      cbn [bind].
      pose proof (get_agree ind Xi Xi' 3 Hrows) as H3.
      pose proof (get_agree ind Xi Xi' 5 Hrows) as H5.
      destruct (get Xi 3) as [x3|e3], (get Xi' 3) as [x3'|e3'];
        try contradiction; [|now subst].
      cbn [bind].
      destruct (get Xi 5) as [x5|e5], (get Xi' 5) as [x5'|e5'];
        try contradiction; [|now subst].
      cbn [bind].
      rewrite (take_agree (map2 nbr_int16 x3 x5) (map2 nbr_int16 x3' x5') ind);
        [reflexivity|].
      intros t Ht. rewrite !nth_error_map2.
      now rewrite (H3 t Ht), (H5 t Ht).
Qed.

Lemma green_band_decides_validity_witness :
  exists r,
    dist_distance (fun ref obs => cosdistance ref (map (map of_Z) obs))
      nbr_eucdistance gm_pixel cx_gmed (distances_fill 3) = Ok r /\
    nth_error (cos_dist r) 1 = Some NaN /\
    nth_error (nbr_dist r) 1 = Some NaN /\
    nth_error (direction r) 1 = Some 0.
Proof.
  destruct (green_band_decides_validity
              (fun sub => geometric_median 5 (map (map of_Z) sub)
                            (Fin (1 # 2)) 3)
              (fun ref obs => cosdistance ref (map (map of_Z) obs))
              nbr_eucdistance gm_pixel cx_gmed (distances_fill 3)
              [0; 2]%nat eq_refl) as (_ & Hfill & _ & _).
  assert (Hr : exists r,
             dist_distance (fun ref obs => cosdistance ref (map (map of_Z) obs))
               nbr_eucdistance gm_pixel cx_gmed (distances_fill 3) = Ok r)
    by (eexists; vm_compute; reflexivity).
  destruct Hr as (r & Hr). exists r. split; [exact Hr|].
  destruct (Hfill r 1%nat Hr) as (Hc & Hn & Hd).
  - intros [E | [E | []]]; discriminate E.
  - rewrite Hc, Hn, Hd. repeat split.
Defined.

Lemma nonpositive_band_still_used :
  nth 0 (nth 3 cx_pixel []) 0 <= 0 /\
  stored_nbr (nth 0 (nth 3 cx_pixel []) 0) (nth 0 (nth 5 cx_pixel []) 0)
  = NaN /\
  valid_ind cx_pixel = Ok [0; 1]%nat /\
  select_steps cx_pixel [0; 1]%nat = Ok cx_pixel /\
  exists r c d,
    dist_distance (fun ref obs => cosdistance ref (map (map of_Z) obs))
      nbr_eucdistance cx_pixel cx_gmed (distances_fill 2) = Ok r /\
    nth_error (cos_dist r) 0 = Some c /\ isfinite c = true /\
    nth_error (nbr_dist r) 0 = Some d /\ isfinite d = true.
Proof.
  split; [cbn; lia|]. split; [reflexivity|]. split; [reflexivity|].
  split; [reflexivity|].
  eexists. eexists. eexists.
  split; [vm_compute; reflexivity|]. repeat split.
Qed.

(** ** Assignment under a mask *)

Lemma masked_assign {A : Type} (d : A) (m : list bool) (g : nat -> A) :
  scatter (repeat d (length m)) (np_where m) (map g (np_where m))
  = Ok (map (fun i => if nth i m false then g i else d) (seq 0 (length m))).
Proof.
  destruct (scatter_map (repeat d (length m)) (np_where m) g)
    as (r & -> & Hl & Hr).
  { apply Forall_forall. intros i Hi. apply np_where_In in Hi.
    rewrite repeat_length. tauto. }
  { apply np_where_NoDup. }
  f_equal. rewrite repeat_length in Hl. apply nth_error_ext. intros i.
  rewrite Hr, nth_error_map.
  destruct (Nat.lt_ge_cases i (length m)) as [Hi | Hi].
  - rewrite nth_error_repeat by exact Hi.
    rewrite (nth_error_nth' (seq 0 (length m)) 0%nat)
      by now rewrite length_seq.
    rewrite seq_nth by exact Hi. cbn [option_map Nat.add].
    destruct (nth i m false) eqn:E.
    + assert (existsb (Nat.eqb i) (np_where m) = true) as ->; [|reflexivity].
      apply existsb_eqb_In, np_where_In. tauto.
    + destruct (existsb (Nat.eqb i) (np_where m)) eqn:E'; [|reflexivity].
      apply existsb_eqb_In, np_where_In in E'. destruct E' as [_ E'].
      congruence.
  - assert (existsb (Nat.eqb i) (np_where m) = false) as ->.
    { apply not_true_is_false. intros E. apply existsb_eqb_In in E.
      apply np_where_In in E. lia. }
    rewrite (proj2 (nth_error_None (repeat d (length m)) i))
      by now rewrite repeat_length.
    rewrite (proj2 (nth_error_None (seq 0 (length m)) i))
      by now rewrite length_seq.
    reflexivity.
Qed.

Lemma np_where_tabulate (F : nat -> bool) (n : nat) :
  np_where (map F (seq 0 n)) = filter F (seq 0 n).
Proof.
  unfold np_where. rewrite length_map, length_seq.
  apply filter_ext_in. intros i Hi. apply in_seq in Hi.
  rewrite (nth_indep _ false (F 0%nat))
    by (rewrite length_map, length_seq; lia).
  rewrite (map_nth F), seq_nth by lia. reflexivity.
Qed.

Lemma filter_filter {A : Type} (f g : A -> bool) (l : list A) :
  filter f (filter g l) = filter (fun x => g x && f x) l.
Proof.
  induction l as [|a l IH]; [reflexivity|]. cbn [filter].
  destruct (g a); cbn [filter andb]; rewrite IH; reflexivity.
Qed.

Lemma filter_np_where (h : nat -> bool) (m : list bool) :
  filter h (np_where m)
  = np_where (map (fun i => nth i m false && h i) (seq 0 (length m))).
Proof.
  rewrite np_where_tabulate. unfold np_where. apply filter_filter.
Qed.

Lemma map_positions {A B : Type} (F : A -> B) (l : list A) (d : A) :
  map (fun i => F (nth i l d)) (seq 0 (length l)) = map F l.
Proof.
  transitivity (map F (map (fun i => nth i l d) (seq 0 (length l)))).
  - now rewrite map_map.
  - now rewrite map_nth_seq.
Qed.

Lemma nth_mask {A : Type} (p : A -> bool) (l : list A) (d : A) (i : nat) :
  (i < length l)%nat -> nth i (map p l) false = p (nth i l d).
Proof.
  intros Hi. rewrite (nth_indep _ false (p d)) by now rewrite length_map.
  apply map_nth.
Qed.

Lemma nth_tabulate (F : nat -> bool) (n i : nat) :
  (i < n)%nat -> nth i (map F (seq 0 n)) false = F i.
Proof.
  intros Hi.
  rewrite (nth_indep _ false (F 0%nat))
    by (rewrite length_map, length_seq; lia).
  rewrite (map_nth F), seq_nth by lia. reflexivity.
Qed.

Lemma nbr_eucdistance_closed `{Sqrt} (ref : fl) (obs : list fl) :
  nbr_eucdistance ref obs
  = Ok (map (fun x => if isnan x then NaN else fsqrt (square (fsub x ref))) obs,
        map (fun x => if flt x ref then fone else fzero) obs).
Proof.
  unfold nbr_eucdistance.
  set (m := map (fun x => negb (isnan x)) obs).
  assert (Hm : length m = length obs) by (unfold m; now rewrite length_map).
  assert (Hidx : Forall (fun i => (i < length obs)%nat) (np_where m))
    by apply np_where_map_lt.
  rewrite (take_nth obs (np_where m) NaN Hidx). cbn [bind].
  rewrite !map_map.
  set (g := fun i => fsqrt (square (fsub (nth i obs NaN) ref))).
  rewrite <- Hm, (masked_assign NaN m g). cbn [bind].
  set (h := fun i => flt (fsub (nth i obs NaN) ref) fzero).
  rewrite (bool_select_map h (np_where m)), filter_np_where.
  set (m' := map (fun i => nth i m false && h i) (seq 0 (length m))).
  assert (Hm' : length m' = length m)
    by (unfold m'; now rewrite length_map, length_seq).
  rewrite (repeat_as_map fone (np_where m')).
  rewrite <- Hm', (masked_assign fzero m' (fun _ => fone)). cbn [bind].
  rewrite Hm', Hm. f_equal. f_equal.
  - rewrite <- (map_positions
                  (fun x => if isnan x then NaN
                            else fsqrt (square (fsub x ref))) obs NaN).
    apply map_ext_in. intros i Hi. apply in_seq in Hi.
    unfold m. rewrite (nth_mask _ obs NaN) by lia.
    now destruct (isnan (nth i obs NaN)).
  - rewrite <- (map_positions
                  (fun x => if flt x ref then fone else fzero) obs NaN).
    apply map_ext_in. intros i Hi. apply in_seq in Hi.
    unfold m'. rewrite nth_tabulate by lia.
    unfold m, h. rewrite (nth_mask _ obs NaN), flt_sub_zero by lia.
    now destruct (nth i obs NaN).
Qed.

Lemma nth_map2_lt {A B C : Type} (f : A -> B -> C) (l : list A) (m : list B)
  (da : A) (db : B) (dc : C) (t : nat) :
  (t < length l)%nat -> (t < length m)%nat ->
  nth t (map2 f l m) dc = f (nth t l da) (nth t m db).
Proof.
  intros Hl Hm. apply nth_error_nth. rewrite nth_error_map2.
  now rewrite (nth_error_nth' l da Hl), (nth_error_nth' m db Hm).
Qed.

Lemma nth_error_tabulate {A : Type} (F : nat -> A) (n t : nat) :
  (t < n)%nat -> nth_error (map F (seq 0 n)) t = Some (F t).
Proof.
  intros Ht. rewrite nth_error_map.
  rewrite (nth_error_nth' (seq 0 n) 0%nat) by now rewrite length_seq.
  now rewrite seq_nth.
Qed.

(** ** The direction of change *)

Lemma scatter_ok {A : Type} (out : list A) (idx : list nat) (vals : list A) :
  Forall (fun i => (i < length out)%nat) idx -> length vals = length idx ->
  exists r, scatter out idx vals = Ok r /\ length r = length out.
Proof.
  intros Hidx Hlen. unfold scatter. rewrite Hlen, Nat.eqb_refl.
  apply scatter_zip_ok. apply Forall_forall. intros (i & v) Hp.
  apply in_combine_l in Hp. rewrite Forall_forall in Hidx. now apply Hidx.
Qed.




(* ================================================================== *)
(** * Further properties *)

Import Toolbox2 Stages Loading Validation Mapping Ranges Examples2.

(** ** Comparisons of rationals and signs of floats *)

Lemma Qlt_bool_true (a b : Q) : Qlt_bool a b = true <-> (a < b)%Q.
Proof.
  unfold Qlt_bool. rewrite negb_true_iff. split.
  - intros Hb. apply Qnot_le_lt. intros Hle.
    apply Qle_bool_iff in Hle. congruence.
  - intros Hlt. apply not_true_is_false. intros Hle.
    apply Qle_bool_iff in Hle. exact (Qlt_not_le _ _ Hlt Hle).
Qed.

Lemma Qlt_bool_false (a b : Q) : Qlt_bool a b = false <-> (b <= a)%Q.
Proof.
  unfold Qlt_bool. rewrite negb_false_iff. apply Qle_bool_iff.
Qed.

Lemma Qsign_pos (q : Q) : (0 < q)%Q -> Qsign q = 1.
Proof.
  unfold Qlt, Qsign. cbn [Qnum Qden]. intros Hq. apply Z.sgn_pos. lia.
Qed.

Lemma positive_not_negative (x : fl) :
  flt fzero x = true -> flt x fzero = false /\ isnan x = false.
Proof.
  destruct x as [q| | |]; cbn [flt fzero isnan]; try discriminate; auto.
  intros Hq. apply Qlt_bool_true in Hq. split; [|reflexivity].
  apply Qlt_bool_false. now apply Qlt_le_weak.
Qed.

Lemma fadd_positive (a x : fl) :
  flt a fzero = false -> isnan a = false -> flt fzero x = true ->
  flt fzero (fadd a x) = true.
Proof.
  destruct a as [p| | |], x as [q| | |]; cbn [flt fzero isnan fadd];
    try discriminate; auto.
  intros Hp _ Hq. apply Qlt_bool_false in Hp. apply Qlt_bool_true in Hq.
  apply Qlt_bool_true. lra.
Qed.

Lemma fold_positive {A : Type} (f : A -> fl) (ps : list A) :
  (forall p, In p ps -> flt fzero (f p) = true) -> ps <> [] ->
  forall a, flt a fzero = false -> isnan a = false ->
    flt fzero (fold_left (fun a p => fadd a (f p)) ps a) = true.
Proof.
  induction ps as [|p ps IH]; intros Hall Hne a Ha Hn; [congruence|].
  cbn [fold_left].
  assert (Hp : flt fzero (fadd a (f p)) = true).
  { apply fadd_positive; trivial. apply Hall. now left. }
  destruct ps as [|p' ps']; [exact Hp|].
  destruct (positive_not_negative _ Hp) as [H1 H2].
  apply IH; trivial; [|discriminate].
  intros p0 Hp0. apply Hall. now right.
Qed.

(** ** The severity index, the duration and the start date *)

Lemma fmul_positive (x y : fl) :
  flt fzero x = true -> flt fzero y = true -> flt fzero (fmul x y) = true.
Proof.
  destruct x as [p| | |], y as [q| | |]; cbn [flt fzero];
    try discriminate; intros Hp Hq; try reflexivity.
  - apply Qlt_bool_true in Hp, Hq. cbn [fmul flt]. apply Qlt_bool_true.
    now apply Qmult_lt_0_compat.
  - apply Qlt_bool_true in Hp. cbn [fmul fsign].
    now rewrite (Qsign_pos p Hp).
  - apply Qlt_bool_true in Hq. cbn [fmul fsign].
    now rewrite (Qsign_pos q Hq).
Qed.

Lemma twice (x : fl) :
  fmul (of_Z 2) x
  = match x with
    | Fin t => Fin (2 * t)
    | PInf => PInf
    | NInf => NInf
    | NaN => NaN
    end.
Proof. destruct x; reflexivity. Qed.

Lemma trapezoid_positive (c0 c1 thr : fl) (d : Q) :
  fgt c0 thr = true -> fgt c1 thr = true -> (0 < d)%Q ->
  flt fzero (trapezoid c0 c1 thr (Fin d)) = true.
Proof.
  intros H0 H1 Hd. unfold trapezoid.
  apply fmul_positive; [|now apply Qlt_bool_true].
  apply fmul_positive; [reflexivity|].
  rewrite twice. unfold fgt in *.
  destruct thr as [t| | |], c0 as [a| | |], c1 as [b| | |];
    cbn [flt] in H0, H1; try discriminate; try reflexivity.
  apply Qlt_bool_true in H0, H1.
  cbn [fadd fsub fneg flt fzero]. apply Qlt_bool_true. lra.
Qed.

Lemma linked_pairs_sorted (l : list obs) :
  StronglySorted Z.lt (map o_time l) ->
  Forall (fun p => In (fst p) l /\ In (snd p) l /\
                   o_out (fst p) = true /\ o_out (snd p) = true /\
                   o_time (fst p) < o_time (snd p))
         (linked_pairs l).
Proof.
  induction l as [|a l IH]; intros Hs; [constructor|].
  destruct l as [|b l]; [constructor|].
  cbn [map] in Hs. inversion Hs as [|? ? Hs' Ha]; subst.
  specialize (IH Hs').
  assert (IH' : Forall (fun p => In (fst p) (a :: b :: l) /\
                   In (snd p) (a :: b :: l) /\
                   o_out (fst p) = true /\ o_out (snd p) = true /\
                   o_time (fst p) < o_time (snd p))
                 (linked_pairs (b :: l))).
  { eapply Forall_impl; [|exact IH]. cbn beta. intros p (H1 & H2 & H3).
    repeat split; try tauto; now right. }
  rewrite linked_pairs_cons2.
  destruct (o_out a && o_out b) eqn:E; [|exact IH'].
  apply andb_true_iff in E. destruct E as [Ea Eb].
  constructor; [|exact IH'].
  cbn [fst snd]. repeat split; trivial; [now left|right; now left|].
  inversion Ha; subst; assumption.
Qed.

Lemma observations_flagged (CDist : list fl) (cthr : fl) (Time : list Z)
  (NBR NBRDist : list fl) (nthr : fl) (Sign : list fl) (Method : Z) (o : obs) :
  In o (observations CDist cthr Time NBR NBRDist nthr Sign Method) ->
  o_out o = true ->
  fgt (o_cos o) cthr = true /\
  exists i, (i < length CDist)%nat /\ nth i Time 0 = o_time o /\
            nth i CDist NaN = o_cos o.
Proof.
  unfold observations. intros Hin Hout. apply in_map_iff in Hin.
  destruct Hin as (i & <- & Hi). apply np_where_In in Hi.
  rewrite length_map in Hi. destruct Hi as [Hlt _].
  cbn [o_out o_cos o_time obs_at] in *. split; [|now exists i].
  unfold policy in Hout.
  destruct (Method =? 1); [exact Hout|].
  destruct (Method =? 2);
    repeat (apply andb_true_iff in Hout; destruct Hout as [Hout _]);
    exact Hout.
Qed.

Lemma pair_days_positive (p : obs * obs) :
  o_time (fst p) < o_time (snd p) ->
  exists d, pair_days p = Fin d /\ (0 < d)%Q.
Proof.
  intros Hlt. unfold pair_days.
  eexists. split; [reflexivity|]. exact (days_between_pos _ _ Hlt).
Qed.

(** Property X1.
    On a strictly ascending time axis, [severity] returns either no start
    date, and then a severity index and a duration of 0, or the time of a
    time step whose cosine distance is above the threshold, and then a
    severity index and a duration that are both strictly positive. *)
Theorem severity_start_date_defined
  (CDist : list fl) (cthr : fl) (Time : list Z) (NBR NBRDist : list fl)
  (nthr : fl) (Sign : list fl) (Method : Z) :
  well_shaped CDist Time NBR NBRDist Sign ->
  ascending Time ->
  Method = 1 \/ Method = 2 \/ Method = 3 ->
  exists r,
    severity CDist cthr Time NBR NBRDist nthr Sign Method = Ok r /\
    match startdate r with
    | NoStart => sevindex r = fzero /\ duration r = fzero
    | StartAt t =>
        (exists i, (i < length Time)%nat /\ nth i Time 0 = t /\
                   fgt (nth i CDist NaN) cthr = true) /\
        flt fzero (sevindex r) = true /\
        flt fzero (duration r) = true
    end.
Proof.
  intros Hshape HT HM.
  rewrite (severity_score CDist cthr Time NBR NBRDist nthr Sign Method
             Hshape HM HT).
  eexists. split; [reflexivity|].
  pose proof (linked_pairs_sorted _
    (observations_sorted CDist cthr Time NBR NBRDist nthr Sign Method
       Hshape HT)) as Hps.
  set (l := observations CDist cthr Time NBR NBRDist nthr Sign Method) in *.
  assert (Hflag : forall p, In p (linked_pairs l) ->
            fgt (o_cos (fst p)) cthr = true /\
            fgt (o_cos (snd p)) cthr = true /\
            o_time (fst p) < o_time (snd p)).
  { intros p Hp. rewrite Forall_forall in Hps.
    destruct (Hps p Hp) as (I1 & I2 & O1 & O2 & Hlt).
    repeat split; trivial.
    - now apply (observations_flagged CDist cthr Time NBR NBRDist nthr Sign
                   Method (fst p) I1 O1).
    - now apply (observations_flagged CDist cthr Time NBR NBRDist nthr Sign
                   Method (snd p) I2 O2). }
  cbn [startdate sevindex duration score].
  destruct (linked_pairs l) as [|p ps] eqn:E; [split; reflexivity|].
  split; [|split].
  - rewrite Forall_forall in Hps.
    destruct (Hps p (or_introl eq_refl)) as (I1 & _ & O1 & _).
    destruct (observations_flagged CDist cthr Time NBR NBRDist nthr Sign
                Method (fst p) I1 O1) as (Hc & i & Hi & Ht & Hcos).
    exists i. destruct Hshape as (HlT & _).
    rewrite HlT, Hcos. auto.
  - apply fold_positive; try reflexivity; [|discriminate].
    intros q Hq. destruct (Hflag q Hq) as (H0 & H1 & Hlt).
    destruct (pair_days_positive q Hlt) as (d & Hd & Hpos).
    unfold pair_area. rewrite Hd. now apply trapezoid_positive.
  - apply fold_positive; try reflexivity; [|discriminate].
    intros q Hq. destruct (Hflag q Hq) as (_ & _ & Hlt).
    destruct (pair_days_positive q Hlt) as (d & -> & Hpos).
    cbn [flt fzero]. now apply Qlt_bool_true.
Qed.

Lemma severity_start_date_defined_witness :
  exists r,
    severity ex_CDist (Fin (1 # 2)) ex_Time ex_NBR ex_NBRDist (Fin (3 # 10))
      ex_Sign 3 = Ok r /\
    match startdate r with
    | NoStart => sevindex r = fzero /\ duration r = fzero
    | StartAt t =>
        (exists i, (i < length ex_Time)%nat /\ nth i ex_Time 0 = t /\
                   fgt (nth i ex_CDist NaN) (Fin (1 # 2)) = true) /\
        flt fzero (sevindex r) = true /\
        flt fzero (duration r) = true
    end.
Proof.
  apply severity_start_date_defined.
  - repeat split.
  - unfold ascending, ex_Time, day.
    repeat (constructor; [|repeat (constructor; [lia|]); constructor]).
    constructor.
  - auto.
Defined.

(** Property X2.
    A value of [Method] other than 1, 2 and 3 binds no outlier index:
    on arrays that cover the time steps of [CDist], [severity] raises
    NameError at the first use of [outlierind], whatever the data. *)
Theorem severity_unknown_method
  (CDist : list fl) (cthr : fl) (Time : list Z) (NBR NBRDist : list fl)
  (nthr : fl) (Sign : list fl) (Method : Z) :
  (length CDist <= length Time)%nat ->
  Method <> 1 -> Method <> 2 -> Method <> 3 ->
  severity CDist cthr Time NBR NBRDist nthr Sign Method = Err NameError.
Proof.
  intros Hlen H1 H2 H3. unfold severity.
  set (idx := np_where (map (fun x => negb (isnan x)) CDist)).
  assert (Hidx : Forall (fun i => (i < length CDist)%nat) idx)
    by apply np_where_map_lt.
  rewrite (@take_nth _ CDist idx NaN Hidx).
  apply Z.eqb_neq in H1, H2, H3. rewrite H1, H2, H3. cbn [bind].
  rewrite (@take_nth _ Time idx 0).
  - reflexivity.
  - eapply Forall_impl; [|exact Hidx]. cbn beta. intros i Hi. lia.
Qed.

Lemma severity_unknown_method_witness :
  severity ex_CDist (Fin (1 # 2)) ex_Time ex_NBR ex_NBRDist (Fin (3 # 10))
    ex_Sign 4 = Err NameError.
Proof.
  apply severity_unknown_method; [cbn; lia|lia|lia|lia].
Defined.

(** ** NaN in sums *)

Lemma fold_fadd_nan (l : list fl) : fold_left fadd l NaN = NaN.
Proof. induction l as [|x l IH]; [reflexivity|exact IH]. Qed.

Lemma fsum_nan (l : list fl) : existsb isnan l = true -> fsum l = NaN.
Proof.
  unfold fsum. generalize fzero. induction l as [|x l IH]; intros a Hn;
    [discriminate|].
  cbn [existsb] in Hn. cbn [fold_left].
  destruct x; cbn [isnan orb] in Hn; try (now apply IH).
  destruct a; cbn [fadd]; apply fold_fadd_nan.
Qed.

Lemma existsb_square (l : list fl) :
  existsb isnan (map square l) = existsb isnan l.
Proof.
  induction l as [|x l IH]; [reflexivity|]. cbn [map existsb].
  rewrite IH. f_equal. destruct x; reflexivity.
Qed.

(** ** cosdistance *)

Lemma dot_same_length (u v : list fl) :
  length u = length v -> dot u v = Ok (fsum (map2 fmul u v)).
Proof.
  intros E. unfold dot, mul_arrays. now rewrite E, Nat.eqb_refl.
Qed.

Lemma dot_mismatch (u v : list fl) :
  length u <> length v -> length u <> 1%nat -> length v <> 1%nat ->
  dot u v = Err ValueError.
Proof.
  intros H0 H1 H2. unfold dot, mul_arrays.
  apply Nat.eqb_neq in H0, H1, H2. now rewrite H0, H1, H2.
Qed.

Lemma mapM_fails {A B : Type} (f : A -> res B) (e : exn) (l : list A) :
  l <> [] -> (forall a, In a l -> f a = Err e) -> mapM f l = Err e.
Proof.
  destruct l as [|a l]; [congruence|]. intros _ Hf.
  cbn [mapM]. now rewrite (Hf a) by now left.
Qed.

Lemma column_nth (obs : matrix) (T t : nat) :
  Forall (fun row => length row = T) obs -> (t < T)%nat ->
  column obs t = Ok (map (fun row => nth t row NaN) obs).
Proof.
  intros Hrect Ht. unfold column. apply mapM_ok.
  intros row Hrow. rewrite Forall_forall in Hrect.
  apply get_nth. now rewrite (Hrect row Hrow).
Qed.

Lemma cosdistance_closed `{Sqrt} (ref : list fl) (obs : matrix) (T : nat) :
  obs <> [] -> Forall (fun row => length row = T) obs ->
  length ref = length obs ->
  cosdistance ref obs
  = Ok (map (fun t =>
               if negb (isnan (nth t (hd [] obs) NaN)) then
                 fsub fone
                   (fdiv (fsum (map2 fmul ref
                                  (map (fun row => nth t row NaN) obs)))
                      (fmul (fsqrt (fsum (map square ref)))
                            (fsqrt (fsum (map square
                               (map (fun row => nth t row NaN) obs))))))
               else NaN)
            (seq 0 T)).
Proof.
  intros Hne Hrect Hlen. destruct obs as [|row0 rest]; [congruence|].
  unfold cosdistance. cbn [get nth_error bind hd].
  assert (H0 : length row0 = T) by now inversion Hrect.
  set (m := map (fun x => negb (isnan x)) row0).
  assert (Hm : length m = T) by (unfold m; now rewrite length_map).
  set (g := fun t =>
              fsub fone
                (fdiv (fsum (map2 fmul ref
                               (map (fun row => nth t row NaN) (row0 :: rest))))
                   (fmul (fsqrt (fsum (map square ref)))
                         (fsqrt (fsum (map square
                            (map (fun row => nth t row NaN)
                                 (row0 :: rest)))))))).
  rewrite (mapM_ok _ g).
  - cbn [bind]. rewrite H0, <- Hm, masked_assign.
    f_equal. apply map_ext_in. intros t Ht. apply in_seq in Ht.
    unfold m. rewrite (nth_mask _ row0 NaN) by lia. reflexivity.
  - intros t Ht. apply np_where_In in Ht. rewrite Hm in Ht.
    rewrite (column_nth (row0 :: rest) T t Hrect) by tauto. cbn [bind].
    rewrite dot_same_length by now rewrite length_map.
    reflexivity.
Qed.

Lemma fmul_nan_r (x : fl) : fmul x NaN = NaN.
Proof. destruct x; reflexivity. Qed.

Lemma fdiv_nan_r (x : fl) : fdiv x NaN = NaN.
Proof. destruct x; reflexivity. Qed.

(** Property X4.
    On an array of observations with [T] time steps in every band.  With as
    many reference values as bands, [cosdistance] returns one value per time
    step: NaN where the first band is NaN, and one minus the cosine of the
    angle between the reference and the observation elsewhere; the value is
    NaN as well when any band of the observation, or any entry of the
    reference, is NaN, although only the first band is tested.  With a
    number of reference values that differs from the number of bands,
    neither of the two being one, the product of the reference and a column
    raises ValueError as soon as the first band has a value that is not
    NaN.  When the first band is NaN at every time step, no product is
    formed and the result is NaN at every time step, whatever the
    reference. *)
Theorem cosdistance_entries `{Sqrt} (ref : list fl) (obs : matrix) (T : nat) :
  obs <> [] -> Forall (fun row => length row = T) obs ->
  (length ref = length obs ->
   exists cd,
     cosdistance ref obs = Ok cd /\ length cd = T /\
     forall t, (t < T)%nat ->
       nth_error cd t
       = Some (if isnan (nth t (hd [] obs) NaN) then NaN
               else fsub fone
                      (fdiv (fsum (map2 fmul ref
                                     (map (fun row => nth t row NaN) obs)))
                         (fmul (fsqrt (fsum (map square ref)))
                               (fsqrt (fsum (map square
                                  (map (fun row => nth t row NaN) obs)))))))
       /\
       (existsb isnan (map (fun row => nth t row NaN) obs) = true \/
        existsb isnan ref = true ->
        nth_error cd t = Some NaN))
  /\
  (length ref <> length obs -> length ref <> 1%nat -> length obs <> 1%nat ->
   (exists t, (t < T)%nat /\ isnan (nth t (hd [] obs) NaN) = false) ->
   cosdistance ref obs = Err ValueError)
  /\
  ((forall t, (t < T)%nat -> isnan (nth t (hd [] obs) NaN) = true) ->
   cosdistance ref obs = Ok (repeat NaN T)).
Proof.
  intros Hne Hrect. split; [|split].
  - intros Hlen. rewrite (cosdistance_closed ref obs T Hne Hrect Hlen).
    eexists. split; [reflexivity|].
    split; [now rewrite length_map, length_seq|].
    intros t Ht.
    rewrite nth_error_map,
      (nth_error_nth' (seq 0 T) 0%nat) by now rewrite length_seq.
    rewrite seq_nth by exact Ht. cbn [option_map Nat.add].
    destruct (isnan (nth t (hd [] obs) NaN)); cbn [negb]; [tauto|].
    split; [reflexivity|].
    intros [Hn | Hn]; do 2 f_equal.
    + rewrite <- existsb_square in Hn. rewrite (fsum_nan _ Hn).
      cbn [fsqrt]. now rewrite fmul_nan_r, fdiv_nan_r.
    + rewrite <- existsb_square in Hn. rewrite (fsum_nan _ Hn).
      cbn [fsqrt fmul]. now rewrite fdiv_nan_r.
  - intros H0 H1 H2 (t & Ht & Hv).
    destruct obs as [|row0 rest]; [congruence|].
    unfold cosdistance. cbn [get nth_error bind hd] in *.
    assert (Hr0 : length row0 = T) by now inversion Hrect.
    rewrite (mapM_fails _ ValueError); [reflexivity| |].
    + intros E.
      assert (In t (np_where (map (fun x => negb (isnan x)) row0))) as Hin.
      { apply np_where_In. rewrite length_map, Hr0. split; [exact Ht|].
        rewrite (nth_mask _ row0 NaN) by lia. now rewrite Hv. }
      rewrite E in Hin. destruct Hin.
    + intros u Hu. apply np_where_In in Hu. rewrite length_map, Hr0 in Hu.
      rewrite (column_nth (row0 :: rest) T u Hrect) by tauto. cbn [bind].
      rewrite dot_mismatch; trivial; now rewrite length_map.
  - intros Hall. destruct obs as [|row0 rest]; [congruence|].
    unfold cosdistance. cbn [get nth_error bind hd] in *.
    assert (Hr0 : length row0 = T) by now inversion Hrect.
    assert (np_where (map (fun x => negb (isnan x)) row0) = []) as ->.
    { destruct (np_where (map (fun x => negb (isnan x)) row0)) as [|t l] eqn:E;
        [reflexivity|].
      assert (In t (np_where (map (fun x => negb (isnan x)) row0))) as Hin
        by (rewrite E; now left).
      apply np_where_In in Hin. rewrite length_map, Hr0 in Hin.
      destruct Hin as [Ht Hv].
      rewrite (nth_mask _ row0 NaN) in Hv by lia.
      rewrite (Hall t Ht) in Hv. discriminate Hv. }
    cbn [mapM bind]. now rewrite Hr0.
Qed.

Lemma cosdistance_entries_witness :
  (exists cd,
     cosdistance [Fin 1; Fin 2] [[Fin 1; NaN; Fin 3]; [Fin 2; Fin 5; NaN]]
     = Ok cd /\ length cd = 3%nat /\
     nth_error cd 1 = Some NaN /\ nth_error cd 2 = Some NaN) /\
  cosdistance [Fin 3; Fin 4] [[Fin 1; NaN]; [Fin 2; Fin 5]; [Fin 2; Fin 1]]
  = Err ValueError.
Proof.
  split.
  - destruct (cosdistance_entries [Fin 1; Fin 2]
                [[Fin 1; NaN; Fin 3]; [Fin 2; Fin 5; NaN]] 3)
      as ((cd & Hcd & Hl & Hent) & _); [discriminate|repeat constructor| |].
    + reflexivity.
    + exists cd. split; [exact Hcd|]. split; [exact Hl|]. split.
      * destruct (Hent 1%nat ltac:(lia)) as [_ Hn]. apply Hn. now left.
      * destruct (Hent 2%nat ltac:(lia)) as [_ Hn]. apply Hn. now left.
  - destruct (cosdistance_entries [Fin 3; Fin 4]
                [[Fin 1; NaN]; [Fin 2; Fin 5]; [Fin 2; Fin 1]] 2)
      as (_ & Herr & _); [discriminate|repeat constructor|].
    apply Herr; cbn; try lia. exists 0%nat. split; [lia|reflexivity].
Defined.

(** ** nbr_eucdistance *)

Lemma fsqrt_square_nonneg `{Sqrt} (d : fl) :
  flt (fsqrt (square d)) fzero = false.
Proof.
  destruct d as [q| | |]; try reflexivity.
  cbn [square fmul fsqrt]. destruct (Qlt_bool (q * q) 0); [reflexivity|].
  cbn [flt fzero]. apply Qlt_bool_false, sqrtQ_nonneg.
Qed.

(** Property X5.
    [nbr_eucdistance] returns one distance and one direction per time
    step.  No distance is negative: the sign of the change is carried by the
    direction alone, which is 0 or 1.  A finite observation equal to a finite
    reference is at distance 0.  When the reference is NaN, every distance is
    NaN and every direction is 0. *)
Theorem nbr_eucdistance_magnitude `{Sqrt} (ref : fl) (obs : list fl) :
  exists NBRdist Sign,
    nbr_eucdistance ref obs = Ok (NBRdist, Sign) /\
    length NBRdist = length obs /\
    length Sign = length obs /\
    Forall (fun d => flt d fzero = false) NBRdist /\
    Forall (fun s => s = fzero \/ s = fone) Sign /\
    (forall i a b,
       nth_error obs i = Some (Fin a) -> ref = Fin b -> (a == b)%Q ->
       exists q, nth_error NBRdist i = Some (Fin q) /\ (q == 0)%Q) /\
    (isnan ref = true ->
     NBRdist = repeat NaN (length obs) /\ Sign = repeat fzero (length obs)).
Proof.
  rewrite nbr_eucdistance_closed. do 2 eexists. split; [reflexivity|].
  split; [apply length_map|]. split; [apply length_map|].
  split; [|split; [|split]].
  - apply Forall_forall. intros d Hd. apply in_map_iff in Hd.
    destruct Hd as (x & <- & _).
    destruct (isnan x); [reflexivity|apply fsqrt_square_nonneg].
  - apply Forall_forall. intros s Hs. apply in_map_iff in Hs.
    destruct Hs as (x & <- & _). destruct (flt x ref); auto.
  - intros i a b Hi -> Hab. rewrite nth_error_map, Hi.
    cbn [option_map isnan fsub fneg fadd square fmul fsqrt].
    assert (Hz : ((a + - b) * (a + - b) == 0)%Q).
    { setoid_replace (a + - b)%Q with 0%Q by lra. reflexivity. }
    assert (Qlt_bool ((a + - b) * (a + - b)) 0 = false) as ->.
    { apply Qlt_bool_false. rewrite Hz. apply Qle_refl. }
    eexists. split; [reflexivity|]. now apply sqrtQ_zero.
  - intros Hn. destruct ref; try discriminate Hn.
    rewrite !repeat_as_map. split; apply map_ext; intros x.
    + destruct x; reflexivity.
    + destruct x; reflexivity.
Qed.

(** ** The order of floats *)

Lemma flt_irrefl (x : fl) : flt x x = false.
Proof.
  destruct x as [q| | |]; try reflexivity.
  cbn [flt]. apply Qlt_bool_false, Qle_refl.
Qed.

Lemma flt_asym (x y : fl) : flt x y = true -> flt y x = false.
Proof.
  destruct x as [p| | |], y as [q| | |]; cbn [flt]; try discriminate; auto.
  intros Hlt. apply Qlt_bool_true in Hlt. apply Qlt_bool_false.
  now apply Qlt_le_weak.
Qed.

Lemma fle_trans (a b c : fl) :
  isnan b = false -> flt b a = false -> flt c b = false -> flt c a = false.
Proof.
  destruct a as [p| | |], b as [q| | |], c as [r| | |];
    cbn [flt isnan]; try discriminate; auto.
  intros _ H1 H2. apply Qlt_bool_false in H1, H2. apply Qlt_bool_false.
  now apply Qle_trans with q.
Qed.

Lemma feqb_refl (x : fl) : isnan x = false -> feqb x x = true.
Proof.
  destruct x as [q| | |]; try discriminate; intros _; try reflexivity.
  cbn [feqb]. apply Qeq_bool_iff. reflexivity.
Qed.

Lemma feqb_not_nan (x y : fl) : feqb x y = true -> isnan x = false.
Proof. destruct x, y; try discriminate; reflexivity. Qed.

Lemma feqb_flt (a b x : fl) :
  feqb a b = true -> flt x b = false -> flt x a = false.
Proof.
  destruct a as [p| | |], b as [q| | |], x as [r| | |];
    cbn [feqb flt]; try discriminate; auto.
  intros He Hl. apply Qeq_bool_iff in He. apply Qlt_bool_false in Hl.
  apply Qlt_bool_false. now rewrite He.
Qed.

(** ** nanmin and nansum *)

Lemma fmin_below_l (x a : fl) : flt x (fmin x a) = false.
Proof.
  unfold fmin. destruct (flt a x) eqn:E; [now apply flt_asym|].
  apply flt_irrefl.
Qed.

Lemma fmin_below_r (x a : fl) : flt a (fmin x a) = false.
Proof.
  unfold fmin. destruct (flt a x) eqn:E; [apply flt_irrefl|exact E].
Qed.

Lemma fmin_cases (x a : fl) : fmin x a = x \/ fmin x a = a.
Proof. unfold fmin. destruct (flt a x); auto. Qed.

Lemma fold_fmin_In (r : list fl) (x : fl) : In (fold_left fmin r x) (x :: r).
Proof.
  revert x. induction r as [|a r IH]; intros x; [now left|].
  cbn [fold_left]. destruct (IH (fmin x a)) as [E | Hin].
  - destruct (fmin_cases x a) as [E' | E']; rewrite <- E, E';
      [now left|right; now left].
  - right. now right.
Qed.

Lemma fold_fmin_below (r : list fl) (x : fl) :
  (forall y, In y (x :: r) -> isnan y = false) ->
  forall y, In y (x :: r) -> flt y (fold_left fmin r x) = false.
Proof.
  revert x. induction r as [|a r IH]; intros x Hn y Hy.
  - destruct Hy as [<- | []]. apply flt_irrefl.
  - cbn [fold_left].
    assert (Hm : isnan (fmin x a) = false).
    { destruct (fmin_cases x a) as [-> | ->]; apply Hn;
        [now left|right; now left]. }
    assert (Hn' : forall z, In z (fmin x a :: r) -> isnan z = false).
    { intros z [<- | Hz]; [exact Hm|]. apply Hn. right. now right. }
    assert (Hle : flt (fmin x a) (fold_left fmin r (fmin x a)) = false)
      by (apply IH; [exact Hn'|now left]).
    destruct Hy as [<- | [<- | Hy]].
    + apply (fle_trans _ (fmin x a)); [exact Hm|exact Hle|].
      apply fmin_below_l.
    + apply (fle_trans _ (fmin x a)); [exact Hm|exact Hle|].
      apply fmin_below_r.
    + apply IH; [exact Hn'|now right].
Qed.

Lemma nanmin_spec (l : list fl) (x0 : fl) :
  In x0 l -> isnan x0 = false ->
  In (nanmin l) l /\ isnan (nanmin l) = false /\
  forall y, In y l -> isnan y = false -> flt y (nanmin l) = false.
Proof.
  intros Hin Hx0. unfold nanmin.
  assert (Hf : forall y, In y (filter (fun x => negb (isnan x)) l)
                         <-> In y l /\ isnan y = false).
  { intros y. rewrite filter_In, negb_true_iff. reflexivity. }
  destruct (filter (fun x => negb (isnan x)) l) as [|x r] eqn:E.
  - exfalso. apply (proj2 (Hf x0)). now split.
  - pose proof (fold_fmin_In r x) as Hm. apply Hf in Hm.
    destruct Hm as [Hm1 Hm2]. split; [exact Hm1|]. split; [exact Hm2|].
    intros y Hy Hny. apply fold_fmin_below.
    + intros z Hz. now apply Hf in Hz.
    + apply Hf. now split.
Qed.

Lemma fadd_not_negative (a x : fl) :
  isnan a = false -> flt a fzero = false ->
  isnan x = false -> flt x fzero = false ->
  isnan (fadd a x) = false /\ flt (fadd a x) fzero = false.
Proof.
  destruct a as [p| | |], x as [q| | |]; cbn [isnan flt fzero fadd];
    try discriminate; auto.
  intros _ Hp _ Hq. split; [reflexivity|].
  apply Qlt_bool_false in Hp, Hq. apply Qlt_bool_false. lra.
Qed.

Lemma fsqrt_not_negative `{Sqrt} (x : fl) : flt (fsqrt x) fzero = false.
Proof.
  destruct x as [q| | |]; try reflexivity.
  cbn [fsqrt]. destruct (Qlt_bool q 0); [reflexivity|].
  cbn [flt fzero]. apply Qlt_bool_false, sqrtQ_nonneg.
Qed.

Lemma nansum_not_nan (l : list fl) :
  Forall (fun x => flt x fzero = false) l -> isnan (nansum l) = false.
Proof.
  intros Hl. unfold nansum, fsum.
  assert (Hgen : forall a, isnan a = false -> flt a fzero = false ->
            isnan (fold_left fadd (filter (fun x => negb (isnan x)) l) a)
            = false).
  { induction Hl as [|x l Hx Hl IH]; intros a Ha1 Ha2; [exact Ha1|].
    cbn [filter]. destruct (isnan x) eqn:Ex; cbn [negb]; [now apply IH|].
    cbn [fold_left].
    destruct (fadd_not_negative a x Ha1 Ha2 Ex Hx) as [H1 H2].
    now apply IH. }
  apply Hgen; reflexivity.
Qed.

(** ** Columns and norms of a matrix *)

Lemma column_rect (X : matrix) (n t : nat) :
  Forall (fun row => length row = n) X -> (t < n)%nat ->
  column X t = Ok (map (fun row => nth t row NaN) X).
Proof.
  intros Hrect Ht. unfold column. apply mapM_ok. intros row Hrow.
  rewrite Forall_forall in Hrect. apply get_nth.
  now rewrite (Hrect row Hrow).
Qed.

Lemma fold_map2_length (n : nat) (M : matrix) (acc : list fl) :
  Forall (fun row => length row = n) M -> length acc = n ->
  length (fold_left (map2 fadd) M acc) = n.
Proof.
  intros HM. revert acc. induction HM as [|r M Hr HM IH]; intros acc Ha;
    [exact Ha|].
  cbn [fold_left]. apply IH. rewrite length_map2. lia.
Qed.

Lemma fold_map2_nan (n t : nat) (M : matrix) (acc : list fl) :
  Forall (fun row => length row = n) M -> length acc = n -> (t < n)%nat ->
  nth t acc NaN = NaN \/ (exists r, In r M /\ nth t r NaN = NaN) ->
  nth t (fold_left (map2 fadd) M acc) NaN = NaN.
Proof.
  intros HM. revert acc. induction HM as [|r M Hr HM IH]; intros acc Ha Ht Hn.
  - destruct Hn as [Hn | (r & [] & _)]. exact Hn.
  - cbn [fold_left]. apply IH; [rewrite length_map2; lia|exact Ht|].
    assert (Hnth : nth t (map2 fadd acc r) NaN
                   = fadd (nth t acc NaN) (nth t r NaN)).
    { apply nth_error_nth. rewrite nth_error_map2.
      rewrite (nth_error_nth' acc NaN), (nth_error_nth' r NaN) by lia.
      reflexivity. }
    destruct Hn as [Hn | (r' & [<- | Hin] & Hn)].
    + left. now rewrite Hnth, Hn.
    + left. rewrite Hnth, Hn. now destruct (nth t acc NaN).
    + right. now exists r'.
Qed.

Lemma euc_dist_rows `{Sqrt} (n : nat) (X : matrix) (y0 : list fl) :
  Forall (fun row => length row = n) X ->
  Forall (fun row => length row = n) (map (map square) (euc_dist X y0)).
Proof.
  intros HX. apply Forall_forall. intros r Hr. apply in_map_iff in Hr.
  destruct Hr as (r' & <- & Hr'). rewrite length_map.
  apply In_nth_error in Hr'. destruct Hr' as (b & Hb).
  unfold euc_dist in Hb. rewrite nth_error_map2 in Hb.
  destruct (nth_error X b) as [row|] eqn:Erow; [|discriminate].
  destruct (nth_error y0 b); [|discriminate]. injection Hb as <-.
  rewrite length_map. rewrite Forall_forall in HX.
  apply HX. eapply nth_error_In, Erow.
Qed.

Lemma euc_norm_length `{Sqrt} (n : nat) (X : matrix) (y0 : list fl) :
  Forall (fun row => length row = n) X -> length (euc_norm n X y0) = n.
Proof.
  intros HX. unfold euc_norm, sum_axis0. rewrite length_map.
  apply fold_map2_length; [now apply euc_dist_rows|apply repeat_length].
Qed.

Lemma nth_map_lt {A B : Type} (f : A -> B) (l : list A) (d : A) (d' : B)
  (t : nat) :
  (t < length l)%nat -> nth t (map f l) d' = f (nth t l d).
Proof.
  intros Ht. rewrite (nth_indep _ d' (f d)) by now rewrite length_map.
  apply map_nth.
Qed.

Lemma euc_norm_nan `{Sqrt} (n t : nat) (X : matrix) (y0 row : list fl) :
  Forall (fun row => length row = n) X -> length y0 = length X ->
  (t < n)%nat -> In row X -> isnan (nth t row NaN) = true ->
  nth t (euc_norm n X y0) NaN = NaN.
Proof.
  intros HX Hy Ht Hrow Hn. unfold euc_norm.
  pose proof (euc_dist_rows n X y0 HX) as HM.
  rewrite (nth_map_lt fsqrt _ NaN)
    by (unfold sum_axis0; rewrite (fold_map2_length n); trivial;
        apply repeat_length).
  unfold sum_axis0.
  rewrite (fold_map2_nan n t); trivial; [apply repeat_length|].
  right. apply In_nth_error in Hrow. destruct Hrow as (b & Hb).
  assert (Hlt : (b < length y0)%nat)
    by (rewrite Hy; apply nth_error_Some; congruence).
  exists (map square (map (fun x => fsub x (nth b y0 NaN)) row)). split.
  - apply in_map. apply (nth_error_In _ b). unfold euc_dist.
    rewrite nth_error_map2, Hb, (nth_error_nth' y0 NaN) by exact Hlt.
    reflexivity.
  - rewrite map_map.
    rewrite (nth_map_lt (fun x => square (fsub x (nth b y0 NaN))) row NaN).
    + destruct (nth t row NaN); try discriminate Hn. reflexivity.
    + rewrite Forall_forall in HX. rewrite (HX row); [exact Ht|].
      eapply nth_error_In, Hb.
Qed.

Lemma euc_norm_not_negative `{Sqrt} (n : nat) (X : matrix) (y0 : list fl) :
  Forall (fun x => flt x fzero = false) (euc_norm n X y0).
Proof.
  unfold euc_norm. apply Forall_forall. intros x Hx.
  apply in_map_iff in Hx. destruct Hx as (s & <- & _).
  apply fsqrt_not_negative.
Qed.

(** ** spectral_angle *)

(** Property X6.
    For a reference and an observed spectrum of one length,
    [spectral_angle] returns NaN as soon as one of the two holds a NaN,
    whatever the arc cosine makes of its argument.  For spectra of two
    different lengths, neither of them one, the product of the two raises
    ValueError. *)
Theorem spectral_angle_nan `{Sqrt} `{Trig} (ref obs : list fl) :
  (length ref = length obs ->
   existsb isnan obs = true \/ existsb isnan ref = true ->
   spectral_angle ref obs = Ok NaN)
  /\
  (length ref <> length obs -> length ref <> 1%nat -> length obs <> 1%nat ->
   spectral_angle ref obs = Err ValueError).
Proof.
  split.
  - intros Hlen Hn. unfold spectral_angle.
    rewrite (dot_same_length ref obs Hlen). cbn [bind].
    assert (Hd : fmul (fsum (map square ref)) (fsum (map square obs)) = NaN).
    { destruct Hn as [Hn | Hn]; rewrite <- existsb_square in Hn;
        rewrite (fsum_nan _ Hn); [apply fmul_nan_r|reflexivity]. }
    rewrite Hd. cbn [fsqrt isnan negb]. now rewrite andb_false_r.
  - intros H1 H2 H3. unfold spectral_angle.
    now rewrite (dot_mismatch ref obs H1 H2 H3).
Qed.

Lemma spectral_angle_nan_witness :
  spectral_angle [Fin 1; Fin 2] [Fin 3; NaN] = Ok NaN /\
  spectral_angle [Fin 1; Fin 2] [Fin 3; NaN; Fin 5] = Err ValueError.
Proof.
  split.
  - apply (proj1 (spectral_angle_nan [Fin 1; Fin 2] [Fin 3; NaN]));
      [reflexivity|]. now left.
  - apply (proj2 (spectral_angle_nan [Fin 1; Fin 2] [Fin 3; NaN; Fin 5]));
      cbn; lia.
Defined.

(** ** medoid *)

Lemma foldM_medoid_step `{Sqrt} (n : nat) (X : matrix) (N : list nat) :
  Forall (fun row => length row = n) X ->
  Forall (fun t => (t < n)%nat) N ->
  forall TS,
    foldM (medoid_step n X) N TS
    = scatter TS N
        (map (fun t => nansum (euc_norm n X (map (fun row => nth t row NaN) X)))
             N).
Proof.
  intros HX HN TS. unfold scatter.
  rewrite length_map, Nat.eqb_refl, combine_map_r.
  revert TS. induction HN as [|t N Ht HN IH]; intros TS; [reflexivity|].
  cbn [foldM map scatter_zip]. unfold medoid_step at 1.
  rewrite (column_rect X n t HX Ht). cbn [bind].
  destruct (set_nth TS t _); cbn [bind]; [apply IH|reflexivity].
Qed.

(** Property X7.
    On a matrix with [n] time steps in every band, [medoid] does not
    raise.  When no time step has a defined distance to the band means, it
    returns the band means.  Otherwise it returns a column of the matrix: an
    observation without NaN in any band, whose sum of distances to the
    other observations is not larger than that of any other candidate. *)
Theorem medoid_is_observation `{Sqrt} (X : matrix) (n : nat) :
  X <> [] -> Forall (fun row => length row = n) X ->
  exists Med,
    medoid X = Ok Med /\ length Med = length X /\
    (np_where (map (fun x => negb (isnan x))
                   (euc_norm n X (map nanmean X))) = [] ->
     Med = map nanmean X) /\
    (np_where (map (fun x => negb (isnan x))
                   (euc_norm n X (map nanmean X))) <> [] ->
     exists t,
       In t (np_where (map (fun x => negb (isnan x))
                           (euc_norm n X (map nanmean X)))) /\
       (t < n)%nat /\
       Med = map (fun row => nth t row NaN) X /\
       existsb isnan Med = false /\
       forall t',
         In t' (np_where (map (fun x => negb (isnan x))
                              (euc_norm n X (map nanmean X)))) ->
         flt (nansum (euc_norm n X (map (fun row => nth t' row NaN) X)))
             (nansum (euc_norm n X Med)) = false).
Proof.
  intros Hne HX.
  destruct (get_first X Hne) as (row0 & Hget & Hrow0).
  assert (Hlen0 : length row0 = n)
    by (rewrite Forall_forall in HX; now apply HX).
  unfold medoid. rewrite Hget. cbn [bind]. rewrite Hlen0.
  set (m := map (fun x => negb (isnan x)) (euc_norm n X (map nanmean X))).
  assert (Hm : length m = n)
    by (unfold m; rewrite length_map; now apply euc_norm_length).
  destruct (0 <? length (np_where m))%nat eqn:E.
  2:{ exists (map nanmean X). split; [reflexivity|].
      split; [apply length_map|]. split; [reflexivity|].
      intros HN. apply Nat.ltb_ge in E.
      destruct (np_where m); [congruence|cbn in E; lia]. }
  apply Nat.ltb_lt in E.
  set (w := fun t => nansum (euc_norm n X (map (fun row => nth t row NaN) X))).
  assert (HN : Forall (fun t => (t < n)%nat) (np_where m)).
  { apply Forall_forall. intros t Ht. apply np_where_In in Ht. lia. }
  rewrite (foldM_medoid_step n X (np_where m) HX HN).
  fold w. pose proof (masked_assign NaN m w) as HTS. rewrite Hm in HTS.
  rewrite HTS. cbn [bind].
  set (F := fun i => if nth i m false then w i else NaN).
  set (TS := map F (seq 0 n)).
  assert (HTSl : length TS = n)
    by (unfold TS; now rewrite length_map, length_seq).
  assert (HTSn : forall i, (i < n)%nat -> nth i TS NaN = F i).
  { intros i Hi. unfold TS.
    rewrite (nth_map_lt F _ 0%nat) by now rewrite length_seq.
    now rewrite seq_nth. }
  assert (Hw : forall t, isnan (w t) = false).
  { intros t. apply nansum_not_nan, euc_norm_not_negative. }
  assert (HFN : forall t, In t (np_where m) -> F t = w t /\ In (w t) TS).
  { intros t Ht. pose proof Ht as Ht'. apply np_where_In in Ht'.
    destruct Ht' as [Hlt Hmt].
    assert (F t = w t) as HFt by (unfold F; now rewrite Hmt).
    split; [exact HFt|]. rewrite <- HFt. unfold TS. apply in_map, in_seq.
    lia. }
  destruct (np_where m) as [|t0 N'] eqn:EN; [cbn in E; lia|].
  rewrite <- EN in *.
  assert (Ht0 : In t0 (np_where m)) by (rewrite EN; now left).
  destruct (HFN t0 Ht0) as [_ Hin0].
  destruct (nanmin_spec TS (w t0) Hin0 (Hw t0)) as (Hmin1 & Hmin2 & Hmin3).
  set (mn := nanmin TS) in *.
  set (indmin := np_where (map (fun x => feqb x mn) TS)).
  assert (Hind : forall i, In i indmin <->
                   (i < n)%nat /\ feqb (F i) mn = true).
  { intros i. unfold indmin. rewrite np_where_In, length_map, HTSl.
    split; intros [Hi Hb]; (split; [exact Hi|]).
    - rewrite (nth_mask _ TS NaN), HTSn in Hb by lia. exact Hb.
    - rewrite (nth_mask _ TS NaN), HTSn by lia. exact Hb. }
  assert (Hindne : indmin <> []).
  { unfold TS in Hmin1. apply in_map_iff in Hmin1.
    destruct Hmin1 as (i & Hi & Hiseq). apply in_seq in Hiseq.
    assert (In i indmin) as Hin.
    { apply Hind. split; [lia|]. rewrite Hi. now apply feqb_refl. }
    intros Hnil. now rewrite Hnil in Hin. }
  destruct (get_first indmin Hindne) as (i0 & Hget0 & Hi0).
  rewrite Hget0. cbn [bind]. apply Hind in Hi0. destruct Hi0 as [Hi0 Hf0].
  rewrite (column_rect X n i0 HX Hi0).
  assert (Hmi0 : nth i0 m false = true).
  { apply feqb_not_nan in Hf0. unfold F in Hf0.
    now destruct (nth i0 m false). }
  assert (HFi0 : F i0 = w i0) by (unfold F; now rewrite Hmi0).
  eexists. split; [reflexivity|]. split; [apply length_map|].
  split; [intros Hnil; rewrite Hnil in Ht0; destruct Ht0|].
  intros _. exists i0. split; [|split; [exact Hi0|split; [reflexivity|split]]].
  - apply np_where_In. rewrite Hm. now split.
  - apply not_true_is_false. intros Hex. apply existsb_exists in Hex.
    destruct Hex as (x & Hx & Hnx). apply in_map_iff in Hx.
    destruct Hx as (row & <- & Hrow).
    pose proof (euc_norm_nan n i0 X (map nanmean X) row HX
                  (length_map _ _) Hi0 Hrow Hnx) as Hnan.
    unfold m in Hmi0.
    rewrite (nth_mask _ _ NaN), Hnan in Hmi0
      by (rewrite euc_norm_length; trivial).
    discriminate Hmi0.
  - intros t' Ht'. destruct (HFN t' Ht') as [_ Hin'].
    apply (feqb_flt _ mn).
    + fold (w i0). now rewrite <- HFi0.
    + apply Hmin3; [exact Hin'|apply Hw].
Qed.

Lemma medoid_is_observation_witness :
  exists Med,
    medoid [[Fin 1; NaN; Fin 3; Fin 2]; [Fin 5; Fin 4; Fin 9; Fin 6]]
    = Ok Med /\
    Med = [Fin 2; Fin 6].
Proof.
  destruct (medoid_is_observation
              [[Fin 1; NaN; Fin 3; Fin 2]; [Fin 5; Fin 4; Fin 9; Fin 6]] 4)
    as (Med & HMed & _); [discriminate|repeat constructor|].
  exists Med. split; [exact HMed|].
  vm_compute in HMed. now injection HMed.
Defined.

(** ** The geometric median of a single observation *)

Lemma single_sum (qs ys : list Q) :
  Forall2 Qeq qs ys ->
  forall a : Q, (a == 0)%Q ->
  exists s,
    fold_left (map2 fadd)
      (map (map square)
         (map2 (fun row y => map (fun x => fsub x y) row)
               (map (fun q => [Fin q]) qs) (map Fin ys)))
      [Fin a] = [Fin s] /\ (s == 0)%Q.
Proof.
  induction 1 as [|q y qs ys Hqy Hrest IH]; intros a Ha.
  - exists a. now split.
  - cbn [map map2 fold_left square fsub fneg fadd fmul].
    apply IH. rewrite Ha, Hqy. ring.
Qed.

Lemma single_norm `{Sqrt} (qs ys : list Q) :
  Forall2 Qeq qs ys ->
  exists z,
    euc_norm 1 (map (fun q => [Fin q]) qs) (map Fin ys) = [Fin z] /\
    (z == 0)%Q.
Proof.
  intros Hqy. unfold euc_norm, sum_axis0, euc_dist.
  change (repeat fzero 1) with [Fin 0].
  destruct (single_sum qs ys Hqy 0%Q ltac:(reflexivity)) as (s & -> & Hs).
  cbn [map fsqrt].
  assert (Qlt_bool s 0 = false) as ->
    by (apply Qlt_bool_false; rewrite Hs; apply Qle_refl).
  eexists. split; [reflexivity|]. now apply sqrtQ_zero.
Qed.

Lemma single_weiszfeld `{Sqrt} (qs ys : list Q) :
  Forall2 Qeq qs ys ->
  weiszfeld 1 (map (fun q => [Fin q]) qs) (map Fin ys)
  = Ok (map (fun _ => NaN) qs).
Proof.
  intros Hqy. unfold weiszfeld.
  destruct (single_norm qs ys Hqy) as (z & -> & Hz).
  cbn [map isnan negb]. change (np_where [true]) with [0%nat].
  rewrite (mapM_ok _ (fun row => row)).
  2:{ intros row Hrow. apply in_map_iff in Hrow.
      destruct Hrow as (q & <- & _). reflexivity. }
  rewrite map_id. cbn [take mapM get nth_error bind map fsum fold_left].
  f_equal. rewrite map_map. apply map_ext. intros q.
  cbn [map2 fold_left fdiv fone fzero].
  apply Qeq_bool_iff in Hz. rewrite Hz.
  change (inf_of_sign (Qsign 1)) with PInf. cbn [fadd].
  unfold inf_of_sign. destruct (Qsign q =? 0), (0 <? Qsign q); reflexivity.
Qed.

Lemma single_means (qs : list Q) :
  exists ys, map nanmean (map (fun q => [Fin q]) qs) = map Fin ys /\
             Forall2 Qeq qs ys.
Proof.
  exists (map (fun q => (0 + q) / inject_Z 1)%Q qs). split.
  - rewrite !map_map. apply map_ext. intros q. reflexivity.
  - induction qs as [|q qs IH]; constructor; [|exact IH].
    change (inject_Z 1) with 1%Q. field.
Qed.

(** Property X8.
    The geometric median of a pixel with a single observation is that
    observation: the first Weiszfeld step divides by a distance of zero, the
    new estimate is NaN in every band, and the loop keeps the band means,
    which are the observation itself. *)
Theorem geometric_median_single_observation `{Sqrt} (qs : list Q) (tol : fl)
  (MaxInter : Z) (fuel : nat) :
  qs <> [] -> flt tol fzero = false -> (2 <= fuel)%nat ->
  exists y,
    geometric_median fuel (map (fun q => [Fin q]) qs) tol MaxInter = Ok y /\
    Forall2 feq y (map Fin qs) /\
    (0 < MaxInter ->
     weiszfeld 1 (map (fun q => [Fin q]) qs) y = Ok (map (fun _ => NaN) qs)).
Proof.
  intros Hne Htol Hfuel.
  destruct (single_means qs) as (ys & Hy0 & Hqy).
  assert (Hfeq : Forall2 feq (map Fin ys) (map Fin qs)).
  { clear Hy0 Hne. induction Hqy as [|q y qs ys E _ IH]; constructor;
      [symmetry; exact E|exact IH]. }
  unfold geometric_median.
  destruct qs as [|q0 qs']; [congruence|]. set (qs := q0 :: qs') in *.
  change (get (map (fun q => [Fin q]) qs) 0) with (Ok [Fin q0]).
  cbn [bind length]. rewrite Hy0.
  assert (Hnn : any_nan (map Fin ys) = false).
  { unfold any_nan. clear. induction ys as [|y ys IH]; [reflexivity|exact IH]. }
  rewrite Hnn.
  destruct fuel as [|[|fuel]]; [lia|lia|]. cbn [gm_loop].
  destruct (fgt (eps_norm (EpsScalar (of_Z (10 ^ 2)))) tol && (0 <? MaxInter))
    eqn:Hc.
  - rewrite (single_weiszfeld qs ys Hqy). cbn [bind].
    change (any_nan (map (fun _ => NaN) qs)) with true. cbv iota.
    rewrite (@frozen_norm _ tol Htol). cbn [andb].
    eexists. split; [reflexivity|]. split; [exact Hfeq|].
    intros _. now apply single_weiszfeld.
  - eexists. split; [reflexivity|]. split; [exact Hfeq|].
    intros _. now apply single_weiszfeld.
Qed.

Lemma geometric_median_single_observation_witness :
  exists y,
    geometric_median 2 [[Fin 300]; [Fin 400]; [Fin 200]] (Fin (1 # 2)) 40
    = Ok y /\
    Forall2 feq y [Fin 300; Fin 400; Fin 200].
Proof.
  destruct (geometric_median_single_observation [300; 400; 200]%Q
              (Fin (1 # 2)) 40 2) as (y & Hy & Hfeq & _);
    [discriminate|reflexivity|lia|].
  exists y. split; [exact Hy|exact Hfeq].
Defined.

(** ** The chunks: errors, sizes and number *)

(** Property X9.
    The chunk list at the edges of its domain: a worker count of 0
    raises ZeroDivisionError; fewer pixels than workers (also no pixel at
    all) give a chunk size of 0 and ValueError from [range]; a negative
    worker count raises nothing and gives no chunk, so that no pixel is
    visited. *)
Theorem chunks_edge_cases (n n_procs : Z) :
  (n_procs = 0 -> chunks n n_procs = Err ZeroDivisionError) /\
  (0 <= n < n_procs -> chunks n n_procs = Err ValueError) /\
  (n_procs < 0 -> 0 < n ->
   chunks n n_procs = Ok [] /\ all_visited [] = []).
Proof.
  unfold chunks, floordiv. split; [|split].
  - intros ->. reflexivity.
  - intros Hn.
    replace (n_procs =? 0) with false by (symmetry; apply Z.eqb_neq; lia).
    cbn [bind]. rewrite Z.div_small by lia. reflexivity.
  - intros Hp Hn.
    replace (n_procs =? 0) with false by (symmetry; apply Z.eqb_neq; lia).
    cbn [bind]. set (c := n / n_procs).
    assert (Hc : c < 0).
    { unfold c. pose proof (Z.div_mod n n_procs ltac:(lia)) as Hdm.
      pose proof (Z.mod_neg_bound n n_procs Hp) as Hm. nia. }
    unfold range.
    replace (c =? 0) with false by (symmetry; apply Z.eqb_neq; lia).
    replace (0 <? c) with false by (symmetry; apply Z.ltb_ge; lia).
    cbn [bind].
    assert ((0 - n - c - 1) / - c <= 0) as Hq.
    { destruct (Z.le_gt_cases 0 (0 - n - c - 1)) as [Hge | Hlt].
      - rewrite Z.div_small by lia. lia.
      - pose proof (Z.div_lt_upper_bound (0 - n - c - 1) (- c) 0
                      ltac:(lia) ltac:(lia)). lia. }
    replace (Z.to_nat ((0 - n - c - 1) / - c)) with 0%nat by lia.
    split; reflexivity.
Qed.

Lemma chunks_edge_cases_witness :
  chunks 7 0 = Err ZeroDivisionError /\
  chunks 3 4 = Err ValueError /\
  chunks 5 (- 2) = Ok [].
Proof.
  destruct (chunks_edge_cases 7 0) as (H1 & _).
  destruct (chunks_edge_cases 3 4) as (_ & H2 & _).
  destruct (chunks_edge_cases 5 (- 2)) as (_ & _ & H3).
  split; [apply H1; reflexivity|].
  split; [apply H2; lia|apply H3; lia].
Defined.

(** Property X10.
    For [1 <= n_procs <= n] no chunk holds more than [n // n_procs]
    pixels and there are [ceil (n / (n // n_procs))] chunks: exactly
    [n_procs] chunks of equal size when [n_procs] divides [n], and more
    chunks than [n_procs] otherwise, the pixels left over going to
    additional chunks rather than to the last one. *)
Theorem chunks_sizes (n n_procs : Z) :
  1 <= n_procs <= n ->
  exists cs,
    chunks n n_procs = Ok cs /\
    Forall (fun c => snd c - fst c <= n / n_procs) cs /\
    n_procs <= Z.of_nat (length cs) /\
    (n mod n_procs = 0 ->
     Z.of_nat (length cs) = n_procs /\
     Forall (fun c => snd c - fst c = n / n_procs) cs) /\
    (n mod n_procs <> 0 -> n_procs < Z.of_nat (length cs)).
Proof.
  intros Hn. unfold chunks, floordiv.
  assert (Hc : 1 <= n / n_procs) by (apply Z.div_le_lower_bound; lia).
  pose proof (Z.div_mod n n_procs ltac:(lia)) as Hdm.
  pose proof (Z.mod_pos_bound n n_procs ltac:(lia)) as Hmod.
  set (c := n / n_procs) in *. set (r := n mod n_procs) in *.
  replace (n_procs =? 0) with false by (symmetry; apply Z.eqb_neq; lia).
  cbn [bind]. unfold range.
  replace (c =? 0) with false by (symmetry; apply Z.eqb_neq; lia).
  replace (0 <? c) with true by (symmetry; apply Z.ltb_lt; lia).
  cbn [bind]. eexists. split; [reflexivity|].
  rewrite !length_map, length_seq.
  set (len := (n - 0 + c - 1) / c).
  assert (Hlen : (len - 1) * c < n <= len * c).
  { unfold len. pose proof (Z.div_mod (n - 0 + c - 1) c ltac:(lia)) as Hd.
    pose proof (Z.mod_pos_bound (n - 0 + c - 1) c ltac:(lia)) as Hm. nia. }
  assert (Hpos : 0 <= len) by nia.
  rewrite Z2Nat.id by exact Hpos.
  split; [|split; [nia|split]].
  - apply Forall_forall. intros ch Hch.
    apply in_map_iff in Hch. destruct Hch as (i & <- & Hi).
    cbn [fst snd]. lia.
  - intros Hr. assert (len = n_procs) as Hl by nia. split; [exact Hl|].
    apply Forall_forall. intros ch Hch.
    apply in_map_iff in Hch. destruct Hch as (i & <- & Hi).
    apply in_map_iff in Hi. destruct Hi as (k & <- & Hk).
    apply in_seq in Hk. cbn [fst snd]. nia.
  - intros Hr. nia.
Qed.

Lemma chunks_sizes_witness :
  exists cs,
    chunks 10 4 = Ok cs /\
    Forall (fun c => snd c - fst c <= 10 / 4) cs /\
    4 <= Z.of_nat (length cs) /\
    (10 mod 4 = 0 ->
     Z.of_nat (length cs) = 4 /\
     Forall (fun c => snd c - fst c = 10 / 4) cs) /\
    (10 mod 4 <> 0 -> 4 < Z.of_nat (length cs)).
Proof. apply chunks_sizes. lia. Defined.

(** ** The two NBR values *)

Lemma wrap16_small (z : Z) : - 32768 <= z <= 32767 -> wrap16 z = z.
Proof. intros Hz. unfold wrap16. rewrite Z.mod_small; lia. Qed.

Lemma wrap16_above (z : Z) :
  32768 <= z <= 98303 -> wrap16 z = z - 65536.
Proof.
  intros Hz. unfold wrap16.
  rewrite <- (Z.mod_unique (z + 32768) 65536 1 (z + 32768 - 65536)); lia.
Qed.

Lemma quotient_sign (a b : Q) :
  ~ (b == 0)%Q ->
  exists q,
    fdiv (Fin a) (Fin b) = Fin q /\
    Qlt_bool q 0 = (Qlt_bool a 0 && Qlt_bool 0 b || Qlt_bool 0 a && Qlt_bool b 0)
    /\
    Qlt_bool 0 q = (Qlt_bool 0 a && Qlt_bool 0 b || Qlt_bool a 0 && Qlt_bool b 0).
Proof.
  intros Hb. cbn [fdiv].
  assert (Qeq_bool b 0 = false) as ->.
  { apply not_true_is_false. intros E. now apply Qeq_bool_iff in E. }
  eexists. split; [reflexivity|].
  assert (Hs : (0 < b)%Q \/ (b < 0)%Q).
  { destruct (Q_dec b 0) as [[H | H] | H]; [now right|now left|contradiction]. }
  split; apply eq_iff_eq_true;
    rewrite orb_true_iff, !andb_true_iff, !Qlt_bool_true.
  - split.
    + intros Hq. destruct Hs as [Hp | Hn].
      * left. split; [|exact Hp].
        apply (Qmult_lt_r _ _ b Hp) in Hq.
        rewrite Qmult_0_l in Hq.
        setoid_replace (a / b * b)%Q with a in Hq by (field; exact Hb).
        exact Hq.
      * right. split; [|exact Hn].
        assert (Hp : (0 < - b)%Q) by lra.
        apply (Qmult_lt_r _ _ (- b) Hp) in Hq.
        rewrite Qmult_0_l in Hq.
        setoid_replace (a / b * - b)%Q with (- a)%Q in Hq by (field; exact Hb).
        lra.
    + intros [[Ha Hp] | [Ha Hn]].
      * apply Qlt_shift_div_r; [exact Hp|]. now rewrite Qmult_0_l.
      * setoid_replace (a / b)%Q with ((- a) / (- b))%Q
          by (field; exact Hb).
        apply Qlt_shift_div_r; [lra|]. rewrite Qmult_0_l. lra.
  - split.
    + intros Hq. destruct Hs as [Hp | Hn].
      * left. split; [|exact Hp].
        apply (Qmult_lt_r _ _ b Hp) in Hq.
        rewrite Qmult_0_l in Hq.
        setoid_replace (a / b * b)%Q with a in Hq by (field; exact Hb).
        exact Hq.
      * right. split; [|exact Hn].
        assert (Hp : (0 < - b)%Q) by lra.
        apply (Qmult_lt_r _ _ (- b) Hp) in Hq.
        rewrite Qmult_0_l in Hq.
        setoid_replace (a / b * - b)%Q with (- a)%Q in Hq by (field; exact Hb).
        lra.
    + intros [[Ha Hp] | [Ha Hn]].
      * apply Qlt_shift_div_l; [exact Hp|]. now rewrite Qmult_0_l.
      * setoid_replace (a / b)%Q with ((- a) / (- b))%Q
          by (field; exact Hb).
        apply Qlt_shift_div_l; [lra|]. rewrite Qmult_0_l. lra.
Qed.

Lemma Qlt_bool_inject (x y : Z) :
  Qlt_bool (inject_Z x) (inject_Z y) = (x <? y).
Proof.
  apply eq_iff_eq_true. rewrite Qlt_bool_true, Z.ltb_lt, <- Zlt_Qlt.
  reflexivity.
Qed.

Lemma quotient_sign_int (x w : Z) :
  w <> 0 ->
  exists q,
    fdiv (of_Z x) (of_Z w) = Fin q /\
    flt (Fin q) fzero = ((x <? 0) && (0 <? w) || (0 <? x) && (w <? 0)) /\
    flt fzero (Fin q) = ((0 <? x) && (0 <? w) || (x <? 0) && (w <? 0)).
Proof.
  intros Hw.
  destruct (quotient_sign (inject_Z x) (inject_Z w)) as (q & Hq & Hn & Hp).
  { change 0%Q with (inject_Z 0). rewrite inject_Z_injective. exact Hw. }
  exists q. split; [exact Hq|]. cbn [flt fzero].
  change 0%Q with (inject_Z 0) in Hn, Hp |- *.
  rewrite !Qlt_bool_inject in Hn, Hp. now split.
Qed.

(** Property X11.
    The NBR the worker [dist_distance] computes in [int16] arithmetic
    against the NBR [distances] stores, for positive [int16] reflectances.
    The stored value is a number strictly between -1 and 1, negative exactly
    when the near-infrared value is below the short-wave infrared value and
    positive exactly when it is above.  The worker's value is finite as
    well.  It has the sign of the stored value when the sum of the two bands
    does not exceed 32767; beyond that the [int16] sum has wrapped around to
    a negative number and the worker's value has the opposite sign: negative
    exactly when the near-infrared value is above the short-wave infrared
    value. *)
Theorem nbr_int16_against_stored (nir swir2 : Z) :
  0 < nir <= 32767 -> 0 < swir2 <= 32767 ->
  (exists q, stored_nbr nir swir2 = Fin q /\ (- (1) < q)%Q /\ (q < 1)%Q) /\
  flt (stored_nbr nir swir2) fzero = (nir <? swir2) /\
  flt fzero (stored_nbr nir swir2) = (swir2 <? nir) /\
  isfinite (nbr_int16 nir swir2) = true /\
  (nir + swir2 <= 32767 ->
   flt (nbr_int16 nir swir2) fzero = (nir <? swir2) /\
   flt fzero (nbr_int16 nir swir2) = (swir2 <? nir)) /\
  (32767 < nir + swir2 ->
   flt (nbr_int16 nir swir2) fzero = (swir2 <? nir) /\
   flt fzero (nbr_int16 nir swir2) = (nir <? swir2)).
Proof.
  intros Hn Hs.
  assert (Hsum : ~ (inject_Z nir + inject_Z swir2 == 0)%Q).
  { rewrite <- inject_Z_plus. change 0%Q with (inject_Z 0).
    rewrite inject_Z_injective. lia. }
  assert (Hst : stored_nbr nir swir2
                = fdiv (of_Z (nir - swir2)) (of_Z (nir + swir2))).
  { unfold stored_nbr, nan_if_nonpos.
    replace (nir <=? 0) with false by (symmetry; apply Z.leb_gt; lia).
    replace (swir2 <=? 0) with false by (symmetry; apply Z.leb_gt; lia).
    unfold of_Z, fsub, fneg, fadd.
    now rewrite <- inject_Z_opp, <- !inject_Z_plus. }
  assert (Hni : (0 < inject_Z nir)%Q)
    by (change 0%Q with (inject_Z 0); rewrite <- Zlt_Qlt; lia).
  assert (Hsi : (0 < inject_Z swir2)%Q)
    by (change 0%Q with (inject_Z 0); rewrite <- Zlt_Qlt; lia).
  assert (Hb : forall c d : bool, (c = true <-> d = true) -> c = d)
    by (intros c d; apply eq_iff_eq_true).
  destruct (quotient_sign_int (nir - swir2) (nir + swir2))
    as (q & Hq & Hneg & Hpos); [lia|].
  split; [|split; [|split]].
  - exists q. split; [now rewrite Hst|].
    rewrite <- Hst in Hq. clear Hneg Hpos.
    unfold stored_nbr, nan_if_nonpos in Hq.
    replace (nir <=? 0) with false in Hq by (symmetry; apply Z.leb_gt; lia).
    replace (swir2 <=? 0) with false in Hq
      by (symmetry; apply Z.leb_gt; lia).
    cbn [of_Z fsub fneg fadd fdiv] in Hq.
    destruct (Qeq_bool (inject_Z nir + inject_Z swir2) 0) eqn:E;
      [apply Qeq_bool_iff in E; contradiction|].
    injection Hq as <-. split.
    + apply Qlt_shift_div_l; lra.
    + apply Qlt_shift_div_r; lra.
  - rewrite Hst, Hq, Hneg. apply Hb.
    rewrite orb_true_iff, !andb_true_iff, !Z.ltb_lt. lia.
  - rewrite Hst, Hq, Hpos. apply Hb.
    rewrite orb_true_iff, !andb_true_iff, !Z.ltb_lt. lia.
  - unfold nbr_int16.
    rewrite (wrap16_small (nir - swir2)) by lia.
    assert (Hw : wrap16 (nir + swir2) <> 0 /\
                 (wrap16 (nir + swir2) = nir + swir2 /\ nir + swir2 <= 32767 \/
                  wrap16 (nir + swir2) = nir + swir2 - 65536 /\
                  32767 < nir + swir2)).
    { destruct (Z.le_gt_cases (nir + swir2) 32767) as [Hle | Hgt].
      - rewrite wrap16_small by lia. split; [lia|left; lia].
      - rewrite wrap16_above by lia. split; [lia|right; lia]. }
    destruct Hw as [Hw0 Hw]. set (w := wrap16 (nir + swir2)) in *.
    destruct (quotient_sign_int (nir - swir2) w Hw0)
      as (q' & -> & Hneg' & Hpos').
    split; [reflexivity|]. rewrite Hneg', Hpos'.
    split; intros Hcase; split; apply Hb;
      rewrite orb_true_iff, !andb_true_iff, !Z.ltb_lt; lia.
Qed.

Lemma nbr_int16_against_stored_witness :
  flt (stored_nbr 30000 10000) fzero = false /\
  flt fzero (stored_nbr 30000 10000) = true /\
  flt (nbr_int16 30000 10000) fzero = true /\
  flt (nbr_int16 3000 1000) fzero = false.
Proof.
  destruct (nbr_int16_against_stored 30000 10000)
    as (_ & H1 & H2 & _ & _ & Hwrap); [lia|lia|].
  destruct (nbr_int16_against_stored 3000 1000)
    as (_ & _ & _ & _ & Hok & _); [lia|lia|].
  split; [exact H1|]. split; [exact H2|]. split.
  - now apply Hwrap.
  - now apply Hok.
Defined.

(** ** Region growing: the regions that are looked at *)

Lemma fold_max_spec (l : list Z) (a : Z) :
  In (fold_left Z.max l a) (a :: l) /\
  forall x, In x (a :: l) -> x <= fold_left Z.max l a.
Proof.
  revert a. induction l as [|b l IH]; intros a.
  - split; [now left|]. intros x [<- | []]. cbn. lia.
  - cbn [fold_left]. destruct (IH (Z.max a b)) as [Hin Hle]. split.
    + destruct Hin as [E | Hin]; [|right; now right].
      rewrite <- E. destruct (Z.max_spec a b) as [[_ ->] | [_ ->]];
        [right; now left|now left].
    + pose proof (Hle (Z.max a b) (or_introl eq_refl)) as Hm.
      intros x [E | [E | Hx]]; [lia|lia|].
      apply Hle. now right.
Qed.

Lemma np_max_spec (l : list Z) (top : Z) :
  np_max l = Ok top -> In top l /\ forall x, In x l -> x <= top.
Proof.
  destruct l as [|a l]; [discriminate|]. cbn [np_max]. intros E.
  injection E as <-. apply fold_max_spec.
Qed.

Lemma range_by_one (a b : Z) :
  exists l, range a b 1 = Ok l /\ forall x, In x l -> a <= x < b.
Proof.
  unfold range. cbn [Z.eqb Z.ltb Z.compare]. eexists. split; [reflexivity|].
  intros x Hx. apply in_map_iff in Hx. destruct Hx as (k & <- & Hk).
  apply in_seq in Hk. rewrite Z.div_1_r in Hk. lia.
Qed.

Lemma relabel_length (labels : list Z) (SeedMap : list Z) (ris : list Z) :
  forall NP : list fl,
    length NP = length labels ->
    length (fold_left
              (fun NewPotential ri =>
                 map2 (fun (l : Z) v =>
                         if l =? ri then region_mean labels SeedMap ri else v)
                      labels NewPotential) ris NP) = length labels.
Proof.
  induction ris as [|ri ris IH]; intros NP HNP; [exact HNP|].
  cbn [fold_left]. apply IH. rewrite length_map2. lia.
Qed.

Lemma relabel_other (labels : list Z) (SeedMap : list Z) (i : nat) (l : Z)
  (ris : list Z) :
  nth_error labels i = Some l -> (forall ri, In ri ris -> ri <> l) ->
  forall NP : list fl,
    length NP = length labels ->
    nth_error (fold_left
                 (fun NewPotential ri =>
                    map2 (fun (l : Z) v =>
                            if l =? ri then region_mean labels SeedMap ri
                            else v)
                         labels NewPotential) ris NP) i
    = nth_error NP i.
Proof.
  intros Hl. induction ris as [|ri ris IH]; intros Hne NP HNP;
    [reflexivity|].
  cbn [fold_left].
  rewrite (IH (fun r Hr => Hne r (or_intror Hr)))
    by (rewrite length_map2; lia).
  rewrite nth_error_map2, Hl.
  assert (Hi : (i < length NP)%nat)
    by (rewrite HNP; apply nth_error_Some; congruence).
  rewrite (nth_error_nth' NP NaN Hi).
  replace (l =? ri) with false; [reflexivity|].
  symmetry. apply Z.eqb_neq. intros E. apply (Hne ri); [now left|now symmetry].
Qed.

(** Property X12.
    The loop [for ri in range(1, np.max(np.unique(all_labels)))] stops
    one label short: on a labelled grid, the new potential keeps its initial
    value not only on the background (labels below 1) but also on the region
    with the highest label, which is never given its seed fraction. *)
Theorem new_potential_skips_highest_label (labels SeedMap : list Z)
  (init : list fl) :
  labels <> [] -> length init = length labels ->
  exists r,
    new_potential labels SeedMap init = Ok r /\
    length r = length labels /\
    forall i l,
      nth_error labels i = Some l ->
      l <= 0 \/ (forall l', In l' labels -> l' <= l) ->
      nth_error r i = nth_error init i.
Proof.
  intros Hne Hlen. unfold new_potential.
  destruct (np_max (np_unique labels)) as [top|e] eqn:Emax.
  2:{ exfalso. destruct labels as [|a labels]; [congruence|].
      assert (In a (np_unique (a :: labels)))
        by (apply np_unique_In; now left).
      destruct (np_unique (a :: labels)); [contradiction|discriminate]. }
  cbn [bind]. destruct (np_max_spec _ _ Emax) as [Htop _].
  apply (proj1 (np_unique_In top labels)) in Htop.
  destruct (range_by_one 1 top) as (ris & -> & Hris). cbn [bind].
  eexists. split; [reflexivity|]. split.
  - now apply relabel_length.
  - intros i l Hl Hcase.
    apply (relabel_other labels SeedMap i l ris Hl); [|exact Hlen].
    intros ri Hri E. subst ri. specialize (Hris l Hri).
    destruct Hcase as [H0 | Hmax]; [lia|].
    specialize (Hmax top Htop). lia.
Qed.

Lemma new_potential_skips_highest_label_witness :
  exists r,
    new_potential [0; 1; 1; 2] [0; 1; 0; 1] (repeat fzero 4) = Ok r /\
    nth_error r 3 = Some fzero.
Proof.
  destruct (new_potential_skips_highest_label [0; 1; 1; 2] [0; 1; 0; 1]
              (repeat fzero 4)) as (r & Hr & _ & Hkeep);
    [discriminate|reflexivity|].
  exists r. split; [exact Hr|].
  rewrite (Hkeep 3%nat 2); [reflexivity|reflexivity|].
  right. cbn [In]. intros l' Hl'. lia.
Defined.

(** ** Region growing with at most one region *)

Lemma foldM_invariant {A S : Type} (f : S -> A -> res S) (I : S -> Prop)
  (l : list A) :
  (forall s a s', In a l -> I s -> f s a = Ok s' -> I s') ->
  forall s s', I s -> foldM f l s = Ok s' -> I s'.
Proof.
  induction l as [|a l IH]; intros Hstep s s' Hs Hfold.
  - cbn in Hfold. now injection Hfold as <-.
  - cbn [foldM] in Hfold. destruct (f s a) as [s1|e] eqn:E; [|discriminate].
    cbn [bind] in Hfold.
    apply (IH (fun s a' s' Ha => Hstep s a' s' (or_intror Ha)) s1 s');
      [|exact Hfold].
    apply (Hstep s a s1); [now left|exact Hs|exact E].
Qed.

Lemma Forall_map2 {A B C : Type} (P : A -> Prop) (Q : B -> Prop)
  (R : C -> Prop) (f : A -> B -> C) (l : list A) (m : list B) :
  (forall a b, P a -> Q b -> R (f a b)) ->
  Forall P l -> Forall Q m -> Forall R (map2 f l m).
Proof.
  intros Hf Hl. revert m. induction Hl as [|a l Ha Hl IH]; intros m Hm;
    [constructor|].
  destruct Hm as [|b m Hb Hm]; [constructor|].
  cbn [map2]. constructor; [now apply Hf|now apply IH].
Qed.

Lemma new_potential_one_region (labels SeedMap : list Z) (init r : list fl) :
  Forall (fun l => l <= 1) labels ->
  new_potential labels SeedMap init = Ok r -> r = init.
Proof.
  intros Hone. unfold new_potential.
  destruct (np_max (np_unique labels)) as [top|e] eqn:Emax; [|discriminate].
  cbn [bind]. destruct (np_max_spec _ _ Emax) as [Htop _].
  apply (proj1 (np_unique_In top labels)) in Htop.
  rewrite Forall_forall in Hone. specialize (Hone top Htop).
  unfold range. cbn [Z.eqb Z.ltb Z.compare bind].
  rewrite Z.div_1_r. replace (Z.to_nat (top - 1 + 1 - 1)) with 0%nat by lia.
  cbn. intros E. now injection E.
Qed.

Section OneRegion.

Variable label : list Z -> list Z.
Hypothesis Hone : forall g, Forall (fun l => l <= 1) (label g).

Let zeroish (v : fl) : Prop := exists q, v = Fin q /\ (q == 0)%Q.

Let idle (st : growth) : Prop :=
  Forall zeroish (AnnualMap st) /\
  Forall (fun d => d = fzero) (BurnCube.Startdates st) /\
  Forall (fun b => b = 0) (tmpMap st).

Lemma zeroish_not_positive (v : fl) : zeroish v -> bool_int (fgt v fzero) = 0.
Proof.
  intros (q & -> & Hq). unfold fgt. cbn [flt fzero].
  assert (Qlt_bool 0 q = false) as ->; [|reflexivity].
  apply Qlt_bool_false. rewrite Hq. apply Qle_refl.
Qed.

Lemma grow_step_idle (dists : dists_ds) (outlrs : outlrs_ds)
  (SeedMap : list Z) (ref_date : Z) (st st' : growth) (d : Z) :
  idle st ->
  grow_step label dists outlrs SeedMap ref_date st d = Ok st' -> idle st'.
Proof.
  intros (HA & HS & HT). unfold grow_step.
  destruct (next_obs _ d) as [ti|e]; [|discriminate]. cbn [bind].
  destruct (potential dists outlrs ti) as [Potential|e]; [|discriminate].
  cbn [bind].
  destruct (new_potential _ _ _) as [NP|e] eqn:ENP; [|discriminate].
  cbn [bind]. apply (new_potential_one_region _ _ _ _ (Hone _)) in ENP.
  subst NP. intros E. injection E as <-.
  assert (HA' : Forall zeroish
                  (map2 fadd (AnnualMap st)
                     (map (fun v => of_Z (bool_int (fgt v fraction_seedmap)))
                          (map (fun _ : Z => fzero) SeedMap)))).
  { apply (Forall_map2 zeroish (fun x => x = of_Z 0)); [|exact HA|].
    - intros a b (q & -> & Hq) ->. exists (q + inject_Z 0)%Q.
      split; [reflexivity|]. rewrite Hq. reflexivity.
    - apply Forall_forall. intros x Hx. rewrite map_map in Hx.
      apply in_map_iff in Hx. destruct Hx as (z & <- & _). reflexivity. }
  assert (HT' : Forall (fun b => b = 0)
                  (map (fun v => bool_int (fgt v fzero))
                     (map2 fadd (AnnualMap st)
                        (map (fun v =>
                                of_Z (bool_int (fgt v fraction_seedmap)))
                             (map (fun _ : Z => fzero) SeedMap))))).
  { apply Forall_forall. intros b Hb. apply in_map_iff in Hb.
    destruct Hb as (v & <- & Hv). apply zeroish_not_positive.
    rewrite Forall_forall in HA'. now apply HA'. }
  split; [exact HA'|]. split; [|exact HT'].
  cbn [BurnCube.Startdates].
  apply (Forall_map2 (fun c => c = false) (fun x => x = fzero));
    [now intros a b -> ->| |exact HS].
  destruct (d <? ref_date);
    apply (Forall_map2 (fun a => a = 0) (fun b => b = 0));
    trivial; now intros a b -> ->.
Qed.

(** Property X13.
    When the labelling never finds more than one region, no region is
    ever looked at, and [region_growing], if it returns, returns a burn
    extent that is 0 everywhere and start dates that are 0 everywhere,
    whatever the seeds: a single connected burn scar is not grown. *)
Theorem region_growing_one_region (dists : dists_ds) (outlrs : outlrs_ds)
  (sev : severity_ds) (BurnExtent : list Z) (Startdates : list fl) :
  region_growing label dists outlrs sev = Ok (BurnExtent, Startdates) ->
  Forall (fun b => b = 0) BurnExtent /\
  Forall (fun d => d = fzero) Startdates.
Proof.
  unfold region_growing. cbv zeta.
  destruct (np_max _) as [top|e]; [|discriminate]. cbn [bind].
  destruct (get _ 0) as [ii|e]; [|discriminate]. cbn [bind].
  destruct (get _ ii) as [ref_date|e]; [|discriminate]. cbn [bind].
  destruct (next_obs _ ref_date) as [ti|e]; [|discriminate]. cbn [bind].
  destruct (potential dists outlrs ti) as [Potential|e]; [|discriminate].
  cbn [bind].
  destruct (new_potential _ _ _) as [NP|e] eqn:ENP; [|discriminate].
  cbn [bind]. apply (new_potential_one_region _ _ _ _ (Hone _)) in ENP.
  subst NP.
  destruct (foldM _ _ _) as [st|e] eqn:Efold; [|discriminate].
  cbn [bind]. intros E. injection E as <- <-.
  assert (HI : idle st).
  { refine (foldM_invariant _ idle _ _ _ _ _ Efold).
    - intros s a s' _ Hs Hstep. exact (grow_step_idle _ _ _ _ _ _ _ Hs Hstep).
    - split; [|split]; cbn [AnnualMap BurnCube.Startdates tmpMap].
      + apply Forall_forall. intros v Hv. apply in_map_iff in Hv.
        destruct Hv as (x & <- & _). exists 0%Q. now split.
      + apply (Forall_map2 (fun v => v = fzero) (fun z => z = fzero)).
        * now intros a b -> ->.
        * apply Forall_forall. intros v Hv. apply in_map_iff in Hv.
          now destruct Hv as (x & <- & _).
        * apply Forall_forall. intros z Hz'. now apply repeat_spec in Hz'.
      + apply Forall_forall. intros b Hb. rewrite map_map in Hb.
        apply in_map_iff in Hb. now destruct Hb as (x & <- & _). }
  destruct HI as (HA & HS & _). split; [|exact HS].
  apply Forall_forall. intros b Hb. apply in_map_iff in Hb.
  destruct Hb as (v & <- & Hv). apply zeroish_not_positive.
  rewrite Forall_forall in HA. now apply HA.
Qed.

End OneRegion.

Lemma region_growing_one_region_witness :
  region_growing label_one_region rg_dists rg_outlrs
    (rg_severity (of_Z rg_last)) = Ok ([0], [fzero]) /\
  Forall (fun b => b = 0) [0] /\
  Forall (fun d => d = fzero) [fzero].
Proof.
  assert (H : region_growing label_one_region rg_dists rg_outlrs
                (rg_severity (of_Z rg_last)) = Ok ([0], [fzero]))
    by (vm_compute; reflexivity).
  split; [exact H|].
  refine (region_growing_one_region label_one_region _ rg_dists rg_outlrs
            (rg_severity (of_Z rg_last)) [0] [fzero] H).
  intros g. unfold label_one_region. apply Forall_forall. intros l Hl.
  apply in_map_iff in Hl. destruct Hl as (v & <- & _).
  destruct (v =? 0); cbn; lia.
Defined.

(** ** Region growing: the dates it assigns *)

Lemma get_In {A : Type} (l : list A) (i : nat) (a : A) :
  get l i = Ok a -> In a l.
Proof.
  unfold get. destruct (nth_error l i) as [x|] eqn:E; [|discriminate].
  intros H. injection H as <-. eapply nth_error_In, E.
Qed.

Lemma bool_int_01 (b : bool) : bool_int b = 0 \/ bool_int b = 1.
Proof. destruct b; auto. Qed.

(** Property X14.
    [region_growing] assigns dates, it does not make any: every entry of
    the start dates it returns is 0, which [severitymapping] turns into NaN,
    or the date of a defined start date of the severity map it was given;
    and every entry of the burn extent is 0 or 1. *)
Theorem region_growing_dates (label : list Z -> list Z)
  (dists : dists_ds) (outlrs : outlrs_ds) (sev : severity_ds)
  (BurnExtent : list Z) (Startdates : list fl) :
  region_growing label dists outlrs sev = Ok (BurnExtent, Startdates) ->
  Forall (fun b => b = 0 \/ b = 1) BurnExtent /\
  Forall (fun x => x = fzero \/
                   exists v, In v (StartDate sev) /\ isnan v = false /\
                             x = of_Z (astype_datetime64 v))
         Startdates.
Proof.
  unfold region_growing. cbv zeta.
  assert (Hdate : forall d, In d (np_unique (start_dates sev)) ->
            exists v, In v (StartDate sev) /\ isnan v = false /\
                      of_Z d = of_Z (astype_datetime64 v)).
  { intros d Hd. apply (proj1 (np_unique_In d _)) in Hd.
    unfold start_dates in Hd. apply in_map_iff in Hd.
    destruct Hd as (v & <- & Hv). apply filter_In in Hv.
    destruct Hv as [Hv Hn]. apply negb_true_iff in Hn. now exists v. }
  set (PD := fun x : fl =>
                x = fzero \/
                exists v, In v (StartDate sev) /\ isnan v = false /\
                          x = of_Z (astype_datetime64 v)).
  destruct (np_max _) as [top|e]; [|discriminate]. cbn [bind].
  destruct (get _ 0) as [ii|e]; [|discriminate]. cbn [bind].
  destruct (get _ ii) as [ref_date|e] eqn:Eref; [|discriminate]. cbn [bind].
  apply get_In in Eref.
  destruct (next_obs _ ref_date) as [ti|e]; [|discriminate]. cbn [bind].
  destruct (potential dists outlrs ti) as [Potential|e]; [|discriminate].
  cbn [bind].
  destruct (new_potential _ _ _) as [NP|e]; [|discriminate]. cbn [bind].
  destruct (foldM _ _ _) as [st|e] eqn:Efold; [|discriminate].
  cbn [bind]. intros E. injection E as <- <-. split.
  - apply Forall_forall. intros b Hb. apply in_map_iff in Hb.
    destruct Hb as (v & <- & _). apply (bool_int_01 (fgt v fzero)).
  - refine (foldM_invariant _
              (fun st => Forall PD (BurnCube.Startdates st)) _ _ _ _ _ Efold).
    + intros s d s' Hd Hs. unfold grow_step.
      destruct (next_obs _ d) as [ti'|e]; [|discriminate]. cbn [bind].
      destruct (potential dists outlrs ti') as [P'|e]; [|discriminate].
      cbn [bind].
      destruct (new_potential _ _ _) as [NP'|e]; [|discriminate].
      cbn [bind]. intros E. injection E as <-. cbn [BurnCube.Startdates].
      apply (Forall_map2 (fun _ => True) PD); [| |exact Hs].
      * intros c old _ Hold. destruct c; [right; now apply Hdate|exact Hold].
      * apply Forall_forall. intros; exact Logic.I.
    + cbn [BurnCube.Startdates].
      apply (Forall_map2 (fun _ => True) (fun z => z = fzero)).
      * intros v z _ ->.
        destruct (fgt v fzero); [right; now apply Hdate|now left].
      * apply Forall_forall. intros; exact Logic.I.
      * apply Forall_forall. intros z Hz'. now apply repeat_spec in Hz'.
Qed.

Lemma region_growing_dates_witness :
  region_growing label_isolated rg4_dists rg4_outlrs rg4_severity
  = Ok ([1; 0; 0; 0], [of_Z rg4_start; fzero; fzero; fzero]) /\
  Forall (fun b => b = 0 \/ b = 1) [1; 0; 0; 0] /\
  Forall (fun x => x = fzero \/
                   exists v, In v (StartDate rg4_severity) /\
                             isnan v = false /\
                             x = of_Z (astype_datetime64 v))
         [of_Z rg4_start; fzero; fzero; fzero].
Proof.
  assert (H : region_growing label_isolated rg4_dists rg4_outlrs rg4_severity
              = Ok ([1; 0; 0; 0], [of_Z rg4_start; fzero; fzero; fzero]))
    by (vm_compute; reflexivity).
  split; [exact H|].
  exact (region_growing_dates label_isolated rg4_dists rg4_outlrs
           rg4_severity [1; 0; 0; 0] [of_Z rg4_start; fzero; fzero; fzero] H).
Defined.

(** ** The parallel stages against the loop over all pixels *)

Lemma chunks_visit_all (n n_procs : Z) :
  1 <= n_procs <= n ->
  exists cs, chunks n n_procs = Ok cs /\ all_visited cs = visited (0, n).
Proof.
  intros Hn. unfold chunks, floordiv.
  assert (Hc : 1 <= n / n_procs) by (apply Z.div_le_lower_bound; lia).
  set (c := n / n_procs) in *.
  replace (n_procs =? 0) with false by (symmetry; apply Z.eqb_neq; lia).
  cbn [bind]. unfold range.
  replace (c =? 0) with false by (symmetry; apply Z.eqb_neq; lia).
  replace (0 <? c) with true by (symmetry; apply Z.ltb_lt; lia).
  cbn [bind]. eexists. split; [reflexivity|].
  apply chunks_cover; [lia|lia|].
  pose proof (Z.div_mod (n - 0 + c - 1) c ltac:(lia)) as Hdm.
  pose proof (Z.mod_pos_bound (n - 0 + c - 1) c ltac:(lia)) as Hmod.
  assert (0 <= (n - 0 + c - 1) / c) by (apply Z.div_pos; lia).
  rewrite Z2Nat.id by assumption. nia.
Qed.

Section Stage.

Variable O : Type.
Variable step : nat -> O -> res O.
Variable f : nat -> O.

Lemma run_pixels_spec (js : list Z) :
  NoDup js -> (forall i, In i js -> 0 <= i) ->
  forall out,
    (forall i, In i js ->
       exists o, nth_error out (Z.to_nat i) = Some o /\
                 step (Z.to_nat i) o = Ok (f (Z.to_nat i))) ->
    forall k,
      nth_error (run_pixels step js out) k
      = if existsb (fun i => Nat.eqb (Z.to_nat i) k) js then Some (f k)
        else nth_error out k.
Proof.
  induction js as [|i js IH]; intros Hnd Hpos out Hstep k; [reflexivity|].
  inversion Hnd as [|? ? Hni Hnd']; subst.
  destruct (Hstep i (or_introl eq_refl)) as (o & Ho & Hs).
  cbn [run_pixels existsb]. unfold get. rewrite Ho. cbn [bind].
  rewrite Hs. cbn [bind].
  destruct (set_nth_ok out (Z.to_nat i) (f (Z.to_nat i))) as (out' & Hset & _).
  { apply nth_error_Some. congruence. }
  rewrite Hset. pose proof (set_nth_spec _ _ _ _ Hset) as Hout'.
  rewrite IH; trivial.
  - rewrite Hout'. rewrite (Nat.eqb_sym k).
    destruct (Nat.eqb (Z.to_nat i) k) eqn:E.
    + apply Nat.eqb_eq in E. subst k. cbn [orb].
      now destruct (existsb _ js).
    + reflexivity.
  - intros j Hj. now apply Hpos; right.
  - intros j Hj. destruct (Hstep j (or_intror Hj)) as (o' & Ho' & Hs').
    exists o'. split; [|exact Hs']. rewrite Hout'.
    replace (Nat.eqb (Z.to_nat j) (Z.to_nat i)) with false; [exact Ho'|].
    symmetry. apply Nat.eqb_neq. intros E.
    assert (j = i); [|congruence].
    pose proof (Hpos i (or_introl eq_refl)).
    pose proof (Hpos j (or_intror Hj)). lia.
Qed.

Lemma run_chunks_spec (cs : list (Z * Z)) :
  NoDup (all_visited cs) -> (forall i, In i (all_visited cs) -> 0 <= i) ->
  forall out,
    (forall i, In i (all_visited cs) ->
       exists o, nth_error out (Z.to_nat i) = Some o /\
                 step (Z.to_nat i) o = Ok (f (Z.to_nat i))) ->
    forall k,
      nth_error (run_chunks step cs out) k
      = if existsb (fun i => Nat.eqb (Z.to_nat i) k) (all_visited cs)
        then Some (f k) else nth_error out k.
Proof.
  unfold run_chunks.
  induction cs as [|c cs IH]; intros Hnd Hpos out Hstep k; [reflexivity|].
  cbn [all_visited flat_map] in *. fold (all_visited cs) in *.
  cbn [fold_left].
  pose proof (NoDup_app_remove_l _ _ Hnd) as Hnd2.
  pose proof (NoDup_app_remove_r _ _ Hnd) as Hnd1.
  assert (Hfirst : forall k,
            nth_error (run_pixels step (visited c) out) k
            = if existsb (fun i => Nat.eqb (Z.to_nat i) k) (visited c)
              then Some (f k) else nth_error out k).
  { apply run_pixels_spec; trivial.
    - intros i Hi. apply Hpos, in_or_app. now left.
    - intros i Hi. apply Hstep, in_or_app. now left. }
  rewrite IH; trivial.
  - rewrite existsb_app, Hfirst.
    destruct (existsb _ (visited c)); cbn [orb];
      now destruct (existsb _ (all_visited cs)).
  - intros i Hi. apply Hpos, in_or_app. now right.
  - intros i Hi.
    destruct (Hstep i (in_or_app _ _ _ (or_intror Hi))) as (o & Ho & Hs).
    exists o. split; [|exact Hs]. rewrite Hfirst.
    replace (existsb (fun j => Nat.eqb (Z.to_nat j) (Z.to_nat i)) (visited c))
      with false; [exact Ho|].
    symmetry. apply not_true_is_false. intros E.
    apply existsb_exists in E. destruct E as (j & Hj & Hji).
    apply Nat.eqb_eq in Hji.
    assert (j = i) as ->.
    { pose proof (Hpos j (in_or_app _ _ _ (or_introl Hj))).
      pose proof (Hpos i (in_or_app _ _ _ (or_intror Hi))). lia. }
    clear - Hnd Hj Hi. induction (visited c) as [|a l IHl]; [destruct Hj|].
    cbn [app] in Hnd. inversion Hnd as [|? ? Hna Hnd']; subst.
    destruct Hj as [-> | Hj]; [|now apply IHl].
    apply Hna, in_or_app. now right.
Qed.

Lemma stage_result (N : nat) (n_procs : Z) (fill : O) :
  1 <= n_procs <= Z.of_nat N ->
  (forall k, (k < N)%nat -> step k fill = Ok (f k)) ->
  exists cs,
    chunks (Z.of_nat N) n_procs = Ok cs /\
    run_chunks step cs (repeat fill N) = map f (seq 0 N).
Proof.
  intros Hn Hstep.
  destruct (chunks_visit_all (Z.of_nat N) n_procs Hn) as (cs & Hcs & Hall).
  exists cs. split; [exact Hcs|]. apply nth_error_ext. intros k.
  rewrite run_chunks_spec.
  - rewrite Hall, nth_error_map.
    destruct (Nat.lt_ge_cases k N) as [Hk | Hk].
    + rewrite (nth_error_nth' (seq 0 N) 0%nat) by now rewrite length_seq.
      rewrite seq_nth by exact Hk. cbn [option_map Nat.add].
      replace (existsb _ _) with true; [reflexivity|].
      symmetry. apply existsb_exists. exists (Z.of_nat k).
      split; [apply visited_range; lia|apply Nat.eqb_eq; lia].
    + rewrite (proj2 (nth_error_None (seq 0 N) k)) by now rewrite length_seq.
      rewrite (proj2 (nth_error_None (repeat fill N) k))
        by now rewrite repeat_length.
      replace (existsb _ _) with false; [reflexivity|].
      symmetry. apply not_true_is_false. intros E.
      apply existsb_exists in E. destruct E as (i & Hi & Hik).
      apply visited_range in Hi. apply Nat.eqb_eq in Hik. lia.
  - rewrite Hall. apply visited_NoDup.
  - rewrite Hall. intros i Hi. apply visited_range in Hi. lia.
  - rewrite Hall. intros i Hi. apply visited_range in Hi.
    exists fill. split; [apply nth_error_repeat; lia|apply Hstep; lia].
Qed.

End Stage.

(** Property X15.
    For [1 <= n_procs <= n] and an estimator that returns for every
    pixel, the array [hdgeomedian] leaves after the parallel stage holds,
    pixel by pixel, what the body of [dist_geomedian] gives for that pixel
    on the NaN fill: every pixel is written once, and the result does not
    depend on the number of workers. *)
Theorem hdgeomedian_per_pixel (geometric_median : pixel -> res (list fl))
  (g : pixel -> list fl) (X : list pixel) (p : nat) (n_procs : Z) :
  1 <= n_procs <= Z.of_nat (length X) ->
  (forall Xi, In Xi X ->
     dist_geomedian geometric_median Xi (gmed_fill p) = Ok (g Xi)) ->
  hdgeomedian geometric_median X p n_procs = Ok (map g X).
Proof.
  intros Hn Hg. unfold hdgeomedian.
  destruct (stage_result _
              (fun i gmed_i => Xi <- get X i ;;
                               dist_geomedian geometric_median Xi gmed_i)
              (fun k => g (nth k X [])) (length X) n_procs (gmed_fill p) Hn)
    as (cs & Hcs & Hrun).
  - intros k Hk. rewrite (@get_nth _ X k [] Hk). cbn [bind].
    apply Hg, nth_In, Hk.
  - rewrite Hcs. cbn [bind]. rewrite Hrun. f_equal. apply map_positions.
Qed.

(** Property X16.
    The same for [distances]: for [1 <= n_procs <= n], when the body of
    [dist_distance] returns for every pixel, the three arrays hold for each
    pixel what that body gives on the fill values and the pixel's column of
    the geometric median, whatever the number of workers. *)
Theorem distances_per_pixel
  (cos_distance : list fl -> pixel -> res (list fl))
  (nbr_eucdistance : fl -> list fl -> res (list fl * list fl))
  (g : nat -> distances_i) (X : list pixel) (gmed : list (list fl)) (T : nat)
  (n_procs : Z) :
  1 <= n_procs <= Z.of_nat (length X) ->
  length gmed = length X ->
  (forall k, (k < length X)%nat ->
     dist_distance cos_distance nbr_eucdistance (nth k X []) (nth k gmed [])
       (distances_fill T) = Ok (g k)) ->
  distances cos_distance nbr_eucdistance X gmed T n_procs
  = Ok (map g (seq 0 (length X))).
Proof.
  intros Hn Hlen Hg. unfold distances.
  destruct (stage_result _
              (fun i out_i =>
                 Xi <- get X i ;;
                 gmed_i <- get gmed i ;;
                 dist_distance cos_distance nbr_eucdistance Xi gmed_i out_i)
              g (length X) n_procs (distances_fill T) Hn)
    as (cs & Hcs & Hrun).
  - intros k Hk. rewrite (@get_nth _ X k [] Hk). cbn [bind].
    rewrite (@get_nth _ gmed k []) by (rewrite Hlen; exact Hk). cbn [bind].
    now apply Hg.
  - rewrite Hcs. cbn [bind]. now rewrite Hrun.
Qed.

Lemma hdgeomedian_per_pixel_witness :
  hdgeomedian
    (fun sub => geometric_median 42 (map (map of_Z) sub) (Fin (1 # 2)) 40)
    scene 6 2
  = Ok (map (fun Xi =>
               match dist_geomedian
                       (fun sub => geometric_median 42 (map (map of_Z) sub)
                                     (Fin (1 # 2)) 40)
                       Xi (gmed_fill 6) with
               | Ok c => c
               | Err _ => []
               end) scene).
Proof.
  apply hdgeomedian_per_pixel; [cbn; lia|].
  intros Xi [<- | [<- | [<- | []]]]; vm_compute; reflexivity.
Defined.

Lemma distances_per_pixel_witness :
  distances (fun ref obs => cosdistance ref (map (map of_Z) obs))
    nbr_eucdistance scene [cx_gmed; repeat NaN 6; cx_gmed] 2 2
  = Ok (map (fun k =>
               match dist_distance
                       (fun ref obs => cosdistance ref (map (map of_Z) obs))
                       nbr_eucdistance (nth k scene [])
                       (nth k [cx_gmed; repeat NaN 6; cx_gmed] [])
                       (distances_fill 2) with
               | Ok r => r
               | Err _ => distances_fill 2
               end) (seq 0 (length scene))).
Proof.
  apply distances_per_pixel; [cbn; lia|reflexivity|].
  intros k Hk. cbn [length scene] in Hk.
  destruct k as [|[|[|k]]]; [| | |lia]; vm_compute; reflexivity.
Defined.

(** ** The worker of [distances] at the valid time steps *)

Lemma combine_nth_error {A B : Type} (l : list A) (m : list B) (k : nat)
  (a : A) (b : B) :
  nth_error l k = Some a -> nth_error m k = Some b -> In (a, b) (combine l m).
Proof.
  revert m k. induction l as [|x l IH]; intros m k Ha Hb;
    [destruct k; discriminate|].
  destruct m as [|y m]; [destruct k; discriminate|].
  destruct k as [|k]; cbn in Ha, Hb |- *.
  - injection Ha as ->. injection Hb as ->. now left.
  - right. now apply (IH m k).
Qed.

Lemma map_fst_combine {A B : Type} (l : list A) (m : list B) :
  length l = length m -> map fst (combine l m) = l.
Proof.
  revert m. induction l as [|x l IH]; intros [|y m] E;
    try discriminate E; [reflexivity|].
  cbn. f_equal. apply IH. now injection E.
Qed.

Lemma scatter_at {A : Type} (out r : list A) (idx : list nat) (vals : list A)
  (k t : nat) :
  scatter out idx vals = Ok r -> NoDup idx -> nth_error idx k = Some t ->
  nth_error r t = nth_error vals k.
Proof.
  unfold scatter.
  destruct (Nat.eqb (length idx) (length vals)) eqn:E; [|discriminate].
  apply Nat.eqb_eq in E. intros Hs Hnd Hk.
  destruct (nth_error vals k) as [v|] eqn:Ev.
  - apply (scatter_zip_hit _ _ _ _ _ Hs).
    + now rewrite map_fst_combine.
    + now apply (combine_nth_error idx vals k).
  - apply nth_error_None in Ev.
    assert (k < length idx)%nat by (apply nth_error_Some; congruence). lia.
Qed.

(** Property X17.
    [dist_distance] on a pixel with at least six bands of [T] time steps
    each, at least one of them valid, and the fill values of [distances],
    with any two functions for the cosine distance and the NBR distance that
    return one value per valid time step: the worker returns three columns
    of [T] entries, and at the [k]-th valid time step they hold the [k]-th
    cosine distance, the [k]-th NBR distance and, cast to [int16], the
    [k]-th direction the two functions returned.  The NBR function is given
    the NBR of the geometric median and, for the valid time steps in order,
    the NBR computed in [int16] from bands 3 and 5. *)
Theorem dist_distance_valid_steps
  (cos_distance : list fl -> pixel -> res (list fl))
  (nbr_eucdistance : fl -> list fl -> res (list fl * list fl))
  (Xi : pixel) (T : nat) (gmed_i : list fl) (ind : list nat) (sub : pixel)
  (cd D S : list fl) :
  (6 <= length Xi)%nat -> rectangular T Xi -> (6 <= length gmed_i)%nat ->
  valid_ind Xi = Ok ind -> ind <> [] ->
  select_steps Xi ind = Ok sub ->
  cos_distance gmed_i sub = Ok cd -> length cd = length ind ->
  nbr_eucdistance
    (fdiv (fsub (nth 3 gmed_i NaN) (nth 5 gmed_i NaN))
          (fadd (nth 3 gmed_i NaN) (nth 5 gmed_i NaN)))
    (map (fun t => nbr_int16 (nth t (nth 3 Xi []) 0) (nth t (nth 5 Xi []) 0))
         ind)
  = Ok (D, S) ->
  length D = length ind -> length S = length ind ->
  exists o,
    dist_distance cos_distance nbr_eucdistance Xi gmed_i (distances_fill T)
    = Ok o /\
    length (cos_dist o) = T /\ length (nbr_dist o) = T /\
    length (direction o) = T /\
    forall k t, nth_error ind k = Some t ->
      nth_error (cos_dist o) t = nth_error cd k /\
      nth_error (nbr_dist o) t = nth_error D k /\
      nth_error (direction o) t = option_map fl_to_int16 (nth_error S k).
Proof.
  intros HXi Hrect Hg Hvi Hne Hsel Hcd Hcl Hf HD HS.
  assert (Hrow : forall b, (b < length Xi)%nat -> length (nth b Xi []) = T).
  { intros b Hb. unfold rectangular in Hrect. rewrite Forall_forall in Hrect.
    apply Hrect, nth_In, Hb. }
  assert (Hm : ind = np_where (map (fun v => 0 <? v) (nth 1 Xi []))).
  { unfold valid_ind in Hvi. rewrite (@get_nth _ Xi 1 []) in Hvi by lia.
    cbn [bind] in Hvi. now injection Hvi. }
  assert (Hind : Forall (fun t => (t < T)%nat) ind).
  { rewrite Hm. apply Forall_forall. intros t Ht. apply np_where_In in Ht.
    rewrite length_map, Hrow in Ht by lia. tauto. }
  assert (Hnd : NoDup ind) by (rewrite Hm; apply np_where_NoDup).
  unfold dist_distance. rewrite Hvi. cbn [bind].
  replace (0 <? length ind)%nat with true
    by (destruct ind; [congruence|reflexivity]).
  rewrite Hsel. cbn [bind]. rewrite Hcd.
  cbn [bind cos_dist nbr_dist direction distances_fill].
  destruct (scatter_ok (repeat NaN T) ind cd) as (c' & Hc' & Hcl');
    [now rewrite repeat_length|exact Hcl|].
  rewrite Hc'. cbn [bind].
  rewrite (@get_nth _ gmed_i 3 NaN), (@get_nth _ gmed_i 5 NaN) by lia.
  cbn [bind].
  rewrite (@get_nth _ Xi 3 []), (@get_nth _ Xi 5 []) by lia. cbn [bind].
  set (nbrs := map2 nbr_int16 (nth 3 Xi []) (nth 5 Xi [])).
  assert (Hnl : length nbrs = T).
  { unfold nbrs. rewrite length_map2, !Hrow by lia. lia. }
  rewrite (take_nth nbrs ind NaN) by now rewrite Hnl.
  cbn [bind].
  assert (Hsame : map (fun i => nth i nbrs NaN) ind
                  = map (fun t => nbr_int16 (nth t (nth 3 Xi []) 0)
                                            (nth t (nth 5 Xi []) 0)) ind).
  { apply map_ext_in. intros t Ht. rewrite Forall_forall in Hind.
    specialize (Hind t Ht). unfold nbrs.
    apply nth_map2_lt; rewrite Hrow; lia. }
  rewrite Hsame, Hf. cbn [bind fst snd].
  destruct (scatter_ok (repeat NaN T) ind D) as (d' & Hd' & Hdl');
    [now rewrite repeat_length|exact HD|].
  rewrite Hd'. cbn [bind].
  destruct (scatter_ok (repeat 0 T) ind (map fl_to_int16 S))
    as (s' & Hs' & Hsl');
    [now rewrite repeat_length|now rewrite length_map|].
  rewrite Hs'. cbn [bind].
  eexists. split; [reflexivity|]. cbn [cos_dist nbr_dist direction].
  rewrite repeat_length in Hcl', Hdl', Hsl'.
  split; [exact Hcl'|]. split; [exact Hdl'|]. split; [exact Hsl'|].
  intros k t Hk. split; [|split].
  - apply (scatter_at _ _ _ _ _ _ Hc' Hnd Hk).
  - apply (scatter_at _ _ _ _ _ _ Hd' Hnd Hk).
  - rewrite (scatter_at _ _ _ _ _ _ Hs' Hnd Hk). apply nth_error_map.
Qed.

Lemma dist_distance_valid_steps_witness :
  exists o,
    dist_distance (fun ref obs => cosdistance ref (map (map of_Z) obs))
      Toolbox.nbr_eucdistance small_pixel small_gmed (distances_fill 3)
    = Ok o /\
    nth_error (direction o) 0 = Some 0 /\
    nth_error (direction o) 2 = Some 1 /\
    exists c, nth_error (cos_dist o) 2 = Some c /\ isfinite c = true.
Proof.
  edestruct (dist_distance_valid_steps
               (fun ref obs => cosdistance ref (map (map of_Z) obs))
               Toolbox.nbr_eucdistance small_pixel 3 small_gmed [0; 2]%nat
               [[30; 28]; [40; 39]; [20; 19]; [150; 60]; [50; 48]; [100; 120]])
    as (o & Ho & _ & _ & _ & Hent).
  - cbn. lia.
  - repeat constructor.
  - cbn. lia.
  - reflexivity.
  - discriminate.
  - reflexivity.
  - vm_compute. reflexivity.
  - reflexivity.
  - vm_compute. reflexivity.
  - reflexivity.
  - reflexivity.
  - exists o. split; [exact Ho|].
    destruct (Hent 0%nat 0%nat eq_refl) as (_ & _ & H0).
    destruct (Hent 1%nat 2%nat eq_refl) as (Hc & _ & H2).
    split; [exact H0|]. split; [exact H2|].
    eexists. split; [exact Hc|]. reflexivity.
Defined.

(** ** validationtoolbox.py: the forward fill *)

Lemma length_shift_fwd (a : list fl) : length (shift_fwd a) = length a.
Proof. unfold shift_fwd. rewrite length_firstn. cbn [length]. lia. Qed.

Lemma nth_shift_fwd (a : list fl) (t : nat) :
  (t < length a)%nat ->
  nth t (shift_fwd a) NaN = match t with O => NaN | S t' => nth t' a NaN end.
Proof.
  intros Ht. unfold shift_fwd. rewrite nth_firstn.
  apply Nat.ltb_lt in Ht. rewrite Ht. now destruct t.
Qed.

Lemma length_fill_step (a : list fl) :
  length (fillna a (shift_fwd a)) = length a.
Proof. unfold fillna. rewrite length_map2, length_shift_fwd. lia. Qed.

Lemma nth_fill_step (a : list fl) (t : nat) :
  (t < length a)%nat ->
  nth t (fillna a (shift_fwd a)) NaN
  = if isnan (nth t a NaN)
    then match t with O => NaN | S t' => nth t' a NaN end
    else nth t a NaN.
Proof.
  intros Ht. unfold fillna.
  rewrite (nth_map2_lt _ a (shift_fwd a) NaN NaN NaN t Ht)
    by now rewrite length_shift_fwd.
  now rewrite nth_shift_fwd.
Qed.

Lemma length_carry_forward (p : fl) (a : list fl) :
  length (carry_forward p a) = length a.
Proof.
  revert p. induction a as [|x r IH]; intros p; [reflexivity|].
  cbn [carry_forward length]. now rewrite IH.
Qed.

Lemma nth_carry_forward (a : list fl) :
  forall (p : fl) (t : nat),
    (t < length a)%nat ->
    nth t (carry_forward p a) NaN
    = if isnan (nth t a NaN)
      then match t with
           | O => p
           | S t' => nth t' (carry_forward p a) NaN
           end
      else nth t a NaN.
Proof.
  induction a as [|x r IH]; intros p t Ht; [cbn in Ht; lia|].
  cbn [carry_forward]. destruct t as [|t]; [reflexivity|].
  cbn [nth length] in *. rewrite IH by lia.
  destruct t as [|t]; reflexivity.
Qed.

Lemma fill_rounds (l : list fl) (k : nat) :
  let a := Nat.iter k (fun a => fillna a (shift_fwd a)) l in
  length a = length l /\
  forall t, (t < length l)%nat ->
    (nth t a NaN = nth t (carry_forward NaN l) NaN \/ nth t a NaN = NaN) /\
    (isnan (nth t l NaN) = false -> nth t a NaN = nth t l NaN) /\
    ((t < k)%nat -> nth t a NaN = nth t (carry_forward NaN l) NaN).
Proof.
  induction k as [|k IH]; cbn zeta.
  - cbn [Nat.iter nat_rect]. split; [reflexivity|]. intros t Ht.
    rewrite (nth_carry_forward l NaN t Ht).
    split; [|split; [auto|lia]].
    destruct (nth t l NaN); cbn [isnan]; auto.
  - cbn [Nat.iter nat_rect]. cbn zeta in IH. destruct IH as [Hlen IH].
    fold (Nat.iter k (fun a => fillna a (shift_fwd a)) l).
    set (a := Nat.iter k (fun a => fillna a (shift_fwd a)) l) in *.
    split; [now rewrite length_fill_step|]. intros t Ht.
    rewrite (nth_fill_step a t) by now rewrite Hlen.
    destruct (IH t Ht) as (H1 & H2 & H3).
    pose proof (nth_carry_forward l NaN t Ht) as Hc.
    destruct (isnan (nth t a NaN)) eqn:Ea.
    + assert (Hl : isnan (nth t l NaN) = true).
      { destruct (isnan (nth t l NaN)) eqn:El; [reflexivity|].
        rewrite (H2 eq_refl), El in Ea. discriminate Ea. }
      rewrite Hl in Hc. split; [|split].
      * destruct t as [|t]; [now right|].
        destruct (IH t ltac:(lia)) as (H1' & _). rewrite Hc. exact H1'.
      * intros Hn. rewrite Hn in Hl. discriminate Hl.
      * intros Hk. rewrite Hc. destruct t as [|t]; [reflexivity|].
        destruct (IH t ltac:(lia)) as (_ & _ & H3'). apply H3'. lia.
    + split; [|split].
      * destruct H1 as [H1 | H1]; [now left|].
        rewrite H1 in Ea. discriminate Ea.
      * exact H2.
      * intros _. destruct H1 as [H1 | H1]; [exact H1|].
        rewrite H1 in Ea. discriminate Ea.
Qed.

Lemma forward_fill_rounds (l : list fl) :
  _forward_fill l = carry_forward NaN l.
Proof.
  unfold _forward_fill. destruct (fill_rounds l (length l)) as [Hlen H].
  apply (nth_ext _ _ NaN NaN).
  - now rewrite Hlen, length_carry_forward.
  - intros t Ht. rewrite Hlen in Ht. now apply H.
Qed.

Lemma carry_forward_settled (a : list fl) :
  forall p, carry_forward p (carry_forward p a) = carry_forward p a.
Proof.
  induction a as [|x r IH]; intros p; [reflexivity|].
  cbn [carry_forward]. destruct (isnan x) eqn:Ex.
  - destruct (isnan p); now rewrite IH.
  - rewrite Ex. now rewrite IH.
Qed.

(** Property X18.
    [_forward_fill] does what its docstring says: after as many rounds of
    [fillna(shift(time=1))] as there are time steps, every NaN of the series
    holds the last value before it that is not NaN and only the NaN before
    the first value remain.  The series keeps its length and its values that
    are not NaN, and filling a second time changes nothing. *)
Theorem forward_fill_carries_last_value (l : list fl) :
  _forward_fill l = carry_forward NaN l /\
  length (_forward_fill l) = length l /\
  (forall t, isnan (nth t l NaN) = false ->
             nth t (_forward_fill l) NaN = nth t l NaN) /\
  _forward_fill (_forward_fill l) = _forward_fill l.
Proof.
  rewrite !forward_fill_rounds.
  split; [reflexivity|]. split; [apply length_carry_forward|].
  split; [|apply carry_forward_settled].
  intros t Ht.
  destruct (Nat.lt_ge_cases t (length l)) as [Hlt | Hge].
  - now rewrite (nth_carry_forward l NaN t Hlt), Ht.
  - rewrite (nth_overflow l) in Ht by exact Hge. discriminate Ht.
Qed.

(** ** validationtoolbox.py: the burn mask *)

Lemma length_shift_back (a : list fl) : length (shift_back a) = length a.
Proof.
  destruct a as [|x r]; [reflexivity|].
  cbn [shift_back]. rewrite length_app. cbn [length]. lia.
Qed.

Lemma nth_shift_back (a : list fl) (t : nat) :
  nth t (shift_back a) NaN = nth (S t) a NaN.
Proof.
  destruct a as [|x r]; [now destruct t|]. cbn [shift_back nth].
  destruct (Nat.lt_ge_cases t (length r)) as [H | H].
  - now rewrite app_nth1.
  - rewrite app_nth2 by exact H. rewrite (nth_overflow r) by exact H.
    destruct (t - length r)%nat as [|[|n]]; reflexivity.
Qed.

(** Property X19.
    The burn mask of [_identify_burned_area] has one flag per time step.
    The first and the last time step are never flagged, whatever the data and
    the thresholds, because the shifted series are NaN there.  At any other
    step [t] the flag says that the filled NBR at [t] minus that at [t - 1]
    is below the first threshold, and the filled NBR at [t + 1] minus that
    at [t - 1] is below the second. *)
Theorem identify_burned_area_flags (l : list fl) (lag0 lag1 : fl) :
  length (_identify_burned_area l lag0 lag1) = length l /\
  nth 0 (_identify_burned_area l lag0 lag1) false = false /\
  nth (length l - 1) (_identify_burned_area l lag0 lag1) false = false /\
  forall t, (0 < t)%nat -> (t + 1 < length l)%nat ->
    nth t (_identify_burned_area l lag0 lag1) false
    = flt (fsub (nth t (carry_forward NaN l) NaN)
                (nth (t - 1) (carry_forward NaN l) NaN)) lag0
      && flt (fsub (nth (t + 1) (carry_forward NaN l) NaN)
                   (nth (t - 1) (carry_forward NaN l) NaN)) lag1.
Proof.
  unfold _identify_burned_area. rewrite forward_fill_rounds.
  set (A := carry_forward NaN l).
  assert (HA : length A = length l) by apply length_carry_forward.
  assert (Hlen : length (map2 andb
                    (map (fun b => flt b lag0) (map2 fsub A (shift_fwd A)))
                    (map (fun b => flt b lag1)
                         (map2 fsub (shift_back A) (shift_fwd A))))
                 = length l).
  { rewrite length_map2, !length_map, !length_map2, length_shift_fwd,
      length_shift_back. lia. }
  assert (Hnth : forall t, (t < length l)%nat ->
            nth t (map2 andb
                     (map (fun b => flt b lag0) (map2 fsub A (shift_fwd A)))
                     (map (fun b => flt b lag1)
                          (map2 fsub (shift_back A) (shift_fwd A)))) false
            = flt (fsub (nth t A NaN)
                        match t with O => NaN | S t' => nth t' A NaN end) lag0
              && flt (fsub (nth (S t) A NaN)
                           match t with O => NaN | S t' => nth t' A NaN end)
                     lag1).
  { intros t Ht.
    rewrite (nth_map2_lt andb _ _ false false false)
      by (rewrite length_map, length_map2, ?length_shift_fwd,
            ?length_shift_back; lia).
    rewrite (nth_map_lt (fun b => flt b lag0) _ NaN)
      by (rewrite length_map2, length_shift_fwd; lia).
    rewrite (nth_map_lt (fun b => flt b lag1) _ NaN)
      by (rewrite length_map2, length_shift_fwd, length_shift_back; lia).
    rewrite (nth_map2_lt fsub A (shift_fwd A) NaN NaN NaN)
      by (rewrite ?length_shift_fwd; lia).
    rewrite (nth_map2_lt fsub (shift_back A) (shift_fwd A) NaN NaN NaN)
      by (rewrite ?length_shift_fwd, ?length_shift_back; lia).
    rewrite nth_shift_fwd by lia. now rewrite nth_shift_back. }
  split; [exact Hlen|]. split; [|split].
  - destruct l as [|x r]; [reflexivity|].
    rewrite Hnth by (cbn; lia).
    destruct (nth 0 A NaN); reflexivity.
  - destruct l as [|x r] eqn:El; [reflexivity|]. rewrite <- El in *.
    assert (Hl : (0 < length l)%nat) by (rewrite El; cbn; lia).
    rewrite Hnth by lia.
    replace (S (length l - 1)) with (length A) by lia.
    rewrite (@nth_overflow _ A (length A) NaN) by lia.
    apply andb_false_iff. right.
    destruct (length l - 1)%nat as [|n]; [reflexivity|].
    now destruct (nth n A NaN).
  - intros t H0 Ht. rewrite Hnth by lia. destruct t as [|t]; [lia|].
    now replace (S t - 1)%nat with t by lia;
      replace (S t + 1)%nat with (S (S t)) by lia.
Qed.

(** ** validationtoolbox.py: the rates of [validate] *)

Lemma map2_combine {A B C : Type} (f : A -> B -> C) (l : list A)
  (m : list B) :
  map2 f l m = map (fun vt => f (fst vt) (snd vt)) (combine l m).
Proof.
  revert m. induction l as [|a l IH]; intros [|b m]; cbn; [reflexivity..|].
  now rewrite IH.
Qed.

Lemma fsum_indicator {A : Type} (g : A -> fl) (p : A -> bool) (l : list A) :
  (forall a, p a = true -> exists q, g a = Fin q /\ (q == 1)%Q) ->
  (forall a, p a = false -> g a = fzero) ->
  forall acc : Q,
  exists s,
    fold_left fadd (map g l) (Fin acc) = Fin s /\
    (s == acc + inject_Z (Z.of_nat (length (filter p l))))%Q.
Proof.
  intros H1 H0. induction l as [|a l IH]; intros acc.
  - exists acc. split; [reflexivity|]. cbn [filter length].
    change (inject_Z (Z.of_nat 0)) with 0%Q. ring.
  - cbn [map fold_left filter]. destruct (p a) eqn:Ep.
    + destruct (H1 a Ep) as (q & -> & Hq). cbn [fadd length].
      destruct (IH (acc + q)%Q) as (s & -> & Hs). exists s.
      split; [reflexivity|].
      rewrite Hs, Hq, Nat2Z.inj_succ, <- Z.add_1_r, inject_Z_plus.
      change (inject_Z 1) with 1%Q. ring.
    + rewrite (H0 a Ep). cbn [fadd fzero].
      destruct (IH (acc + 0)%Q) as (s & -> & Hs). exists s.
      split; [reflexivity|]. rewrite Hs. ring.
Qed.

Lemma correct_class (v t : fl) :
  if feqb v fone && feqb t fone
  then exists q, correct v t = Fin q /\ (q == 1)%Q
  else correct v t = fzero.
Proof.
  unfold correct, xr_where, fillna0.
  destruct (feqb v fone) eqn:Ev, (feqb t fone); cbn [andb isnan];
    try reflexivity.
  destruct v as [a| | |]; try discriminate Ev. cbn [isnan].
  exists a. split; [reflexivity|]. now apply Qeq_bool_iff.
Qed.

Lemma omission_class (v t : fl) :
  if feqb v fone && feqb t fzero
  then exists q, omission v t = Fin q /\ (q == 1)%Q
  else omission v t = fzero.
Proof.
  unfold omission, xr_where, fillna0.
  destruct (feqb v fone) eqn:Ev, (feqb t fzero); cbn [andb isnan];
    try reflexivity.
  destruct v as [a| | |]; try discriminate Ev. cbn [isnan].
  exists a. split; [reflexivity|]. now apply Qeq_bool_iff.
Qed.

Lemma commission_class (v t : fl) :
  if feqb v fzero && feqb t fone
  then exists q, commission v t = Fin q /\ (q == 1)%Q
  else commission v t = fzero.
Proof.
  unfold commission, xr_where, fillna0.
  destruct (feqb v fzero) eqn:Ev, (feqb t fone); cbn [andb isnan fadd];
    try reflexivity.
  destruct v as [a| | |]; try discriminate Ev. cbn [fadd fone isnan].
  exists (a + 1)%Q. split; [reflexivity|].
  apply Qeq_bool_iff in Ev. rewrite Ev. reflexivity.
Qed.

Lemma class_sum (g : fl -> fl -> fl) (c : fl -> fl -> bool)
  (V T : list fl) :
  (forall v t, if c v t then exists q, g v t = Fin q /\ (q == 1)%Q
               else g v t = fzero) ->
  exists s, fsum (map2 g V T) = Fin s /\ (s == inject_Z (pixels c V T))%Q.
Proof.
  intros Hc. rewrite map2_combine. unfold fsum, fzero, pixels.
  destruct (fsum_indicator (fun vt => g (fst vt) (snd vt))
              (fun vt => c (fst vt) (snd vt)) (combine V T)) with (acc := 0%Q)
    as (s & Hs & Hq).
  - intros [v t] E. cbn [fst snd] in *. specialize (Hc v t).
    now rewrite E in Hc.
  - intros [v t] E. cbn [fst snd] in *. specialize (Hc v t).
    now rewrite E in Hc.
  - exists s. split; [exact Hs|]. rewrite Hq. ring.
Qed.

Lemma Qsign_compat (a b : Q) : (a == b)%Q -> Qsign a = Qsign b.
Proof.
  unfold Qeq, Qsign. destruct a as [na da], b as [nb db]. cbn [Qnum Qden].
  intros E. destruct na, nb; cbn in E |- *; try reflexivity;
    discriminate E.
Qed.

Lemma fdiv_feq (a a' b b' : Q) :
  (a == a')%Q -> (b == b')%Q ->
  feq (fdiv (Fin a) (Fin b)) (fdiv (Fin a') (Fin b')).
Proof.
  intros Ha Hb. cbn [fdiv].
  assert (Hz : Qeq_bool b 0 = Qeq_bool b' 0).
  { destruct (Qeq_bool b 0) eqn:E, (Qeq_bool b' 0) eqn:E'; trivial.
    - apply Qeq_bool_iff in E. rewrite Hb in E. apply Qeq_bool_iff in E.
      congruence.
    - apply Qeq_bool_iff in E'. rewrite <- Hb in E'.
      apply Qeq_bool_iff in E'. congruence. }
  rewrite <- Hz, (Qsign_compat a a' Ha).
  destruct (Qeq_bool b 0) eqn:E.
  - unfold inf_of_sign. destruct (Qsign a' =? 0), (0 <? Qsign a'); exact I.
  - cbn [feq]. rewrite Ha, Hb. reflexivity.
Qed.

Lemma three_classes {A : Type} (p q r : A -> bool) (l : list A) :
  (forall a, p a && q a = false) -> (forall a, p a && r a = false) ->
  (forall a, q a && r a = false) ->
  (length (filter p l) + length (filter q l) + length (filter r l)
   <= length l)%nat.
Proof.
  intros Hpq Hpr Hqr. induction l as [|a l IH]; [cbn; lia|].
  cbn [filter length]. specialize (Hpq a). specialize (Hpr a).
  specialize (Hqr a).
  destruct (p a), (q a), (r a); cbn [length] in *; try discriminate; lia.
Qed.

Lemma ratio_within (a b : Z) (x : fl) :
  0 <= a <= b ->
  feq x (fdiv (of_Z a) (of_Z b)) -> x = NaN \/ within 0 1 x.
Proof.
  intros Hab Hx. unfold of_Z in Hx. cbn [fdiv] in Hx.
  destruct (Qeq_bool (inject_Z b) 0) eqn:E.
  - apply Qeq_bool_iff in E. change 0%Q with (inject_Z 0) in E.
    apply (proj1 (inject_Z_injective b 0)) in E.
    assert (a = 0) as -> by lia. left.
    change (inf_of_sign (Qsign (inject_Z 0))) with NaN in Hx.
    destruct x; try contradiction. reflexivity.
  - right. destruct x as [q| | |]; try contradiction. cbn [feq] in Hx.
    assert (Hb : (0 < inject_Z b)%Q).
    { change 0%Q with (inject_Z 0). rewrite <- Zlt_Qlt.
      assert (b <> 0); [|lia]. intros ->.
      rewrite (proj2 (Qeq_bool_iff (inject_Z 0) 0)) in E by reflexivity.
      discriminate E. }
    exists q. split; [reflexivity|]. rewrite Hx. split.
    + apply Qle_shift_div_l; [exact Hb|]. rewrite Qmult_0_l.
      change 0%Q with (inject_Z 0). rewrite <- Zle_Qle. lia.
    + apply Qle_shift_div_r; [exact Hb|]. rewrite Qmult_1_l.
      rewrite <- Zle_Qle. lia.
Qed.

(** Property X21.
    The rates [validate] returns are ratios of pixel counts.  With [tp]
    the pixels that are 1 in both arrays, [fn] those that are 1 in the
    validated and 0 in the tested array, and [fp] those that are 0 in the
    validated and 1 in the tested array, the true positive rate is
    [tp / (tp + fn)] and the false positive rate is [fp / (N - tp - fn)]:
    every pixel outside the three classes counts as a correct negative,
    whatever its values, NaN included.  Each rate is NaN (0/0) or lies
    between 0 and 1. *)
Theorem validate_rates (Test_Array Validated_Array : list fl) :
  let tp := pixels (fun v t => feqb v fone && feqb t fone)
                   Validated_Array Test_Array in
  let fn := pixels (fun v t => feqb v fone && feqb t fzero)
                   Validated_Array Test_Array in
  let fp := pixels (fun v t => feqb v fzero && feqb t fone)
                   Validated_Array Test_Array in
  let N := Z.of_nat (length Validated_Array) in
  feq (TPR (validate Test_Array Validated_Array))
      (fdiv (of_Z tp) (of_Z (tp + fn))) /\
  feq (FPR (validate Test_Array Validated_Array))
      (fdiv (of_Z fp) (of_Z (N - tp - fn))) /\
  tp + fn + fp <= N /\
  (TPR (validate Test_Array Validated_Array) = NaN \/
   within 0 1 (TPR (validate Test_Array Validated_Array))) /\
  (FPR (validate Test_Array Validated_Array) = NaN \/
   within 0 1 (FPR (validate Test_Array Validated_Array))).
Proof.
  cbv zeta.
  set (V := Validated_Array). set (T := Test_Array).
  set (ctp := fun v t => feqb v fone && feqb t fone).
  set (cfn := fun v t => feqb v fone && feqb t fzero).
  set (cfp := fun v t => feqb v fzero && feqb t fone).
  destruct (class_sum correct ctp V T correct_class)
    as (s11 & H11 & Q11).
  destruct (class_sum omission cfn V T omission_class)
    as (s21 & H21 & Q21).
  destruct (class_sum commission cfp V T commission_class)
    as (s12 & H12 & Q12).
  assert (Hpos : 0 <= pixels ctp V T /\ 0 <= pixels cfn V T /\
                 0 <= pixels cfp V T) by (unfold pixels; lia).
  assert (Hsum : pixels ctp V T + pixels cfn V T + pixels cfp V T
                 <= Z.of_nat (length V)).
  { unfold pixels.
    pose proof (three_classes (fun vt : fl * fl => ctp (fst vt) (snd vt))
                  (fun vt => cfn (fst vt) (snd vt))
                  (fun vt => cfp (fst vt) (snd vt)) (combine V T)) as H3.
    assert (Hex : forall x : fl, feqb x fone && feqb x fzero = false).
    { intros [q| | |]; try reflexivity. cbn [feqb fone fzero].
      destruct (Qeq_bool q 1) eqn:E1; [|reflexivity].
      apply Qeq_bool_iff in E1. apply not_true_is_false. intros E0.
      apply Qeq_bool_iff in E0. rewrite E1 in E0. discriminate E0. }
    rewrite length_combine in H3.
    assert (length (filter (fun vt => ctp (fst vt) (snd vt)) (combine V T))
            + length (filter (fun vt => cfn (fst vt) (snd vt)) (combine V T))
            + length (filter (fun vt => cfp (fst vt) (snd vt)) (combine V T))
            <= Nat.min (length V) (length T))%nat; [|lia].
    apply H3; intros [v t]; cbn [fst snd]; unfold ctp, cfn, cfp.
    - pose proof (Hex t). destruct (feqb v fone), (feqb t fone),
        (feqb t fzero); try reflexivity; discriminate.
    - pose proof (Hex v). destruct (feqb v fone), (feqb v fzero),
        (feqb t fone); try reflexivity; discriminate.
    - pose proof (Hex v). destruct (feqb v fone), (feqb v fzero),
        (feqb t fone), (feqb t fzero); try reflexivity; discriminate. }
  assert (HT : feq (TPR (validate T V))
                   (fdiv (of_Z (pixels ctp V T))
                         (of_Z (pixels ctp V T + pixels cfn V T)))).
  { unfold validate. cbn [TPR]. fold V T. rewrite H11, H21. cbn [fadd].
    unfold of_Z. apply fdiv_feq; [exact Q11|].
    rewrite Q11, Q21, inject_Z_plus. reflexivity. }
  assert (HF : feq (FPR (validate T V))
                   (fdiv (of_Z (pixels cfp V T))
                         (of_Z (Z.of_nat (length V) - pixels ctp V T
                                - pixels cfn V T)))).
  { unfold validate. cbn [FPR]. fold V T. rewrite H11, H21, H12.
    unfold of_Z. cbn [fsub fneg fadd]. apply fdiv_feq; [exact Q12|].
    rewrite Q11, Q21, Q12. unfold Z.sub.
    rewrite !inject_Z_plus, !inject_Z_opp. ring. }
  split; [exact HT|]. split; [exact HF|]. split; [exact Hsum|].
  split.
  - apply (ratio_within (pixels ctp V T)
             (pixels ctp V T + pixels cfn V T)); [lia|exact HT].
  - apply (ratio_within (pixels cfp V T)
             (Z.of_nat (length V) - pixels ctp V T - pixels cfn V T));
      [lia|exact HF].
Qed.

(** ** severitymapping: the pixels that are scored *)

Lemma above_threshold_positive (c thr : fl) :
  flt thr fzero = false -> isnan thr = false -> fgt c thr = true ->
  flt fzero c = true.
Proof.
  unfold fgt. destruct thr as [t| | |], c as [q| | |]; cbn [flt isnan fzero];
    try discriminate; auto.
  intros Ht _ Hc. apply Qlt_bool_false in Ht. apply Qlt_bool_true in Hc.
  apply Qlt_bool_true. lra.
Qed.

Lemma flagged_sum (c : nat -> fl) (F : nat -> bool) (steps : list nat) :
  (forall t, F t = true -> flt fzero (c t) = true) ->
  fgt (nansum (map (fun t => xr_where (c t) (F t)) steps)) fzero
  = existsb F steps.
Proof.
  intros Hpos. unfold nansum.
  assert (Hkeep : filter (fun x => negb (isnan x))
                    (map (fun t => xr_where (c t) (F t)) steps)
                  = map c (filter F steps)).
  { induction steps as [|t steps IH]; [reflexivity|].
    cbn [map filter]. unfold xr_where at 1.
    destruct (F t) eqn:E; cbn [isnan negb]; [|exact IH].
    destruct (positive_not_negative _ (Hpos t E)) as [_ Hn].
    rewrite Hn. cbn [negb map]. now rewrite IH. }
  rewrite Hkeep. unfold fgt, fsum. rewrite fold_left_map.
  destruct (filter F steps) as [|t0 sel] eqn:Esel.
  - cbn [fold_left]. symmetry. apply not_true_is_false. intros E.
    apply existsb_exists in E. destruct E as (t & Ht & Ft).
    assert (In t (filter F steps)) as Hin by (apply filter_In; now split).
    rewrite Esel in Hin. destruct Hin.
  - assert (existsb F steps = true) as ->.
    { apply existsb_exists. exists t0.
      apply filter_In. rewrite Esel. now left. }
    apply (fold_positive c (t0 :: sel)); try reflexivity; [|discriminate].
    intros t Ht. apply Hpos. rewrite <- Esel in Ht.
    now apply filter_In in Ht.
Qed.

(** Property X22.
    With a cosine-distance threshold that is not negative and one of the
    two methods (or none, which is ['NBR']), [severitymapping] puts a pixel
    into [outlierind], and so scores it, exactly when the method flags at
    least one of its time steps; any other method raises ValueError. *)
Theorem severitymapping_scores_flagged_pixels (method : option String.string)
  (cos nbr nbrdist dir : list fl) (cthr nthr : fl) :
  flt cthr fzero = false -> isnan cthr = false ->
  (method = None \/ method = Some "NBR"%string \/
   method = Some "NBRdist"%string ->
   exists b,
     in_outlierind method cos nbr nbrdist dir cthr nthr = Ok b /\
     (b = true <->
      exists t, (t < length cos)%nat /\
        change_flag method (nth t cos NaN) cthr (nth t nbr NaN)
          (nth t nbrdist NaN) nthr (nth t dir NaN) = Ok true)) /\
  (forall m, method = Some m -> m <> "NBR"%string -> m <> "NBRdist"%string ->
     in_outlierind method cos nbr nbrdist dir cthr nthr = Err ValueError).
Proof.
  intros Hthr Hnan. split.
  - intros Hm.
    assert (Hgen : forall F : nat -> bool,
              (forall t, F t = true -> fgt (nth t cos NaN) cthr = true) ->
              (fgt (nansum (map (fun t => xr_where (nth t cos NaN) (F t))
                                (seq 0 (length cos)))) fzero = true
               <-> exists t, (t < length cos)%nat /\ Ok (F t) = Ok true)).
    { intros F HF. rewrite flagged_sum.
      - rewrite existsb_exists. split.
        + intros (t & Ht & Ft). apply in_seq in Ht. exists t.
          split; [lia|now rewrite Ft].
        + intros (t & Ht & Ft). exists t. split; [apply in_seq; lia|].
          now injection Ft.
      - intros t Ft. apply (above_threshold_positive _ cthr); auto. }
    unfold in_outlierind, prefilter_sum, change_flag.
    destruct Hm as [-> | [-> | ->]];
      cbn [severitymapping_default_method String.eqb Ascii.eqb Bool.eqb bind];
      eexists; (split; [reflexivity|]); apply Hgen; intros t Ft.
    + now apply andb_true_iff in Ft.
    + now apply andb_true_iff in Ft.
    + apply andb_true_iff in Ft. destruct Ft as [Ft _].
      now apply andb_true_iff in Ft.
  - intros m -> H1 H2. unfold in_outlierind, prefilter_sum.
    apply String.eqb_neq in H1, H2. now rewrite H1, H2.
Qed.

Lemma severitymapping_scores_flagged_pixels_witness :
  exists b,
    in_outlierind None ex_CDist ex_NBR ex_NBRDist ex_Sign (Fin (1 # 2))
      (Fin (3 # 10)) = Ok b /\
    (b = true <->
     exists t, (t < length ex_CDist)%nat /\
       change_flag None (nth t ex_CDist NaN) (Fin (1 # 2)) (nth t ex_NBR NaN)
         (nth t ex_NBRDist NaN) (Fin (3 # 10)) (nth t ex_Sign NaN) = Ok true).
Proof.
  destruct (severitymapping_scores_flagged_pixels None ex_CDist ex_NBR
              ex_NBRDist ex_Sign (Fin (1 # 2)) (Fin (3 # 10)))
    as [H _]; [reflexivity|reflexivity|].
  apply H. now left.
Defined.

(** ** load_cube: the time steps a pixel keeps *)

Lemma cube_entry (stack : list (list raw_obs)) (i b t : nat) :
  nth b (nth i (nth t (load_cube stack) []) []) 0
  = nth b (nbart (nth i (nth t (kept stack) []) no_data)) 0
    * bool_int (goodpix (nth i (nth t (kept stack) []) no_data)).
Proof.
  unfold load_cube.
  assert (H1 : nth t (map (map masked) (kept stack)) []
               = map masked (nth t (kept stack) []))
    by exact (map_nth (map masked) (kept stack) [] t).
  assert (H2 : nth i (map masked (nth t (kept stack) [])) []
               = masked (nth i (nth t (kept stack) []) no_data))
    by exact (map_nth masked (nth t (kept stack) []) no_data i).
  rewrite H1, H2. unfold masked.
  set (o := nth i (nth t (kept stack) []) no_data).
  destruct (Nat.lt_ge_cases b (length (nbart o))) as [Hb | Hb].
  - now rewrite (nth_map_lt (fun v => v * bool_int (goodpix o)) _ 0).
  - rewrite !nth_overflow; [reflexivity|exact Hb|now rewrite length_map].
Qed.

(** Property X23.
    What [load_cube] leaves of an observation decides what the later
    stages use of it.  In the cube, every band of a grid cell at a kept time
    step is the loaded reflectance where the cell is cloud free, has a
    positive pixel-quality value and a positive red reflectance, and 0
    elsewhere.  So the time steps that [dist_geomedian] and [dist_distance]
    take as valid for a pixel, those with green above 0, are exactly the kept
    time steps at which the cell passed the three tests and its loaded green
    reflectance is positive. *)
Theorem load_cube_valid_steps (stack : list (list raw_obs)) (i : nat) :
  (forall b t,
     nth b (nth i (nth t (load_cube stack) []) []) 0
     = if goodpix (nth i (nth t (kept stack) []) no_data)
       then nth b (nbart (nth i (nth t (kept stack) []) no_data)) 0
       else 0) /\
  exists ind,
    valid_ind (cube_pixel (load_cube stack) i) = Ok ind /\
    forall t,
      In t ind <->
      (t < length (kept stack))%nat /\
      no_cloud (nth i (nth t (kept stack) []) no_data) = true /\
      0 < pixelquality (nth i (nth t (kept stack) []) no_data) /\
      0 < nth 0 (nbart (nth i (nth t (kept stack) []) no_data)) 0 /\
      0 < nth 1 (nbart (nth i (nth t (kept stack) []) no_data)) 0.
Proof.
  split.
  - intros b t. rewrite cube_entry.
    destruct (goodpix _); cbn [bool_int]; lia.
  - unfold valid_ind, cube_pixel. cbn [seq map get nth_error bind].
    eexists. split; [reflexivity|]. intros t.
    rewrite np_where_In, !length_map.
    assert (Hlen : length (load_cube stack) = length (kept stack))
      by (unfold load_cube; apply length_map).
    rewrite Hlen. split.
    + intros [Ht Hv]. split; [exact Ht|].
      rewrite (nth_mask (fun v => 0 <? v) _ 0) in Hv
        by (rewrite length_map; lia).
      rewrite (nth_map_lt (fun row => nth 1 (nth i row []) 0) _ []) in Hv
        by lia.
      rewrite cube_entry in Hv. apply Z.ltb_lt in Hv.
      set (o := nth i (nth t (kept stack) []) no_data) in *.
      destruct (goodpix o) eqn:Eg; cbn [bool_int] in Hv; [|lia].
      unfold goodpix, good_pixel in Eg.
      apply andb_true_iff in Eg. destruct Eg as [Eg E3].
      apply andb_true_iff in Eg. destruct Eg as [E1 E2].
      apply Z.ltb_lt in E2.
      destruct (0 <? nth 0 (nbart o) 0) eqn:Er; [|discriminate E3].
      apply Z.ltb_lt in Er. repeat split; trivial. lia.
    + intros (Ht & E1 & E2 & Er & Eg). split; [exact Ht|].
      rewrite (nth_mask (fun v => 0 <? v) _ 0) by (rewrite length_map; lia).
      rewrite (nth_map_lt (fun row => nth 1 (nth i row []) 0) _ []) by lia.
      rewrite cube_entry.
      set (o := nth i (nth t (kept stack) []) no_data) in *.
      assert (goodpix o = true) as ->.
      { unfold goodpix, good_pixel. rewrite E1.
        apply Z.ltb_lt in E2, Er. now rewrite E2, Er. }
      cbn [bool_int]. apply Z.ltb_lt. lia.
Qed.
